(** * Retrieval core of the RAG chat bot (src/hooks/useRAG.ts)

    A shallow embedding of [chunkText], [calculateSimilarity],
    [retrieveRelevantChunks], [addDocument] and [deleteDocument], together
    with the ECMAScript primitives they call, and the properties of the
    design document checked against them; then [generateResponse] and
    [sendMessage] of the same hook, the handlers of the upload form
    (components/DocumentPanel.tsx) and of the chat form
    (components/ChatInput.tsx), and the way App.tsx wires them to the hook,
    with further properties of all of these.

    Conventions.
    - A JavaScript string is a sequence of UTF-16 code units.  The embedding
      covers the code units 0..255 (the ISO-8859-1 range), written as
      [list ascii]; on that range [toLowerCase], [\w], [\s] and [trim] are
      given exactly as ECMAScript defines them.
    - A JavaScript Number is an IEEE-754 binary64 value, written as
      [spec_float] with the operations of [SpecFloat] at precision 53 and
      maximal exponent 1024. *)

From Stdlib Require Import Ascii String.
From Stdlib Require Import List ZArith Lia Bool Arith.
From Stdlib Require Import Sorted Permutation.
From Stdlib Require Import Floats.SpecFloat.
From Stdlib Require DecimalString DecimalPos DecimalZ.
Import ListNotations.

Local Open Scope list_scope.

(** ** Strings *)

Module JS.

Definition str := list ascii.

Definition lit (s : string) : str := list_ascii_of_string s.

Definition code (c : ascii) : nat := nat_of_ascii c.

Definition between (lo hi n : nat) : bool := (lo <=? n) && (n <=? hi).

(** [\w] without the [u] and [i] flags: [A-Za-z0-9_]. *)
Definition isWordChar (c : ascii) : bool :=
  between 48 57 (code c) || between 65 90 (code c)
  || between 97 122 (code c) || (code c =? 95).

(** [\s], and the characters [trim] strips (WhiteSpace and LineTerminator):
    TAB, LF, VT, FF, CR, SPACE and NO-BREAK SPACE are the ones below 256. *)
Definition isWhiteSpace (c : ascii) : bool :=
  between 9 13 (code c) || (code c =? 32) || (code c =? 160).

(** [String.prototype.toLowerCase] on one code unit: A-Z, and the capitals
    U+00C0..U+00DE other than the multiplication sign U+00D7. *)
Definition toLowerChar (c : ascii) : ascii :=
  let n := code c in
  if between 65 90 n || (between 192 222 n && negb (n =? 215))
  then ascii_of_nat (n + 32) else c.

Definition toLowerCase (s : str) : str := map toLowerChar s.

Definition str_eq_dec : forall a b : str, {a = b} + {a <> b} :=
  list_eq_dec ascii_dec.

Definition str_eqb (a b : str) : bool :=
  if str_eq_dec a b then true else false.

Fixpoint trimStart (s : str) : str :=
  match s with
  | c :: r => if isWhiteSpace c then trimStart r else s
  | [] => []
  end.

Definition trimEnd (s : str) : str := rev (trimStart (rev s)).

Definition trim (s : str) : str := trimEnd (trimStart s).

(** [s.split(re)] for a regular expression [re] of the shape [[class]+]:
    the pieces between the maximal runs of separator characters.  A run at
    the very start or the very end leaves an empty piece there, and the
    empty string splits into one empty piece.  [inRun] says that the
    previous character was a separator. *)
Fixpoint splitRuns (sep : ascii -> bool) (inRun : bool) (s : str) : list str :=
  match s with
  | [] => [[]]
  | c :: r =>
      if sep c then
        if inRun then splitRuns sep true r else [] :: splitRuns sep true r
      else
        match splitRuns sep false r with
        | p :: ps => (c :: p) :: ps
        | [] => [[c]]
        end
  end.

Definition splitRegex (sep : ascii -> bool) (s : str) : list str :=
  splitRuns sep false s.

(** [s.split(d)] for a one-character string [d]: every occurrence of [d]
    separates two pieces, empty ones included. *)
Fixpoint splitChar (d : ascii) (s : str) : list str :=
  match s with
  | [] => [[]]
  | c :: r =>
      if Ascii.eqb c d then [] :: splitChar d r
      else
        match splitChar d r with
        | p :: ps => (c :: p) :: ps
        | [] => [[c]]
        end
  end.

(** A string of white space only; [trim] leaves nothing of it. *)
Definition blank (s : str) : bool := forallb isWhiteSpace s.

(** [a.join(d)]. *)
Fixpoint join (d : str) (a : list str) : str :=
  match a with
  | [] => []
  | [x] => x
  | x :: rest => x ++ d ++ join d rest
  end.

(** [a.slice(start, end)]: a negative index counts from the end of the
    array, and both indices are clamped to [0, a.length]. *)
Definition relIndex (len i : Z) : Z :=
  if (i <? 0)%Z then Z.max (len + i) 0 else Z.min i len.

Definition slice {A} (a : list A) (start stop : Z) : list A :=
  let len := Z.of_nat (length a) in
  let k := relIndex len start in
  let final := relIndex len stop in
  firstn (Z.to_nat (final - k)) (skipn (Z.to_nat k) a).

(** [a.slice(start)]: the end defaults to [a.length]. *)
Definition sliceFrom {A} (a : list A) (start : Z) : list A :=
  slice a start (Z.of_nat (length a)).

(** [s.includes(p)]. *)
Fixpoint startsWith (p s : str) : bool :=
  match p, s with
  | [], _ => true
  | _ :: _, [] => false
  | a :: p', b :: s' => Ascii.eqb a b && startsWith p' s'
  end.

Fixpoint includes (s p : str) : bool :=
  startsWith p s ||
  match s with
  | [] => false
  | _ :: r => includes r p
  end.

End JS.

Import JS.

(** ** Chunker *)

(** The character class of [/[.!?]+/]. *)
Definition isSentenceEnd (c : ascii) : bool :=
  (code c =? 46) || (code c =? 33) || (code c =? 63).

(** [text.split(/[.!?]+/).filter(s => s.trim().length > 0)]. *)
Definition sentencesOf (text : str) : list str :=
  filter (fun s => 0 <? length (trim s)) (splitRegex isSentenceEnd text).

(** The two variables the loop of [chunkText] updates. *)
Record ChunkState := mkChunkState {
  chunks : list str;
  currentChunk : str
}.

(** [-overlap / 10] as [slice] reads it: the quotient truncated towards
    zero ([overlap] is an integer). *)
Definition overlapStart (overlap : Z) : Z := Z.quot (- overlap) 10.

(** One iteration of [for (const sentence of sentences)]. *)
Definition chunkStep (chunkSize overlap : Z) (st : ChunkState) (sentence : str)
  : ChunkState :=
  let cur := currentChunk st in
  if ((Z.of_nat (length cur) + Z.of_nat (length sentence) >? chunkSize)%Z
      && (0 <? length cur))
  then
    let words := splitChar " " cur in
    mkChunkState (chunks st ++ [trim cur])
      (join (lit " ") (sliceFrom words (overlapStart overlap))
         ++ lit " " ++ sentence)
  else
    mkChunkState (chunks st)
      (cur ++ (match cur with [] => [] | _ => lit ". " end) ++ sentence).

(** The chunks pushed by the loop and by the flush that follows it. *)
Definition accumulate (chunkSize overlap : Z) (text : str) : list str :=
  let st := fold_left (chunkStep chunkSize overlap) (sentencesOf text)
              (mkChunkState [] []) in
  match trim (currentChunk st) with
  | [] => chunks st
  | t => chunks st ++ [t]
  end.

Definition chunkText (text : str) (chunkSize overlap : Z) : list str :=
  match accumulate chunkSize overlap text with
  | [] => [text]
  | cs => cs
  end.

(** The default arguments of [chunkText]. *)
Definition defaultChunkSize : Z := 500.
Definition defaultOverlap : Z := 50.

(** ** Numbers *)

Module Num.

Definition prec : Z := 53.
Definition emax : Z := 1024.

Definition number := spec_float.

(** An integer as a Number. *)
Definition ofZ (z : Z) : number := binary_normalize prec emax z 0 false.
Definition ofNat (n : nat) : number := ofZ (Z.of_nat n).

Definition add : number -> number -> number := SFadd prec emax.
Definition sub : number -> number -> number := SFsub prec emax.
Definition div : number -> number -> number := SFdiv prec emax.

(** [x < y]; a comparison with NaN is false. *)
Definition ltb (x y : number) : bool := SFltb x y.
Definition leb (x y : number) : bool := SFleb x y.

Definition zero : number := S754_zero false.
Definition one : number := S754_finite false 4503599627370496 (-52).

(** The literals [0.3] and [0.1]: the doubles nearest to 3/10 and 1/10. *)
Definition lit_0_3 : number := S754_finite false 5404319552844595 (-54).
Definition lit_0_1 : number := S754_finite false 7205759403792794 (-56).

Definition isNaN (x : number) : bool :=
  match x with S754_nan => true | _ => false end.

(** [Math.min(x, y)]: NaN if either argument is; otherwise the arguments
    are taken in turn, and [y] replaces [x] when it is smaller, or when it
    is -0 and [x] is +0. *)
Definition min (x y : number) : number :=
  if isNaN x || isNaN y then S754_nan
  else if ltb y x then y
  else match y, x with
       | S754_zero true, S754_zero false => y
       | _, _ => x
       end.

(** A finite Number is a whole multiple of 2^-1074, the least positive
    double; [units] is that multiple when the exponent is at least -1074,
    as it is for every result of an arithmetic operation.  It is the exact
    value of the Number on the scale 2^-1074. *)
Definition emin : Z := emin prec emax.

Definition units (x : number) : Z :=
  match x with
  | S754_finite s m e => cond_Zopp s (Zpos m) * 2 ^ (e - emin)
  | _ => 0
  end.

(** The Numbers whose comparison [SFcompare] decides by value: the finite
    ones are in the canonical form of binary64. *)
Definition wf (x : number) : bool := valid_binary prec emax x.

(** The positive finite Numbers in canonical form. *)
Definition posFinite (x : number) : bool :=
  match x with
  | S754_finite false _ _ => wf x
  | _ => false
  end.

(** [x === y] on Numbers. *)
Definition eqb (x y : number) : bool := SFeqb x y.

(** [0 <= x]. *)
Definition nonneg (x : number) : bool := leb zero x.

Definition mul : number -> number -> number := SFmul prec emax.

(** [Math.round(x)]: the integer nearest to [x], the larger of the two at a
    tie; a zero result keeps the sign of [x]. *)
Definition round (x : number) : number :=
  match x with
  | S754_finite s m e =>
      if (0 <=? e)%Z then x
      else
        let n := ((cond_Zopp s (Zpos m) * 2 + 2 ^ (- e)) / 2 ^ (1 - e))%Z in
        if (n =? 0)%Z then S754_zero s else ofZ n
  | _ => x
  end.

End Num.

(** ** Regular expressions

    The matcher of ECMAScript in continuation style: a matcher receives
    the character before the current position and the rest of the input,
    and answers with the input left after the whole match, or fails.  A
    greedy [+] first tries one more repetition and falls back on its
    continuation. *)

Module Regex.

Definition Continuation := option ascii -> str -> option str.

Definition accept : Continuation := fun _ rest => Some rest.

Definition isWordAt (c : option ascii) : bool :=
  match c with Some a => isWordChar a | None => false end.

(** [\b]: exactly one of the two neighbours is a word character. *)
Definition wordBoundary (k : Continuation) : Continuation :=
  fun prev s => if xorb (isWordAt prev) (isWordAt (hd_error s)) then k prev s else None.

(** [c+] for a character class [c]. *)
Fixpoint plus (cls : ascii -> bool) (k : Continuation)
  (prev : option ascii) (s : str) : option str :=
  match s with
  | c :: r =>
      if cls c then
        match plus cls k (Some c) r with
        | Some rest => Some rest
        | None => k (Some c) r
        end
      else None
  | [] => None
  end.

(** [s.match(re)] for a regular expression with the [g] flag, or [[]] when
    [match] answers [null]: the matches found from left to right, each
    search resuming where the previous match ended (one character further
    after a failed attempt or an empty match).  [skip] counts the
    characters of the previous match still to be passed over. *)
Fixpoint matchGlobal (re : Continuation) (skip : nat)
  (prev : option ascii) (s : str) : list str :=
  match skip with
  | S n =>
      match s with
      | c :: r => matchGlobal re n (Some c) r
      | [] => []
      end
  | O =>
      match re prev s with
      | Some rest =>
          let m := firstn (length s - length rest) s in
          m :: match s with
               | c :: r => matchGlobal re (length m - 1) (Some c) r
               | [] => []
               end
      | None =>
          match s with
          | c :: r => matchGlobal re 0 (Some c) r
          | [] => []
          end
      end
  end.

Definition matchAll (re : Continuation) (s : str) : list str :=
  matchGlobal re 0 None s.

(** A literal character. *)
Definition char (a : ascii) (k : Continuation) : Continuation :=
  fun prev s =>
    match s with
    | c :: r => if Ascii.eqb c a then k (Some c) r else None
    | [] => None
    end.

(** [$] without the [m] flag: the end of the input. *)
Definition atEnd (k : Continuation) : Continuation :=
  fun prev s =>
    match s with
    | [] => k prev s
    | _ :: _ => None
    end.

(** [s.replace(re, '')] for a regular expression without the [g] flag: the
    first match, searched from the left, is removed. *)
Fixpoint removeFirst (re : Continuation) (prev : option ascii) (s : str)
  : str :=
  match re prev s with
  | Some rest => rest
  | None =>
      match s with
      | c :: r => c :: removeFirst re (Some c) r
      | [] => []
      end
  end.

(** The first character of [s], if any, is outside the class. *)
Definition stopsAt (cls : ascii -> bool) (s : str) : Prop :=
  match s with
  | c :: _ => cls c = false
  | [] => True
  end.

(** [Slices s ms]: the strings [ms] are consecutive, pairwise disjoint
    pieces of [s], in the order in which they occur in [s]. *)
Inductive Slices : str -> list str -> Prop :=
| Slices_nil s : Slices s []
| Slices_cons gap m rest ms :
    Slices rest ms -> Slices (gap ++ m ++ rest) (m :: ms).

End Regex.

(** ** Similarity scorer *)

(** [/\W+/]: the class of the separator. *)
Definition isNonWord (c : ascii) : bool := negb (isWordChar c).

(** [s.toLowerCase().split(/\W+/).filter(w => w.length > 2)]. *)
Definition wordsOf (s : str) : list str :=
  filter (fun w => 2 <? length w) (splitRegex isNonWord (toLowerCase s)).

(** A [Set] of strings: its elements in insertion order, each once. *)
Definition has (s : list str) (w : str) : bool := existsb (str_eqb w) s.

Definition setAdd (s : list str) (w : str) : list str :=
  if has s w then s else s ++ [w].

Definition newSet (l : list str) : list str := fold_left setAdd l [].

(** [/\b\w+\s+\w+\b/]. *)
Definition phrasePattern : Regex.Continuation :=
  Regex.wordBoundary
    (Regex.plus isWordChar
       (Regex.plus isWhiteSpace
          (Regex.plus isWordChar (Regex.wordBoundary Regex.accept)))).

(** [query.toLowerCase().match(/\b\w+\s+\w+\b/g) || []]. *)
Definition queryPhrases (query : str) : list str :=
  Regex.matchAll phrasePattern (toLowerCase query).

Definition intersectionOf (query text : str) : list str :=
  let querySet := newSet (wordsOf query) in
  let textSet := newSet (wordsOf text) in
  newSet (filter (has textSet) querySet).

Definition unionOf (query text : str) : list str :=
  let querySet := newSet (wordsOf query) in
  let textSet := newSet (wordsOf text) in
  newSet (querySet ++ textSet).

Definition jaccard (query text : str) : Num.number :=
  Num.div (Num.ofNat (length (intersectionOf query text)))
          (Num.ofNat (length (unionOf query text))).

(** The loop over [queryPhrases]. *)
Definition boostStep (text : str) (phraseBoost : Num.number) (phrase : str)
  : Num.number :=
  if includes (toLowerCase text) phrase
  then Num.add phraseBoost Num.lit_0_3 else phraseBoost.

Definition phraseBoost (query text : str) : Num.number :=
  fold_left (boostStep text) (queryPhrases query) Num.zero.

Definition calculateSimilarity (query text : str) : Num.number :=
  Num.min (Num.add (jaccard query text) (phraseBoost query text)) Num.one.

(** ** Data model *)

Module Document.
Record t := mk {
  id : str;
  title : str;
  content : str;
  chunks : list str;
  uploadedAt : Z;
  size : nat
}.
End Document.

Module Source.
Record t := mk {
  title : str;
  content : str;
  relevance : Num.number
}.
End Source.

(** The elements of [allChunks]. *)
Module Candidate.
Record t := mk {
  chunk : str;
  docTitle : str;
  score : Num.number
}.
End Candidate.

(** ** Sorting

    [Array.prototype.sort(comparefn)] is a stable sort: [a] goes before [b]
    when [comparefn(a, b) < 0], after it when [comparefn(a, b) > 0], and
    the two keep their order otherwise (a NaN counts as 0).  For a
    consistent comparator that fixes the result; it is computed here by
    insertion from the right. *)

Definition signOf (v : Num.number) : comparison :=
  if Num.ltb v Num.zero then Lt
  else if Num.ltb Num.zero v then Gt
  else Eq.

Fixpoint insertSorted {A} (comparefn : A -> A -> Num.number) (x : A)
  (l : list A) : list A :=
  match l with
  | [] => [x]
  | y :: r =>
      match signOf (comparefn x y) with
      | Gt => y :: insertSorted comparefn x r
      | _ => x :: l
      end
  end.

Definition sort {A} (comparefn : A -> A -> Num.number) (l : list A) : list A :=
  fold_right (insertSorted comparefn) [] l.

(** ** Retriever *)

(** [(a, b) => b.score - a.score]. *)
Definition byScoreDesc (a b : Candidate.t) : Num.number :=
  Num.sub (Candidate.score b) (Candidate.score a).

(** The body of the inner [forEach]: [push] when [score > 0.1]. *)
Definition scanChunk (query : str) (doc : Document.t)
  (allChunks : list Candidate.t) (chunk : str) : list Candidate.t :=
  let score := calculateSimilarity query chunk in
  if Num.ltb Num.lit_0_1 score
  then allChunks ++ [Candidate.mk chunk (Document.title doc) score]
  else allChunks.

(** The body of the outer [forEach]. *)
Definition scanDocument (query : str) (allChunks : list Candidate.t)
  (doc : Document.t) : list Candidate.t :=
  fold_left (scanChunk query doc) (Document.chunks doc) allChunks.

Definition allChunksOf (documents : list Document.t) (query : str)
  : list Candidate.t :=
  fold_left (scanDocument query) documents [].

Definition toSource (item : Candidate.t) : Source.t :=
  Source.mk (Candidate.docTitle item) (Candidate.chunk item)
            (Candidate.score item).

Definition retrieveRelevantChunks (documents : list Document.t)
  (query : str) (topK : Z) : list Source.t :=
  map toSource (slice (sort byScoreDesc (allChunksOf documents query)) 0 topK).

Definition defaultTopK : Z := 3.

(** ** Document store *)

(** [Date.now().toString()]: the decimal numeral of the clock reading. *)
Definition toString (n : Z) : str :=
  lit (DecimalString.NilZero.string_of_int (Z.to_int n)).

(** [addDocument] as the update it hands to [setDocuments]; [now] is what
    [Date.now()] reads and [date] what [new Date()] reads. *)
Definition newDocument (now date : Z) (title content : str) : Document.t :=
  Document.mk (toString now) title content
    (chunkText content defaultChunkSize defaultOverlap)
    date (length content).

Definition addDocument (now date : Z) (title content : str)
  (prev : list Document.t) : list Document.t :=
  prev ++ [newDocument now date title content].

(** [deleteDocument]: [prev.filter(doc => doc.id !== id)]. *)
Definition deleteDocument (id : str) (prev : list Document.t)
  : list Document.t :=
  filter (fun doc => negb (str_eqb (Document.id doc) id)) prev.

(** The number of bytes of a string in UTF-8, the encoding [readAsText]
    decodes, and in UTF-16, the encoding of the string itself. *)
Definition utf8Length (s : str) : nat :=
  list_sum (map (fun c => if code c <? 128 then 1 else 2) s).

Definition utf16Length (s : str) : nat := 2 * length s.

(** ** The document panel (components/DocumentPanel.tsx) *)

(** A non-empty string is truthy. *)
Definition truthy (s : str) : bool :=
  match s with [] => false | _ :: _ => true end.

Module DocumentPanel.

(** The class [[^/.]]. *)
Definition notSlashDot (c : ascii) : bool :=
  negb (Ascii.eqb c "/" || Ascii.eqb c ".").

(** [/\.[^/.]+$/]. *)
Definition extensionPattern : Regex.Continuation :=
  Regex.char "." (Regex.plus notSlashDot (Regex.atEnd Regex.accept)).

(** [file.name.replace(/\.[^/.]+$/, '')]. *)
Definition titleOfFile (name : str) : str :=
  Regex.removeFirst extensionPattern None name.

(** The state of the upload form. *)
Record State := mk {
  newDocTitle : str;
  newDocContent : str;
  isUploading : bool
}.

(** [reader.onload] in [handleFileUpload], for a file of the given name
    and text. *)
Definition fileLoaded (name content : str) (st : State) : State :=
  mk (titleOfFile name) content true.

(** [handleUpload]; [onUpload] is the callback of the properties, as an
    update of the store. *)
Definition handleUpload {Store} (onUpload : str -> str -> Store -> Store)
  (st : State) (documents : Store) : State * Store :=
  if truthy (trim (newDocTitle st)) && truthy (trim (newDocContent st))
  then (mk [] [] false,
        onUpload (trim (newDocTitle st)) (trim (newDocContent st)) documents)
  else (st, documents).

End DocumentPanel.

(** ** The chat input (components/ChatInput.tsx) *)

Module ChatInput.

Record Props := mk {
  isLoading : bool;
  disabled : bool
}.

(** [handleSubmit]: what is handed to [onSendMessage], if anything, and
    the draft left in the text area. *)
Definition handleSubmit (props : Props) (message : str) : option str * str :=
  if truthy (trim message) && negb (isLoading props) && negb (disabled props)
  then (Some (trim message), [])
  else (None, message).

(** [handleKeyDown] for a key event. *)
Definition handleKeyDown (props : Props) (key : str) (shiftKey : bool)
  (message : str) : option str * str :=
  if str_eqb key (lit "Enter") && negb shiftKey
  then handleSubmit props message
  else (None, message).

End ChatInput.

(** ** Chat messages and the answer (hooks/useRAG.ts) *)

Inductive Sender := user | assistant.

Module ChatMessage.
Record t := mk {
  id : str;
  content : str;
  sender : Sender;
  timestamp : Z;
  sources : option (list Source.t)
}.
End ChatMessage.

(** How the promise of [generateResponse] settles. *)
Inductive Outcome :=
| Resolved (response : str)
| Rejected.

(** [Math.floor(Math.random() * responses.length)] for the three
    responses: 0, 1 or 2. *)
Inductive Draw := draw0 | draw1 | draw2.

Definition lineFeed : str := [ascii_of_nat 10].
Definition doubleQuote : str := [ascii_of_nat 34].

Definition noInformation : str :=
  lit "I don't have enough information in the uploaded documents to answer your question. Please try uploading relevant documents or asking about topics covered in your knowledge base.".

Definition apology : str :=
  lit "I apologize, but I encountered an error while processing your question. Please try again.".

(** [n > 1 ? 's' : '']. *)
Definition plural (n : nat) : str := if 1 <? n then lit "s" else [].

Section Response.

(** The text a template literal puts for a Number ([Number::toString] of
    ECMAScript); nothing below depends on which numeral it is. *)
Variable numberToString : Num.number -> str.

(** [${Math.round(relevance * 100)}]. *)
Definition percent (relevance : Num.number) : str :=
  numberToString (Num.round (Num.mul relevance (Num.ofZ 100))).

(** [generateResponse], the delay apart: [draw] is the random choice of
    the response.  Reading [sources[0].title] of an empty array would
    throw and reject the promise. *)
Definition generateResponse (query : str) (sources : list Source.t)
  (draw : Draw) : Outcome :=
  if length sources =? 0 then Resolved noInformation
  else
    let context := join (lineFeed ++ lineFeed) (map Source.content sources) in
    let count := toString (Z.of_nat (length sources)) in
    match nth_error sources 0 with
    | None => Rejected
    | Some top =>
        Resolved
          match draw with
          | draw0 =>
              lit "Based on the documents you've uploaded, I can provide the following information: "
              ++ firstn 200 context ++ lit "... " ++ lineFeed ++ lineFeed
              ++ lit "This information comes from " ++ count
              ++ lit " relevant source" ++ plural (length sources)
              ++ lit " in your knowledge base. The most relevant match was from "
              ++ doubleQuote ++ Source.title top ++ doubleQuote
              ++ lit " with " ++ percent (Source.relevance top)
              ++ lit "% relevance."
          | draw1 =>
              lit "According to your uploaded documents, here's what I found: "
              ++ firstn 150 context ++ lit "..." ++ lineFeed ++ lineFeed
              ++ lit "The answer is derived from " ++ count
              ++ lit " document chunk" ++ plural (length sources)
              ++ lit ", with the highest relevance score being "
              ++ percent (Source.relevance top) ++ lit "%."
          | draw2 =>
              lit "I found relevant information in your knowledge base: "
              ++ firstn 180 context ++ lit "..." ++ lineFeed ++ lineFeed
              ++ lit "This response is based on " ++ count
              ++ lit " matching section" ++ plural (length sources)
              ++ lit " from your documents, particularly from "
              ++ doubleQuote ++ Source.title top ++ doubleQuote ++ lit "."
          end
    end.

(** The state of the hook. *)
Record HookState := mkHook {
  documents : list Document.t;
  messages : list ChatMessage.t;
  isLoading : bool
}.

(** What [Date.now()] and [new Date()] read when the user's message is
    built and when the assistant's is. *)
Record Clock := mkClock {
  nowSent : Z;
  dateSent : Z;
  nowAnswered : Z;
  dateAnswered : Z
}.

(** [sendMessage] up to the [await]: the user's message is appended and
    [isLoading] set. *)
Definition sendPending (content : str) (clock : Clock) (st : HookState)
  : HookState :=
  mkHook (documents st)
    (messages st
       ++ [ChatMessage.mk (toString (nowSent clock)) content user
             (dateSent clock) None])
    true.

(** The message built after the [await], in the [try] block or in the
    [catch] block; the sources are retrieved from the documents of the
    render in which [sendMessage] was created. *)
Definition answerMessage (content : str) (clock : Clock) (draw : Draw)
  (st : HookState) : ChatMessage.t :=
  let sources := retrieveRelevantChunks (documents st) content defaultTopK in
  match generateResponse content sources draw with
  | Resolved response =>
      ChatMessage.mk (toString (nowAnswered clock + 1)) response assistant
        (dateAnswered clock)
        (if 0 <? length sources then Some sources else None)
  | Rejected =>
      ChatMessage.mk (toString (nowAnswered clock + 1)) apology assistant
        (dateAnswered clock) None
  end.

(** [sendMessage] from the call to the end of [finally]. *)
Definition sendMessage (content : str) (clock : Clock) (draw : Draw)
  (st : HookState) : HookState :=
  let pending := sendPending content clock st in
  mkHook (documents pending)
    (messages pending ++ [answerMessage content clock draw st])
    false.

End Response.

(** ** The application (App.tsx) *)

Module App.

(** [disabled={documents.length === 0}]. *)
Definition chatDisabled (documents : list Document.t) : bool :=
  length documents =? 0.

(** [documents.reduce((acc, doc) => acc + doc.chunks.length, 0)]. *)
Definition searchableChunks (documents : list Document.t) : nat :=
  fold_left (fun acc doc => acc + length (Document.chunks doc)) documents 0.

(** The properties [App] hands to [ChatInput]. *)
Definition chatInputProps (st : HookState) : ChatInput.Props :=
  ChatInput.mk (isLoading st) (chatDisabled (documents st)).

(** [onSendMessage={sendMessage}]: the chat form wired to the hook, for a
    submission that is answered before anything else happens. *)
Definition submit (numberToString : Num.number -> str) (clock : Clock)
  (draw : Draw) (message : str) (st : HookState) : HookState * str :=
  match ChatInput.handleSubmit (chatInputProps st) message with
  | (Some question, draft) =>
      (sendMessage numberToString question clock draw st, draft)
  | (None, draft) => (st, draft)
  end.

(** [onUpload={addDocument}]: the upload form wired to the store. *)
Definition upload (now date : Z) (st : DocumentPanel.State)
  (documents : list Document.t) : DocumentPanel.State * list Document.t :=
  DocumentPanel.handleUpload (addDocument now date) st documents.

End App.

(** The stores the hook can hold: empty at first, then changed by
    [addDocument] and [deleteDocument] only. *)
Inductive Reachable : list Document.t -> Prop :=
| Reachable_empty : Reachable []
| Reachable_add now date title content prev :
    Reachable prev -> Reachable (addDocument now date title content prev)
| Reachable_delete id prev :
    Reachable prev -> Reachable (deleteDocument id prev).

(** ** Notions of the design document *)

(** A word, white space, a word. *)
Definition isPhrase (m : str) : Prop :=
  exists w1 sp w2,
    m = w1 ++ sp ++ w2 /\ w1 <> [] /\ sp <> [] /\ w2 <> [] /\
    forallb isWordChar w1 = true /\ forallb isWhiteSpace sp = true /\
    forallb isWordChar w2 = true.

(** A phrase [m] starts at the current position of the input [s], the
    character [prev] before it and the character after it being no word
    characters, and [rest] follows it. *)
Definition phraseAt (prev : option ascii) (s m rest : str) : Prop :=
  Regex.isWordAt prev = false /\
  Regex.isWordAt (hd_error rest) = false /\
  s = m ++ rest /\ isPhrase m.

(** The search for phrases from a position on. *)
Definition scanPhrases (prev : option ascii) (s : str) : list str :=
  Regex.matchGlobal phrasePattern 0 prev s.

(** After the design document: "all adjacent two-word sequences" of a
    string, that is every word together with the white space and the word that
    follow it, each word but the last one starting a sequence.  The search
    goes on one character after the start of a sequence, not at its end. *)
Fixpoint allBigrams (prev : option ascii) (s : str) : list str :=
  match s with
  | [] => []
  | c :: r =>
      match phrasePattern prev s with
      | Some rest => firstn (length s - length rest) s :: allBigrams (Some c) r
      | None => allBigrams (Some c) r
      end
  end.

(** After the design document: the phrase boost over all adjacent
    two-word sequences of the lowercased query. *)
Definition specPhraseBoost (query text : str) : Num.number :=
  fold_left (boostStep text) (allBigrams None (toLowerCase query)) Num.zero.

(** [n] additions of [0.3], starting from [b]. *)
Definition addBoosts (n : nat) (b : Num.number) : Num.number :=
  Nat.iter n (fun x => Num.add x Num.lit_0_3) b.

(** The candidates in the order of the scan: document after document in
    the order of the store, chunk after chunk in the order of the
    document, those at or below the threshold left out. *)
Definition scanOrder (documents : list Document.t) (query : str)
  : list Candidate.t :=
  flat_map
    (fun doc =>
       flat_map
         (fun chunk =>
            let score := calculateSimilarity query chunk in
            if Num.ltb Num.lit_0_1 score
            then [Candidate.mk chunk (Document.title doc) score] else [])
         (Document.chunks doc))
    documents.

(** [xs] begins [ys]. *)
Definition prefixOf {A} (xs ys : list A) : Prop := exists rest, ys = xs ++ rest.

(** Sources in descending order of relevance. *)
Definition descending (l : list Source.t) : Prop :=
  StronglySorted
    (fun a b => Num.leb (Source.relevance b) (Source.relevance a) = true) l.

(** What the loop of [chunkText] maintains: the chunks pushed so far are
    not empty, and the buffer is empty or holds more than white space. *)
Definition chunkInv (st : ChunkState) : Prop :=
  Forall (fun c => c <> []) (chunks st) /\
  (currentChunk st = [] \/ blank (currentChunk st) = false).

(** A list in descending order of an integer key. *)
Definition keyDescending {A} (key : A -> Z) (a b : A) : Prop :=
  (key b <= key a)%Z.

(** The exact value of a candidate's score, on the scale 2^-1074. *)
Definition scoreUnits (c : Candidate.t) : Z := Num.units (Candidate.score c).

Definition scoreOk (c : Candidate.t) : Prop :=
  Num.posFinite (Candidate.score c) = true.

(** Scenario A of the design document. *)
Definition scenarioDocument : str :=
  lit "The cat sat on the mat. The dog ran fast.".
Definition scenarioQuery : str := lit "Where did the cat sit?".

(** A store after four uploads: the documents [a] and [c] tie for the
    query [the cat sat]. *)
Definition tiesStore : list Document.t :=
  addDocument 4 4 (lit "d") (lit "the cat")
    (addDocument 3 3 (lit "c") (lit "the cat sat")
       (addDocument 2 2 (lit "b") (lit "gray cat sat here")
          (addDocument 1 1 (lit "a") (lit "the cat sat") []))).

(** The one-character string U+00E9 (e with acute accent). *)
Definition eAcute : str := [ascii_of_nat 233].

(** ** Further notions *)

(** An upload: the readings of the clock, the title and the content. *)
Module Upload.
Record t := mk {
  now : Z;
  date : Z;
  title : str;
  content : str
}.
End Upload.

(** The store after a series of uploads, each one through [addDocument]. *)
Definition addAll (uploads : list Upload.t) (prev : list Document.t)
  : list Document.t :=
  fold_left
    (fun documents u =>
       addDocument (Upload.now u) (Upload.date u) (Upload.title u)
         (Upload.content u) documents)
    uploads prev.

(** What [addDocument] establishes for a document. *)
Definition documentOk (doc : Document.t) : Prop :=
  Document.chunks doc =
    chunkText (Document.content doc) defaultChunkSize defaultOverlap /\
  Document.chunks doc <> [] /\
  Document.size doc = length (Document.content doc) /\
  exists now, Document.id doc = toString now.

(** [m] occurs in [s]. *)
Definition occursIn (m s : str) : Prop := exists a b, s = a ++ m ++ b.


(** The sentence [s] is in a chunk pushed or still in the buffer. *)
Definition kept (st : ChunkState) (s : str) : Prop :=
  (exists c, In c (chunks st) /\ occursIn (trim s) c) \/
  occursIn s (currentChunk st).

(** The chunk still to come from the buffer: one when it is not empty. *)
Definition pending (st : ChunkState) : nat :=
  match currentChunk st with [] => 0 | _ => 1 end.

(** * Properties *)

(** ** Binary64 arithmetic *)

Module NumFacts.
Import Num.
Local Open Scope Z_scope.

Abbreviation fexp := (SpecFloat.fexp prec emax).
Abbreviation D := Zdigits2.

Lemma fexp_eq e : fexp e = Z.max (e - 53) (-1074).
Proof. reflexivity. Qed.

Lemma digits2_size p : digits2_pos p = Pos.size p.
Proof. induction p; simpl; congruence. Qed.

Lemma D_log2 m : 0 < m -> D m = Z.log2 m + 1.
Proof.
  destruct m as [|p|p]; try lia. intros _. simpl. rewrite digits2_size.
  destruct p; simpl; try reflexivity; rewrite Pos.add_1_r; reflexivity.
Qed.

Lemma D_0 : D 0 = 0.
Proof. reflexivity. Qed.

Lemma D_pos m : 0 < m -> 0 < D m.
Proof. intros H. rewrite D_log2 by assumption. pose proof (Z.log2_nonneg m). lia. Qed.

Lemma D_bounds m : 0 < m -> 2 ^ (D m - 1) <= m < 2 ^ (D m).
Proof.
  intros H. rewrite D_log2 by assumption.
  replace (Z.log2 m + 1 - 1) with (Z.log2 m) by lia.
  replace (Z.log2 m + 1) with (Z.succ (Z.log2 m)) by lia.
  apply Z.log2_spec; assumption.
Qed.

Lemma D_mono a b : 0 < a -> a <= b -> D a <= D b.
Proof.
  intros Ha Hab. rewrite !D_log2 by lia.
  pose proof (Z.log2_le_mono a b Hab). lia.
Qed.

Lemma D_succ m : 0 < m -> D (m + 1) <= D m + 1.
Proof.
  intros H. rewrite !D_log2 by lia.
  assert (Z.log2 (m + 1) < Z.log2 m + 2); [|lia].
  apply Z.log2_lt_pow2; [lia|].
  pose proof (D_bounds m H) as [_ Hb]. rewrite D_log2 in Hb by assumption.
  replace (Z.log2 m + 2) with (Z.succ (Z.log2 m + 1)) by lia.
  rewrite Z.pow_succ_r by (pose proof (Z.log2_nonneg m); lia). lia.
Qed.

Lemma D_div_pow2 m n : 0 < m -> 0 <= n -> 2 ^ n <= m -> D (m / 2 ^ n) = D m - n.
Proof.
  intros Hm Hn Hle.
  assert (Hq : 0 < m / 2 ^ n).
  { apply Z.div_str_pos. split; [apply Z.pow_pos_nonneg; lia | assumption]. }
  rewrite !D_log2 by assumption.
  rewrite <- Z.shiftr_div_pow2 by assumption.
  rewrite Z.log2_shiftr by assumption.
  assert (n <= Z.log2 m) by (apply Z.log2_le_pow2; assumption).
  lia.
Qed.

Lemma div_pow2_small m n : 0 <= m -> 0 <= n -> m < 2 ^ n -> m / 2 ^ n = 0.
Proof. intros. apply Z.div_small. lia. Qed.

(** shr_1 halves a non-negative mantissa *)
Lemma shr_1_m mrs : 0 <= shr_m mrs -> shr_m (shr_1 mrs) = shr_m mrs / 2.
Proof.
  destruct mrs as [m r s]. simpl. intros H.
  destruct m as [|[p|p|]|p]; simpl; try reflexivity; try lia.
  - rewrite Pos2Z.inj_xI. apply Z.div_unique with (r := 1); lia.
  - rewrite Pos2Z.inj_xO. apply Z.div_unique with (r := 0); lia.
Qed.

Lemma pow2_xO p : 2 ^ Z.pos p~0 = 2 ^ Z.pos p * 2 ^ Z.pos p.
Proof. rewrite <- Z.pow_add_r by lia. f_equal. lia. Qed.

Lemma pow2_xI p : 2 ^ Z.pos p~1 = 2 * (2 ^ Z.pos p * 2 ^ Z.pos p).
Proof.
  rewrite <- Z.pow_add_r by lia. rewrite <- Z.pow_succ_r by lia. f_equal. lia.
Qed.

Lemma pow2_pos n : 0 <= n -> 0 < 2 ^ n.
Proof. intros. apply Z.pow_pos_nonneg; lia. Qed.

Lemma iter_shr_1_m p : forall mrs, 0 <= shr_m mrs ->
  shr_m (iter_pos shr_1 p mrs) = shr_m mrs / 2 ^ Zpos p.
Proof.
  induction p as [p IH|p IH|]; intros mrs H; simpl iter_pos.
  - assert (H1 : 0 <= shr_m (shr_1 mrs)).
    { rewrite shr_1_m by assumption. apply Z.div_pos; lia. }
    assert (H2 : 0 <= shr_m (iter_pos shr_1 p (shr_1 mrs))).
    { rewrite IH by assumption. apply Z.div_pos; [lia|]. apply pow2_pos; lia. }
    rewrite IH by assumption. rewrite IH by assumption. rewrite shr_1_m by assumption.
    pose proof (pow2_pos (Z.pos p) ltac:(lia)).
    rewrite !Z.div_div by lia. rewrite pow2_xI. reflexivity.
  - assert (H2 : 0 <= shr_m (iter_pos shr_1 p mrs)).
    { rewrite IH by assumption. apply Z.div_pos; [lia|]. apply pow2_pos; lia. }
    rewrite IH by assumption. rewrite IH by assumption.
    pose proof (pow2_pos (Z.pos p) ltac:(lia)).
    rewrite !Z.div_div by lia. rewrite pow2_xO. reflexivity.
  - rewrite shr_1_m by assumption. reflexivity.
Qed.

Lemma shr_record_of_loc_m m l : shr_m (shr_record_of_loc m l) = m.
Proof. destruct l as [|[]]; reflexivity. Qed.


Lemma fexp_ge e : -1074 <= fexp e.
Proof. rewrite fexp_eq. lia. Qed.

Lemma fexp_mono a b : a <= b -> fexp a <= fexp b.
Proof. rewrite !fexp_eq. lia. Qed.

Lemma small_digits m p : 0 < m -> m < 2 ^ Z.pos p -> D m <= Z.pos p.
Proof.
  intros Hm Hlt. rewrite D_log2 by assumption.
  assert (Z.log2 m < Z.pos p) by (apply Z.log2_lt_pow2; assumption). lia.
Qed.

(** What one alignment step [shr_fexp] leaves, for a mantissa that has not
    too few digits for its exponent. *)
Lemma shr_fexp_post m e l mrs e' :
  0 <= m -> e <= fexp (D m + e) ->
  shr_fexp prec emax m e l = (mrs, e') ->
  0 <= shr_m mrs <= m /\ -1074 <= e' /\
  (0 < shr_m mrs -> fexp (D (shr_m mrs) + e') = e') /\
  (shr_m mrs = 0 -> e' = -1074) /\
  (0 < m -> -1074 <= e -> 0 < shr_m mrs) /\
  (0 < shr_m mrs -> D (shr_m mrs) + e' = D m + e).
Proof.
  intros Hm Hpre. unfold shr_fexp, shr.
  pose proof (fexp_ge (D m + e)) as Hge.
  destruct (fexp (D m + e) - e) as [|p|p] eqn:En; intros E;
    injection E as <- <-.
  - rewrite shr_record_of_loc_m.
    assert (Hc : fexp (D m + e) = e) by lia.
    repeat split; try lia.
    intros ->. rewrite D_0, fexp_eq in Hc. lia.
  - rewrite iter_shr_1_m by (rewrite shr_record_of_loc_m; assumption).
    rewrite shr_record_of_loc_m.
    assert (Hc : fexp (D m + e) = e + Z.pos p) by lia.
    pose proof (pow2_pos (Z.pos p) ltac:(lia)) as Hp.
    assert (Hq : 0 <= m / 2 ^ Z.pos p) by (apply Z.div_pos; lia).
    assert (Hqm : m / 2 ^ Z.pos p <= m).
    { apply Z.div_le_upper_bound; [lia|]. nia. }
    destruct (Z.eq_dec m 0) as [->|Hm0].
    { rewrite Z.div_0_l by lia. rewrite D_0, fexp_eq in Hc.
      repeat split; try lia. }
    destruct (Z_le_gt_dec (2 ^ Z.pos p) m) as [Hle|Hgt].
    + assert (0 < m / 2 ^ Z.pos p) by (apply Z.div_str_pos; lia).
      assert (Hd : D (m / 2 ^ Z.pos p) + (e + Z.pos p) = D m + e).
      { rewrite D_div_pow2 by lia. lia. }
      repeat split; try lia.
      intros _. rewrite Hd. exact Hc.
    + rewrite div_pow2_small by lia.
      pose proof (small_digits m p ltac:(lia) ltac:(lia)) as Hd.
      rewrite fexp_eq in Hc.
      repeat split; try lia.
  - lia.
Qed.

Lemma round_nearest_even_bounds m l :
  m <= round_nearest_even m l <= m + 1.
Proof.
  unfold round_nearest_even. destruct l as [|[]]; try lia.
  destruct (Z.even m); lia.
Qed.

(** The outcome of the rounding [binary_round_aux]: a Number in canonical
    form that carries the sign it was given, that is not a zero when the
    mantissa is positive and the exponent at least -1074, and that is not
    an infinity when the value is below 2^1023. *)
Lemma binary_round_aux_cases s m e l :
  0 <= m -> e <= fexp (D m + e) ->
  valid_binary prec emax (binary_round_aux prec emax s m e l) = true /\
  (binary_round_aux prec emax s m e l = S754_zero s \/
   binary_round_aux prec emax s m e l = S754_infinity s \/
   exists m' e', binary_round_aux prec emax s m e l = S754_finite s m' e') /\
  (0 < m -> -1074 <= e -> binary_round_aux prec emax s m e l <> S754_zero s) /\
  (D m + e <= 1023 -> binary_round_aux prec emax s m e l <> S754_infinity s).
Proof.
  intros Hm Hpre. unfold binary_round_aux.
  destruct (shr_fexp prec emax m e l) as [mrs1 e1] eqn:E1.
  apply shr_fexp_post in E1; try assumption.
  destruct E1 as (H1nn & H1e & H1c & H1z & H1p & H1d).
  pose proof (round_nearest_even_bounds (shr_m mrs1) (loc_of_shr_record mrs1)) as Hr.
  set (m1 := round_nearest_even (shr_m mrs1) (loc_of_shr_record mrs1)) in *.
  assert (Hpre1 : e1 <= fexp (D m1 + e1)).
  { destruct (Z.eq_dec (shr_m mrs1) 0) as [Hz|Hnz].
    - rewrite (H1z Hz). apply fexp_ge.
    - rewrite <- (H1c ltac:(lia)) at 1. apply fexp_mono.
      pose proof (D_mono (shr_m mrs1) m1 ltac:(lia) ltac:(lia)). lia. }
  destruct (shr_fexp prec emax m1 e1 loc_Exact) as [mrs2 e2] eqn:E2.
  apply shr_fexp_post in E2; try assumption; try lia.
  destruct E2 as (H2nn & H2e & H2c & H2z & H2p & H2d).
  destruct (shr_m mrs2) as [|q|q] eqn:Eq2.
  - split; [reflexivity|]. split; [left; reflexivity|].
    split; [|intros _; discriminate].
    intros Hmp Hep. specialize (H1p Hmp Hep). specialize (H2p ltac:(lia) H1e). lia.
  - destruct (e2 <=? emax - prec) eqn:Ele.
    + split.
      * simpl. unfold bounded, canonical_mantissa. rewrite Ele, andb_true_r.
        apply Z.eqb_eq. apply (H2c ltac:(lia)).
      * split; [right; right; eauto|].
        split; [intros _ _; discriminate | intros _; discriminate].
    + split; [reflexivity|]. split; [right; left; reflexivity|].
      split; [intros _ _; discriminate|].
      intros Hsmall. exfalso.
      apply Z.leb_gt in Ele. change (emax - prec) with 971 in Ele.
      specialize (H2c ltac:(lia)). specialize (H2d ltac:(lia)).
      rewrite H2d, fexp_eq in H2c.
      destruct (Z.eq_dec (shr_m mrs1) 0) as [Hz|Hnz].
      * specialize (H1z Hz).
        assert (Hm1 : m1 = 1) by lia. rewrite Hm1 in H2c.
        change (D 1) with 1 in H2c. lia.
      * specialize (H1d ltac:(lia)).
        pose proof (D_mono m1 (shr_m mrs1 + 1) ltac:(lia) ltac:(lia)).
        pose proof (D_succ (shr_m mrs1) ltac:(lia)). lia.
  - lia.
Qed.

Lemma iter_xO m d : Z.pos (Pos.iter xO m d) = Z.pos m * 2 ^ Z.pos d.
Proof.
  induction d as [|d IH] using Pos.peano_ind.
  - simpl. lia.
  - rewrite Pos.iter_succ, Pos2Z.inj_xO, IH, Pos2Z.inj_succ.
    rewrite Z.pow_succ_r by lia. lia.
Qed.

Lemma shl_align_spec mx ex ex' :
  Z.pos (fst (shl_align mx ex ex')) = Z.pos mx * 2 ^ (ex - Z.min ex ex') /\
  snd (shl_align mx ex ex') = Z.min ex ex'.
Proof.
  unfold shl_align. destruct (ex' - ex) as [|p|p] eqn:E; cbn [fst snd].
  - replace (Z.min ex ex') with ex by lia. rewrite Z.sub_diag, Z.pow_0_r. lia.
  - replace (Z.min ex ex') with ex by lia. rewrite Z.sub_diag, Z.pow_0_r. lia.
  - change (Z.neg p) with (- Z.pos p) in E.
    replace (Z.min ex ex') with ex' by lia. rewrite iter_xO.
    replace (ex - ex') with (Z.pos p) by lia. lia.
Qed.

Lemma D_mul_pow2 m k : 0 < m -> 0 <= k -> D (m * 2 ^ k) = D m + k.
Proof.
  intros Hm Hk. pose proof (pow2_pos k Hk).
  rewrite !D_log2 by nia. rewrite Z.log2_mul_pow2 by lia. lia.
Qed.

Lemma binary_round_cases s m e :
  valid_binary prec emax (binary_round prec emax s m e) = true /\
  (binary_round prec emax s m e = S754_zero s \/
   binary_round prec emax s m e = S754_infinity s \/
   exists m' e', binary_round prec emax s m e = S754_finite s m' e') /\
  (-1074 <= e -> binary_round prec emax s m e <> S754_zero s) /\
  (D (Z.pos m) + e <= 1023 -> binary_round prec emax s m e <> S754_infinity s).
Proof.
  unfold binary_round.
  pose proof (shl_align_spec m e (fexp (Z.pos (digits2_pos m) + e))) as [Hm He].
  destruct (shl_align m e (fexp (Z.pos (digits2_pos m) + e))) as [mz ez].
  cbn [fst snd] in Hm, He.
  pose proof (fexp_ge (Z.pos (digits2_pos m) + e)) as Hge.
  assert (Hd : D (Z.pos mz) + ez = D (Z.pos m) + e).
  { rewrite Hm, D_mul_pow2 by lia. lia. }
  assert (Hpre : ez <= fexp (D (Z.pos mz) + ez)).
  { rewrite Hd. simpl D. lia. }
  destruct (binary_round_aux_cases s (Z.pos mz) ez loc_Exact ltac:(lia) Hpre)
    as (Hv & Hc & Hnz & Hni).
  repeat split; try assumption.
  - intros Hemin. apply Hnz; lia.
  - intros Hsmall. apply Hni. rewrite Hd. exact Hsmall.
Qed.

(** *** The operations keep Numbers in canonical form *)

Lemma binary_normalize_wf z e sz : wf (binary_normalize prec emax z e sz) = true.
Proof.
  unfold wf. destruct z as [|p|p]; cbn [binary_normalize]; try reflexivity;
    apply binary_round_cases.
Qed.

Lemma ofZ_wf z : wf (ofZ z) = true.
Proof. apply binary_normalize_wf. Qed.

Lemma ofNat_wf n : wf (ofNat n) = true.
Proof. apply ofZ_wf. Qed.

Lemma add_wf x y : wf x = true -> wf y = true -> wf (add x y) = true.
Proof.
  intros Hx Hy. unfold add, SFadd.
  destruct x as [sx|sx| |sx mx ex], y as [sy|sy| |sy my ey];
    try assumption; try reflexivity;
    try (destruct sx, sy; assumption || reflexivity).
  apply binary_normalize_wf.
Qed.

Lemma sub_wf x y : wf x = true -> wf y = true -> wf (sub x y) = true.
Proof.
  intros Hx Hy. unfold sub, SFsub.
  destruct x as [sx|sx| |sx mx ex], y as [sy|sy| |sy my ey];
    try assumption; try reflexivity;
    try (destruct sx, sy; assumption || reflexivity).
  apply binary_normalize_wf.
Qed.

Lemma wf_finite s m e :
  wf (S754_finite s m e) = true -> fexp (D (Z.pos m) + e) = e /\ e <= 971.
Proof.
  unfold wf, valid_binary, bounded, canonical_mantissa.
  intros H. apply andb_true_iff in H as [H1 H2].
  apply Z.eqb_eq in H1. apply Z.leb_le in H2. split; [exact H1 | exact H2].
Qed.

Lemma wf_digits s m e :
  wf (S754_finite s m e) = true -> D (Z.pos m) <= 53 /\ -1074 <= e.
Proof.
  intros H. apply wf_finite in H as [H _]. rewrite fexp_eq in H. lia.
Qed.

Lemma D_pow2 k : 0 <= k -> D (2 ^ k) = k + 1.
Proof.
  intros Hk. rewrite D_log2 by (apply pow2_pos; assumption).
  rewrite Z.log2_pow2 by assumption. reflexivity.
Qed.

(** The quotient [SFdiv] hands to the rounding has enough digits. *)
Lemma div_core_pre mx ex my ey q e' l :
  D (Z.pos mx) <= 53 ->
  SFdiv_core_binary prec emax (Z.pos mx) ex (Z.pos my) ey = (q, e', l) ->
  0 <= q /\ e' <= fexp (D q + e').
Proof.
  intros Hd1. unfold SFdiv_core_binary.
  pose proof (D_pos (Z.pos mx) ltac:(lia)) as Hd1p.
  pose proof (D_pos (Z.pos my) ltac:(lia)) as Hd2p.
  pose proof (D_bounds (Z.pos mx) ltac:(lia)) as [Hb1 _].
  pose proof (D_bounds (Z.pos my) ltac:(lia)) as [_ Hb2].
  set (d1 := D (Z.pos mx)) in *. set (d2 := D (Z.pos my)) in *.
  set (ee := Z.min (fexp (d1 + ex - (d2 + ey))) (ex - ey)).
  pose proof (fexp_eq (d1 + ex - (d2 + ey))) as Hfe.
  set (m' := match ex - ey - ee with
             | 0 => Z.pos mx
             | Z.pos _ => Z.shiftl (Z.pos mx) (ex - ey - ee)
             | Z.neg _ => 0
             end).
  pose proof (Z_div_mod m' (Z.pos my) ltac:(lia)) as Hdm.
  destruct (Z.div_eucl m' (Z.pos my)) as [q0 r0].
  destruct Hdm as [Hdm Hr]. intros E. injection E as <- <- _.
  assert (Hm' : 0 <= m').
  { subst m'. destruct (ex - ey - ee); try lia. apply Z.shiftl_nonneg. lia. }
  assert (Hq : 0 <= q0) by nia.
  split; [exact Hq|].
  pose proof (fexp_ge (D q0 + ee)) as Hge.
  destruct (Z_le_gt_dec ee (-1074)) as [Hlow|Hhigh]; [lia|].
  (* the normal range: the quotient has at least 53 digits *)
  assert (Hee : ee = d1 + ex - (d2 + ey) - 53) by (subst ee; lia).
  assert (Hs : ex - ey - ee = 53 + d2 - d1) by lia.
  assert (Hm'eq : m' = Z.pos mx * 2 ^ (53 + d2 - d1)).
  { subst m'. rewrite Hs. destruct (53 + d2 - d1) eqn:E3; try lia.
    rewrite Z.shiftl_mul_pow2 by lia. reflexivity. }
  assert (Hbig : 2 ^ (52 + d2) <= m').
  { rewrite Hm'eq. replace (52 + d2) with ((d1 - 1) + (53 + d2 - d1)) by lia.
    rewrite Z.pow_add_r by lia.
    apply Z.mul_le_mono_nonneg_r; [apply Z.lt_le_incl, pow2_pos; lia | exact Hb1]. }
  assert (Hq52 : 2 ^ 52 <= q0).
  { destruct (Z_le_gt_dec (2 ^ 52) q0) as [|Hlt]; [assumption|exfalso].
    assert (Hp : 2 ^ (52 + d2) = 2 ^ 52 * 2 ^ d2) by (apply Z.pow_add_r; lia).
    assert (0 < 2 ^ 52) by (apply pow2_pos; lia).
    assert (m' < 2 ^ 52 * 2 ^ d2); [|lia].
    rewrite Hdm.
    apply Z.lt_le_trans with (Z.pos my * (q0 + 1)); [lia|].
    apply Z.le_trans with (Z.pos my * 2 ^ 52); [apply Z.mul_le_mono_nonneg_l; lia|].
    rewrite Z.mul_comm. apply Z.mul_le_mono_nonneg_l; lia. }
  assert (Hdq : 53 <= D q0).
  { pose proof (D_mono (2 ^ 52) q0 ltac:(apply pow2_pos; lia) Hq52) as Hm.
    rewrite D_pow2 in Hm by lia. lia. }
  rewrite fexp_eq. lia.
Qed.

Lemma div_wf x y : wf x = true -> wf y = true -> wf (div x y) = true.
Proof.
  intros Hx Hy. unfold div, SFdiv.
  destruct x as [sx|sx| |sx mx ex], y as [sy|sy| |sy my ey]; try reflexivity.
  destruct (SFdiv_core_binary prec emax (Z.pos mx) ex (Z.pos my) ey)
    as [[q e'] l] eqn:E.
  apply div_core_pre in E; [|apply (wf_digits _ _ _ Hx)].
  destruct E as [Hq Hpre].
  apply (binary_round_aux_cases (xorb sx sy) q e' l Hq Hpre).
Qed.

Lemma min_wf x y : wf x = true -> wf y = true -> wf (min x y) = true.
Proof.
  intros Hx Hy. unfold min.
  destruct (isNaN x || isNaN y); [reflexivity|].
  destruct (ltb y x); [assumption|].
  destruct y as [[]| | |]; try assumption.
  destruct x as [[]| | |]; assumption.
Qed.

Create HintDb num_wf.
#[export] Hint Resolve ofZ_wf ofNat_wf add_wf sub_wf div_wf min_wf : num_wf.

(** [SFcompare] is antisymmetric, and defined unless an argument is NaN. *)
Lemma SFcompare_antisym x y :
  SFcompare y x = option_map CompOpp (SFcompare x y).
Proof.
  destruct x as [sx|sx| |sx mx ex], y as [sy|sy| |sy my ey];
    try (destruct sx); try (destruct sy); try reflexivity;
    cbn [SFcompare option_map]; f_equal;
    rewrite (Z.compare_antisym ey ex);
    destruct (ey ?= ex); cbn [CompOpp]; try reflexivity;
    rewrite ?CompOpp_involutive; try rewrite Pos.compare_cont_antisym;
    reflexivity.
Qed.

Lemma SFcompare_defined x y :
  isNaN x = false -> isNaN y = false -> exists c, SFcompare x y = Some c.
Proof.
  destruct x as [sx|sx| |sx mx ex], y as [sy|sy| |sy my ey];
    try discriminate; intros _ _; cbn [SFcompare]; eexists; reflexivity.
Qed.

Lemma not_ltb_leb x y :
  isNaN x = false -> isNaN y = false -> ltb y x = false -> leb x y = true.
Proof.
  intros Hx Hy. unfold ltb, leb, SFltb, SFleb.
  rewrite (SFcompare_antisym x y).
  destruct (SFcompare_defined x y Hx Hy) as [c ->].
  destruct c; cbn [option_map CompOpp]; congruence.
Qed.


(** *** The literals *)

Lemma one_ofZ : one = ofZ 1.
Proof. vm_compute. reflexivity. Qed.

Lemma lit_0_3_nearest : lit_0_3 = div (ofZ 3) (ofZ 10).
Proof. vm_compute. reflexivity. Qed.

Lemma lit_0_1_nearest : lit_0_1 = div (ofZ 1) (ofZ 10).
Proof. vm_compute. reflexivity. Qed.

(** *** Signs *)

Lemma nonneg_round r :
  r = S754_zero false \/ r = S754_infinity false \/
  (exists m e, r = S754_finite false m e) ->
  nonneg r = true.
Proof. intros [->|[->|(m & e & ->)]]; reflexivity. Qed.

Lemma nonneg_inv x :
  nonneg x = true ->
  (exists s, x = S754_zero s) \/ x = S754_infinity false \/
  (exists m e, x = S754_finite false m e).
Proof.
  destruct x as [s|[]| |[] m e]; try discriminate; intros _; eauto.
Qed.

Lemma nonneg_not_nan x : nonneg x = true -> isNaN x = false.
Proof. destruct x; try discriminate; reflexivity. Qed.

Lemma add_nonneg x y :
  nonneg x = true -> nonneg y = true -> nonneg (add x y) = true.
Proof.
  intros Hx Hy.
  destruct (nonneg_inv x Hx) as [[sx ->]|[->|(mx & ex & ->)]];
    destruct (nonneg_inv y Hy) as [[sy ->]|[->|(my & ey & ->)]];
    try reflexivity; try (destruct sx; reflexivity);
    try (destruct sy; reflexivity); try (destruct sx, sy; reflexivity).
  unfold add, SFadd. cbn [cond_Zopp].
  rewrite <- Pos2Z.inj_add. cbn [binary_normalize].
  apply nonneg_round. apply binary_round_cases.
Qed.

Lemma ofZ_pos_cases p :
  ofZ (Z.pos p) = S754_infinity false \/
  exists m e, ofZ (Z.pos p) = S754_finite false m e.
Proof.
  unfold ofZ. cbn [binary_normalize].
  destruct (binary_round_cases false p 0) as (_ & [E|[E|E]] & Hnz & _).
  - exfalso. apply Hnz; [lia|exact E].
  - left. exact E.
  - right. exact E.
Qed.

(** An integer below 2^1023 is a finite Number. *)
Lemma ofZ_finite p :
  Z.pos p < 2 ^ 1023 -> exists m e, ofZ (Z.pos p) = S754_finite false m e.
Proof.
  intros Hp.
  destruct (ofZ_pos_cases p) as [E|E]; [exfalso|exact E].
  unfold ofZ in E. cbn [binary_normalize] in E.
  destruct (binary_round_cases false p 0) as (_ & _ & _ & Hni).
  apply Hni; [|exact E].
  pose proof (small_digits (Z.pos p) 1023 ltac:(lia) Hp). lia.
Qed.

Lemma div_nonneg x y :
  wf x = true ->
  x = S754_zero false \/ (exists m e, x = S754_finite false m e) ->
  y = S754_infinity false \/ (exists m e, y = S754_finite false m e) ->
  nonneg (div x y) = true.
Proof.
  intros Hwf [->|(mx & ex & ->)] [->|(my & ey & ->)]; try reflexivity.
  unfold div, SFdiv.
  destruct (SFdiv_core_binary prec emax (Z.pos mx) ex (Z.pos my) ey)
    as [[q e'] l] eqn:E.
  apply div_core_pre in E; [|apply (wf_digits _ _ _ Hwf)].
  destruct E as [Hq Hpre].
  apply nonneg_round.
  apply (binary_round_aux_cases (xorb false false) q e' l Hq Hpre).
Qed.

(** *** Comparison and subtraction on positive Numbers *)

Lemma posFinite_inv x :
  posFinite x = true ->
  exists m e, x = S754_finite false m e /\ wf x = true /\
              D (Z.pos m) <= 53 /\ -1074 <= e /\
              (-1074 < e -> D (Z.pos m) = 53).
Proof.
  destruct x as [| | |[] m e]; try discriminate. intros H.
  exists m, e. cbn [posFinite] in H.
  pose proof (wf_finite _ _ _ H) as [Hc _]. rewrite fexp_eq in Hc.
  repeat split; try assumption; lia.
Qed.

Lemma units_pos m e : -1074 <= e -> 0 < units (S754_finite false m e).
Proof.
  intros He. cbn [units cond_Zopp]. change emin with (-1074).
  pose proof (pow2_pos (e - -1074) ltac:(lia)). nia.
Qed.

Lemma units_split m e ez :
  -1074 <= ez -> ez <= e ->
  Z.pos m * 2 ^ (e - -1074) = Z.pos m * 2 ^ (e - ez) * 2 ^ (ez - -1074).
Proof.
  intros H1 H2. rewrite <- Z.mul_assoc, <- Z.pow_add_r by lia.
  do 2 f_equal. lia.
Qed.

Lemma signOf_zero : signOf (S754_zero false) = Eq.
Proof. reflexivity. Qed.

Lemma signOf_pos r s :
  (r = S754_zero s \/ r = S754_infinity s \/ exists m e, r = S754_finite s m e) ->
  r <> S754_zero s ->
  signOf r = if s then Lt else Gt.
Proof.
  intros [->|[->|(m & e & ->)]] Hnz; [congruence| |]; destruct s; reflexivity.
Qed.

(** The sign of a difference of two positive Numbers is exact. *)
Lemma sub_sign x y :
  posFinite x = true -> posFinite y = true ->
  signOf (sub y x) = (units y ?= units x).
Proof.
  intros Hx Hy.
  destruct (posFinite_inv x Hx) as (mx & ex & -> & _ & _ & Hex & _).
  destruct (posFinite_inv y Hy) as (my & ey & -> & _ & _ & Hey & _).
  unfold sub, SFsub. cbn [cond_Zopp units]. change emin with (-1074).
  set (ez := Z.min ey ex).
  pose proof (shl_align_spec my ey ez) as [Ha _].
  pose proof (shl_align_spec mx ex ez) as [Hb _].
  replace (Z.min ey ez) with ez in Ha by lia.
  replace (Z.min ex ez) with ez in Hb by lia.
  rewrite (units_split my ey ez), (units_split mx ex ez) by lia.
  rewrite <- Ha, <- Hb.
  set (a := fst (shl_align my ey ez)) in *.
  set (b := fst (shl_align mx ex ez)) in *.
  pose proof (pow2_pos (ez - -1074) ltac:(lia)) as Hp.
  rewrite <- Zmult_compare_compat_r by lia.
  destruct (Z.pos a - Z.pos b) as [|p|p] eqn:Ed; cbn [binary_normalize].
  - rewrite signOf_zero. symmetry. apply Z.compare_eq_iff. lia.
  - destruct (binary_round_cases false p ez) as (_ & Hc & Hnz & _).
    rewrite (signOf_pos _ false Hc (Hnz ltac:(lia))).
    symmetry. apply Z.compare_gt_iff. lia.
  - destruct (binary_round_cases true p ez) as (_ & Hc & Hnz & _).
    rewrite (signOf_pos _ true Hc (Hnz ltac:(lia))).
    symmetry. apply Z.compare_lt_iff. lia.
Qed.

Lemma units_lt_exp m1 e1 m2 e2 :
  posFinite (S754_finite false m1 e1) = true ->
  posFinite (S754_finite false m2 e2) = true ->
  e1 < e2 ->
  units (S754_finite false m1 e1) < units (S754_finite false m2 e2).
Proof.
  intros H1 H2 Hlt.
  destruct (posFinite_inv _ H1) as (m & e & E & _ & Hd1 & He1 & _).
  injection E as <- <-.
  destruct (posFinite_inv _ H2) as (m & e & E & _ & _ & He2 & Hn2).
  injection E as <- <-.
  specialize (Hn2 ltac:(lia)).
  pose proof (D_bounds (Z.pos m1) ltac:(lia)) as [_ Hb1].
  pose proof (D_bounds (Z.pos m2) ltac:(lia)) as [Hb2 _].
  rewrite Hn2 in Hb2.
  assert (Hm1 : Z.pos m1 < 2 ^ 53).
  { eapply Z.lt_le_trans; [exact Hb1|]. apply Z.pow_le_mono_r; lia. }
  cbn [units cond_Zopp]. change emin with (-1074).
  rewrite (units_split m2 e2 e1) by lia.
  pose proof (pow2_pos (e1 - -1074) ltac:(lia)) as Hp.
  apply Z.mul_lt_mono_pos_r; [assumption|].
  assert (Hp2 : 2 <= 2 ^ (e2 - e1)).
  { change 2 with (2 ^ 1) at 1. apply Z.pow_le_mono_r; lia. }
  change (2 ^ 53) with (2 ^ 52 * 2) in Hm1. change (53 - 1) with 52 in Hb2.
  nia.
Qed.

(** On positive Numbers in canonical form [SFcompare] is the comparison of
    the exact values. *)
Lemma compare_units x y :
  posFinite x = true -> posFinite y = true ->
  SFcompare x y = Some (units x ?= units y).
Proof.
  intros Hx Hy.
  destruct (posFinite_inv x Hx) as (mx & ex & -> & _ & _ & Hex & _).
  destruct (posFinite_inv y Hy) as (my & ey & -> & _ & _ & Hey & _).
  cbn [SFcompare]. f_equal.
  destruct (Z.compare_spec ex ey) as [Heq|Hlt|Hgt].
  - subst ey. cbn [units cond_Zopp]. change emin with (-1074).
    pose proof (pow2_pos (ex - -1074) ltac:(lia)).
    rewrite <- Zmult_compare_compat_r by lia.
    rewrite Pos.compare_cont_spec. cbn [Z.compare].
    destruct (mx ?= my)%positive; reflexivity.
  - symmetry. apply Z.compare_lt_iff. apply units_lt_exp; assumption.
  - symmetry. apply Z.compare_gt_iff. apply units_lt_exp; assumption.
Qed.

Lemma ltb_units x y :
  posFinite x = true -> posFinite y = true ->
  ltb x y = true <-> units x < units y.
Proof.
  intros Hx Hy. unfold ltb, SFltb. rewrite (compare_units x y Hx Hy).
  rewrite <- Z.compare_lt_iff. destruct (units x ?= units y); split; congruence.
Qed.

Lemma leb_units x y :
  posFinite x = true -> posFinite y = true ->
  leb x y = true <-> units x <= units y.
Proof.
  intros Hx Hy. unfold leb, SFleb. rewrite (compare_units x y Hx Hy).
  rewrite <- Z.compare_le_iff. destruct (units x ?= units y); split; congruence.
Qed.

End NumFacts.

(** ** Strings *)

Lemma trimStart_nil s : trimStart s = [] <-> blank s = true.
Proof.
  induction s as [|c r IH]; simpl; [tauto|].
  destruct (isWhiteSpace c); simpl; [exact IH|].
  split; discriminate.
Qed.

Lemma blank_trimStart s : blank (trimStart s) = blank s.
Proof.
  induction s as [|c r IH]; simpl; [reflexivity|].
  destruct (isWhiteSpace c) eqn:E; simpl; [exact IH|].
  rewrite E. reflexivity.
Qed.

Lemma blank_app a b : blank (a ++ b) = blank a && blank b.
Proof. apply forallb_app. Qed.

Lemma blank_rev s : blank (rev s) = blank s.
Proof.
  induction s as [|c r IH]; simpl; [reflexivity|].
  rewrite blank_app, IH. simpl. rewrite andb_true_r. apply andb_comm.
Qed.

Lemma trim_nil s : trim s = [] <-> blank s = true.
Proof.
  unfold trim, trimEnd. split.
  - intros H. apply (f_equal (@rev ascii)) in H. rewrite rev_involutive in H.
    simpl in H. apply trimStart_nil in H.
    rewrite blank_rev, blank_trimStart in H. exact H.
  - intros H.
    assert (E : trimStart (rev (trimStart s)) = []).
    { apply trimStart_nil. rewrite blank_rev, blank_trimStart. exact H. }
    rewrite E. reflexivity.
Qed.

Lemma trim_inked s : blank s = false -> trim s <> [].
Proof. intros H E. apply trim_nil in E. congruence. Qed.

(** A string that neither starts nor ends with white space is its own
    [trim]. *)
Lemma trimStart_id c r : isWhiteSpace c = false -> trimStart (c :: r) = c :: r.
Proof. intros H. simpl. rewrite H. reflexivity. Qed.

Lemma trim_id s c d :
  hd_error s = Some c -> hd_error (rev s) = Some d ->
  isWhiteSpace c = false -> isWhiteSpace d = false -> trim s = s.
Proof.
  intros Hc Hd Wc Wd. unfold trim, trimEnd.
  destruct s as [|c' r]; [discriminate|]. injection Hc as ->.
  rewrite trimStart_id by assumption.
  destruct (rev (c :: r)) as [|d' r'] eqn:E; [discriminate|]. injection Hd as ->.
  rewrite trimStart_id by assumption. rewrite <- E. apply rev_involutive.
Qed.

Lemma splitRuns_no_separator sep s :
  forallb (fun c => negb (sep c)) s = true -> splitRuns sep false s = [s].
Proof.
  induction s as [|c r IH]; simpl; [reflexivity|].
  intros H. apply andb_true_iff in H as [Hc Hr].
  apply negb_true_iff in Hc. rewrite Hc, (IH Hr). reflexivity.
Qed.

(** ** Chunker *)

Lemma sentencesOf_inked text s : In s (sentencesOf text) -> blank s = false.
Proof.
  unfold sentencesOf. intros H. apply filter_In in H as [_ H].
  apply Nat.ltb_lt in H.
  destruct (blank s) eqn:E; [|reflexivity].
  apply trim_nil in E. rewrite E in H. simpl in H. lia.
Qed.

Lemma chunkStep_inv chunkSize overlap st sentence :
  chunkInv st -> blank sentence = false ->
  chunkInv (chunkStep chunkSize overlap st sentence) /\
  blank (currentChunk (chunkStep chunkSize overlap st sentence)) = false.
Proof.
  intros [Hch Hcur] Hs. unfold chunkStep.
  destruct ((Z.of_nat (length (currentChunk st)) + Z.of_nat (length sentence)
             >? chunkSize)%Z && (0 <? length (currentChunk st))) eqn:E.
  - apply andb_true_iff in E as [_ E]. apply Nat.ltb_lt in E.
    assert (Hb : blank (join (lit " ")
                   (sliceFrom (splitChar " " (currentChunk st)) (overlapStart overlap))
                   ++ lit " " ++ sentence) = false).
    { rewrite !blank_app, Hs, !andb_false_r. reflexivity. }
    split; [split|]; simpl; try (right; exact Hb); try exact Hb.
    apply Forall_app. split; [exact Hch|]. constructor; [|constructor].
    apply trim_inked. destruct Hcur as [Hnil|Hink]; [|exact Hink].
    rewrite Hnil in E. simpl in E. lia.
  - assert (Hb : blank (currentChunk st
                   ++ match currentChunk st with [] => [] | _ :: _ => lit ". " end
                   ++ sentence) = false).
    { rewrite !blank_app, Hs, !andb_false_r. reflexivity. }
    split; [split|]; simpl; try (right; exact Hb); try exact Hb. exact Hch.
Qed.

Lemma fold_chunkStep_inv chunkSize overlap sentences st :
  chunkInv st -> Forall (fun s => blank s = false) sentences ->
  chunkInv (fold_left (chunkStep chunkSize overlap) sentences st).
Proof.
  revert st. induction sentences as [|s r IH]; intros st Hst Hall; simpl.
  - exact Hst.
  - inversion Hall; subst. apply IH; [|assumption].
    apply chunkStep_inv; assumption.
Qed.

Lemma accumulate_nonempty_chunks chunkSize overlap text :
  Forall (fun c => c <> []) (accumulate chunkSize overlap text).
Proof.
  unfold accumulate.
  assert (Hinv : chunkInv (fold_left (chunkStep chunkSize overlap)
                   (sentencesOf text) (mkChunkState [] []))).
  { apply fold_chunkStep_inv.
    - split; [constructor | left; reflexivity].
    - apply Forall_forall. intros s. apply sentencesOf_inked. }
  destruct Hinv as [Hch _].
  destruct (trim (currentChunk _)) as [|c t] eqn:E; [exact Hch|].
  apply Forall_app. split; [exact Hch|]. constructor; [discriminate|constructor].
Qed.

(** A text without sentence-ending punctuation. *)
Lemma sentencesOf_one text :
  forallb (fun c => negb (isSentenceEnd c)) text = true ->
  sentencesOf text = if blank text then [] else [text].
Proof.
  intros H. unfold sentencesOf, splitRegex.
  rewrite splitRuns_no_separator by assumption. simpl.
  destruct (blank text) eqn:E.
  - apply trim_nil in E. rewrite E. reflexivity.
  - apply trim_inked in E. destruct (trim text); [congruence|reflexivity].
Qed.

Lemma chunkText_one_sentence text chunkSize overlap :
  forallb (fun c => negb (isSentenceEnd c)) text = true ->
  chunkText text chunkSize overlap = [if blank text then text else trim text].
Proof.
  intros H. unfold chunkText, accumulate. rewrite sentencesOf_one by assumption.
  destruct (blank text) eqn:E; simpl.
  - reflexivity.
  - unfold chunkStep. simpl. rewrite andb_false_r. simpl.
    pose proof (trim_inked text E) as Ht.
    destruct (trim text); [congruence|reflexivity].
Qed.

(** ** Regular expressions *)

Module RegexFacts.
Import Regex.

Lemma last_cons {A} (m : list A) : forall c d, last (c :: m) d = last m c.
Proof.
  induction m as [|x r IH]; intros c d; [reflexivity|].
  change (last (c :: x :: r) d) with (last (x :: r) d).
  rewrite (IH x d), (IH x c). reflexivity.
Qed.

Lemma last_of_run cls (run : str) d :
  run <> [] -> forallb cls run = true -> cls (last run d) = true.
Proof.
  induction run as [|c r IH]; intros Hne Hall; [congruence|].
  simpl in Hall. apply andb_true_iff in Hall as [Hc Hr].
  destruct r as [|x r']; [exact Hc|].
  change (last (c :: x :: r') d) with (last (x :: r') d).
  apply IH; [discriminate|exact Hr].
Qed.

(** A successful [c+] has consumed a non-empty run of the class and handed
    the rest, with the last character of the run before it, to its
    continuation. *)
Lemma plus_inv cls k : forall s prev rest,
  plus cls k prev s = Some rest ->
  exists run s',
    run <> [] /\ forallb cls run = true /\ s = run ++ s' /\
    k (Some (last run " "%char)) s' = Some rest.
Proof.
  induction s as [|c r IH]; simpl; intros prev rest H; [discriminate|].
  destruct (cls c) eqn:Ec; [|discriminate].
  destruct (plus cls k (Some c) r) as [rest'|] eqn:Ep.
  - injection H as <-.
    destruct (IH _ _ Ep) as (run & s' & Hne & Hall & -> & Hk).
    exists (c :: run), s'. simpl forallb. rewrite Ec, Hall.
    repeat split; try discriminate.
    destruct run as [|x run']; [congruence|]. exact Hk.
  - exists [c], r. simpl. rewrite Ec.
    repeat split; try discriminate. exact H.
Qed.

Lemma plus_stops cls k prev s : stopsAt cls s -> plus cls k prev s = None.
Proof. destruct s as [|c r]; simpl; [reflexivity|]. intros ->. reflexivity. Qed.

(** [c+] is greedy: on a maximal run of the class it takes the whole run
    when the continuation accepts what follows. *)
Lemma plus_greedy cls k : forall run prev s' rest,
  run <> [] -> forallb cls run = true -> stopsAt cls s' ->
  k (Some (last run " "%char)) s' = Some rest ->
  plus cls k prev (run ++ s') = Some rest.
Proof.
  induction run as [|c r IH]; intros prev s' rest Hne Hall Hstop Hk;
    [congruence|].
  simpl in Hall. apply andb_true_iff in Hall as [Hc Hr].
  simpl. rewrite Hc. destruct r as [|x r'].
  - simpl. rewrite (plus_stops cls k (Some c) s' Hstop). exact Hk.
  - rewrite (IH (Some c) s' rest); [reflexivity|discriminate|exact Hr|exact Hstop|].
    exact Hk.
Qed.

Lemma wordBoundary_inv k prev s rest :
  wordBoundary k prev s = Some rest ->
  xorb (isWordAt prev) (isWordAt (hd_error s)) = true /\ k prev s = Some rest.
Proof.
  unfold wordBoundary.
  destruct (xorb (isWordAt prev) (isWordAt (hd_error s))); [tauto|discriminate].
Qed.

Lemma whiteSpace_not_word c : isWhiteSpace c = true -> isWordChar c = false.
Proof.
  destruct c as [[] [] [] [] [] [] [] []]; vm_compute; congruence.
Qed.

Lemma word_not_whiteSpace c : isWordChar c = true -> isWhiteSpace c = false.
Proof.
  intros H. destruct (isWhiteSpace c) eqn:E; [|reflexivity].
  apply whiteSpace_not_word in E. congruence.
Qed.

Lemma hd_of_run cls (run rest : str) :
  run <> [] -> forallb cls run = true ->
  exists c, hd_error (run ++ rest) = Some c /\ cls c = true.
Proof.
  destruct run as [|c r]; [congruence|]. simpl. intros _ H.
  apply andb_true_iff in H as [H _]. exists c. split; [reflexivity|exact H].
Qed.

(** The pattern matches at a position exactly when a phrase starts there. *)
Lemma phrasePattern_inv prev s rest :
  phrasePattern prev s = Some rest -> exists m, phraseAt prev s m rest.
Proof.
  unfold phrasePattern. intros H.
  apply wordBoundary_inv in H as [Hb H].
  apply plus_inv in H as (w1 & s1 & Hn1 & Hw1 & -> & H).
  apply plus_inv in H as (sp & s2 & Hn2 & Hsp & -> & H).
  apply plus_inv in H as (w2 & s3 & Hn3 & Hw2 & -> & H).
  apply wordBoundary_inv in H as [He H]. unfold accept in H. injection H as ->.
  exists (w1 ++ sp ++ w2). unfold phraseAt. repeat split.
  - destruct (hd_of_run isWordChar w1 (sp ++ w2 ++ rest) Hn1 Hw1) as (c & Hc & Wc).
    rewrite Hc in Hb. cbn [isWordAt] in Hb. rewrite Wc in Hb.
    destruct (isWordAt prev); [discriminate|reflexivity].
  - cbn [isWordAt] in He.
    rewrite (last_of_run isWordChar w2 " "%char Hn3 Hw2) in He.
    destruct (isWordAt (hd_error rest)); [discriminate|reflexivity].
  - rewrite <- !app_assoc. reflexivity.
  - exists w1, sp, w2. repeat split; assumption.
Qed.

Lemma phrasePattern_complete prev s m rest :
  phraseAt prev s m rest -> phrasePattern prev s = Some rest.
Proof.
  intros (Hprev & Hnext & -> & w1 & sp & w2 & -> & Hn1 & Hn2 & Hn3 & Hw1 & Hsp & Hw2).
  unfold phrasePattern, wordBoundary at 1.
  rewrite <- !app_assoc.
  destruct (hd_of_run isWordChar w1 (sp ++ w2 ++ rest) Hn1 Hw1) as (c & Hc & Wc).
  rewrite Hc, Hprev. cbn [isWordAt]. rewrite Wc. cbn [xorb].
  apply plus_greedy; try assumption.
  { destruct (hd_of_run isWhiteSpace sp (w2 ++ rest) Hn2 Hsp) as (c2 & Hc2 & Wc2).
    destruct (sp ++ w2 ++ rest) as [|x t]; [exact I|].
    injection Hc2 as ->. apply whiteSpace_not_word. exact Wc2. }
  apply plus_greedy; try assumption.
  { destruct (hd_of_run isWordChar w2 rest Hn3 Hw2) as (c3 & Hc3 & Wc3).
    destruct (w2 ++ rest) as [|x t]; [exact I|].
    injection Hc3 as ->. apply word_not_whiteSpace. exact Wc3. }
  apply plus_greedy; try assumption.
  { destruct rest as [|x t]; [exact I|]. exact Hnext. }
  unfold wordBoundary, accept. cbn [isWordAt].
  rewrite (last_of_run isWordChar w2 " "%char Hn3 Hw2), Hnext. reflexivity.
Qed.

Lemma phraseAt_nonempty prev s m rest : phraseAt prev s m rest -> m <> [].
Proof.
  intros (_ & _ & _ & w1 & sp & w2 & -> & Hn1 & _).
  destruct w1; [congruence|discriminate].
Qed.

Lemma Slices_gap c s ms : Slices s ms -> Slices (c :: s) ms.
Proof.
  intros H. destruct H as [s|gap m rest ms H].
  - constructor.
  - apply (Slices_cons (c :: gap) m rest ms H).
Qed.

Section MatchGlobal.
Variable re : Continuation.
Variable P : str -> Prop.
Hypothesis Hre : forall prev s rest,
  re prev s = Some rest -> exists m, P m /\ m <> [] /\ s = m ++ rest.

Lemma match_prefix prev s rest :
  re prev s = Some rest ->
  P (firstn (length s - length rest) s) /\
  firstn (length s - length rest) s <> [] /\
  s = firstn (length s - length rest) s ++ rest.
Proof.
  intros H. destruct (Hre _ _ _ H) as (m & Hm & Hne & ->).
  rewrite length_app, Nat.add_sub.
  rewrite firstn_app, Nat.sub_diag, firstn_all. simpl. rewrite app_nil_r.
  repeat split; assumption.
Qed.

(** The characters of a match are passed over. *)
Lemma matchGlobal_pass : forall m c prev rest,
  matchGlobal re (length m) prev (m ++ rest) =
  matchGlobal re 0 (match m with [] => prev | _ => Some (last m c) end) rest.
Proof.
  induction m as [|x r IH]; intros c prev rest; [reflexivity|].
  cbn [length app matchGlobal]. rewrite (IH x (Some x) rest).
  destruct r as [|y r']; [reflexivity|].
  rewrite (last_cons (y :: r') x c). reflexivity.
Qed.

(** After a match the search resumes where the match ended. *)
Lemma matchGlobal_match prev m rest :
  re prev (m ++ rest) = Some rest -> m <> [] ->
  matchGlobal re 0 prev (m ++ rest) =
  m :: matchGlobal re 0 (Some (last m " "%char)) rest.
Proof.
  intros H Hne. destruct m as [|c m']; [congruence|].
  cbn [app matchGlobal]. change (c :: m' ++ rest) with ((c :: m') ++ rest).
  rewrite H.
  assert (E : firstn (length ((c :: m') ++ rest) - length rest) ((c :: m') ++ rest)
              = c :: m').
  { rewrite length_app, Nat.add_sub.
    rewrite firstn_app, Nat.sub_diag, firstn_all. simpl. f_equal.
    apply app_nil_r. }
  rewrite E. f_equal.
  replace (length (c :: m') - 1)%nat with (length m') by (simpl; lia).
  rewrite (matchGlobal_pass m' c (Some c) rest).
  destruct m' as [|y r']; [reflexivity|].
  rewrite (last_cons (y :: r') c " "%char). reflexivity.
Qed.

(** After a failed attempt it resumes one character further. *)
Lemma matchGlobal_fail prev c r :
  re prev (c :: r) = None ->
  matchGlobal re 0 prev (c :: r) = matchGlobal re 0 (Some c) r.
Proof. intros H. cbn [matchGlobal]. rewrite H. reflexivity. Qed.

Lemma matchGlobal_slices : forall s skip prev,
  Slices (skipn skip s) (matchGlobal re skip prev s) /\
  Forall P (matchGlobal re skip prev s).
Proof.
  induction s as [|c r IH]; intros skip prev.
  - destruct skip as [|n]; simpl; [|split; constructor].
    destruct (re prev []) as [rest|] eqn:E; [|split; constructor].
    apply match_prefix in E as (_ & Hne & _). simpl in Hne. congruence.
  - destruct skip as [|n].
    + cbn [matchGlobal skipn].
      destruct (re prev (c :: r)) as [rest|] eqn:E.
      * apply match_prefix in E as (HP & Hne & Hs).
        set (m := firstn (length (c :: r) - length rest) (c :: r)) in *.
        destruct m as [|c' m'] eqn:Em; [congruence|].
        injection Hs as <- Hr.
        replace (length (c :: m') - 1)%nat with (length m') by (simpl; lia).
        destruct (IH (length m') (Some c)) as [IH1 IH2].
        split; [|constructor; assumption].
        rewrite Hr in IH1 at 1.
        rewrite skipn_app, Nat.sub_diag, skipn_all in IH1. simpl in IH1.
        rewrite Hr at 1.
        apply (Slices_cons [] (c :: m') rest _ IH1).
      * destruct (IH 0%nat (Some c)) as [IH1 IH2].
        split; [|assumption]. apply Slices_gap. exact IH1.
    + cbn [matchGlobal skipn]. apply IH.
Qed.
End MatchGlobal.

Lemma phrasePattern_shape prev s rest :
  phrasePattern prev s = Some rest ->
  exists m, isPhrase m /\ m <> [] /\ s = m ++ rest.
Proof.
  intros H. apply phrasePattern_inv in H as [m Hm].
  exists m. pose proof (phraseAt_nonempty _ _ _ _ Hm) as Hne.
  destruct Hm as (_ & _ & Hs & Hp). repeat split; assumption.
Qed.

End RegexFacts.

(** ** Similarity scorer *)

Lemma queryPhrases_slices query :
  Regex.Slices (toLowerCase query) (queryPhrases query) /\
  Forall isPhrase (queryPhrases query).
Proof.
  unfold queryPhrases, Regex.matchAll.
  apply (RegexFacts.matchGlobal_slices phrasePattern isPhrase
           RegexFacts.phrasePattern_shape (toLowerCase query) 0%nat None).
Qed.

Lemma addBoosts_succ n b :
  addBoosts (S n) b = addBoosts n (Num.add b Num.lit_0_3).
Proof.
  unfold addBoosts. induction n as [|n IH]; simpl; [reflexivity|].
  simpl in IH. rewrite IH. reflexivity.
Qed.

Lemma fold_boostStep text phrases : forall b,
  fold_left (boostStep text) phrases b =
  addBoosts (length (filter (includes (toLowerCase text)) phrases)) b.
Proof.
  induction phrases as [|p r IH]; intros b; simpl; [reflexivity|].
  unfold boostStep at 2.
  destruct (includes (toLowerCase text) p); simpl length.
  - rewrite addBoosts_succ. apply IH.
  - apply IH.
Qed.

(** ** Scores *)

Module ScoreFacts.
Import Num NumFacts.

Lemma addBoosts_wf n : forall b, wf b = true -> wf (addBoosts n b) = true.
Proof.
  induction n as [|n IH]; intros b Hb; [exact Hb|].
  rewrite addBoosts_succ. apply IH. apply add_wf; [exact Hb|reflexivity].
Qed.

Lemma phraseBoost_wf query text : wf (phraseBoost query text) = true.
Proof.
  unfold phraseBoost. rewrite fold_boostStep. apply addBoosts_wf. reflexivity.
Qed.

Lemma jaccard_wf query text : wf (jaccard query text) = true.
Proof. unfold jaccard. auto with num_wf. Qed.

Lemma one_wf : wf one = true.
Proof. reflexivity. Qed.

#[local] Hint Resolve jaccard_wf phraseBoost_wf one_wf : num_wf.

Lemma calculateSimilarity_wf query text :
  wf (calculateSimilarity query text) = true.
Proof. unfold calculateSimilarity. auto with num_wf. Qed.

Lemma ltb_leb x y : ltb x y = true -> leb x y = true.
Proof.
  unfold ltb, leb, SFltb, SFleb.
  destruct (SFcompare x y) as [[]|]; congruence.
Qed.

(** [Math.min(x, 1)] is NaN or at most 1. *)
Lemma min_one_le x : isNaN (min x one) = true \/ leb (min x one) one = true.
Proof.
  unfold min. destruct (isNaN x || isNaN one) eqn:En; [left; reflexivity|right].
  apply orb_false_iff in En as [Hx H1].
  destruct (ltb one x) eqn:E1; [reflexivity|].
  cbn [one]. apply not_ltb_leb; assumption.
Qed.

Lemma posFinite_of_bounds s :
  wf s = true -> isNaN s = true \/ leb s one = true ->
  ltb lit_0_1 s = true -> posFinite s = true.
Proof.
  intros Hwf Hle Hgt.
  destruct s as [b|b| |b m e]; try discriminate.
  - destruct b; [discriminate|]. destruct Hle; discriminate.
  - destruct b; [discriminate|]. exact Hwf.
Qed.

(** A score above the threshold is a positive finite Number. *)
Lemma score_posFinite query text :
  ltb lit_0_1 (calculateSimilarity query text) = true ->
  posFinite (calculateSimilarity query text) = true.
Proof.
  apply posFinite_of_bounds; [apply calculateSimilarity_wf|].
  unfold calculateSimilarity. apply min_one_le.
Qed.

(** *** The range of the score *)

Lemma addBoosts_nonneg n : forall b,
  nonneg b = true -> nonneg (addBoosts n b) = true.
Proof.
  induction n as [|n IH]; intros b Hb; [exact Hb|].
  rewrite addBoosts_succ. apply IH. apply add_nonneg; [exact Hb|reflexivity].
Qed.

Lemma fold_setAdd_length l : forall acc,
  (length (fold_left setAdd l acc) <= length acc + length l)%nat.
Proof.
  induction l as [|x r IH]; intros acc; simpl; [lia|].
  eapply Nat.le_trans; [apply IH|].
  unfold setAdd. destruct (has acc x); [lia|].
  rewrite length_app. simpl. lia.
Qed.

Lemma newSet_length l : (length (newSet l) <= length l)%nat.
Proof. apply (fold_setAdd_length l []). Qed.

Lemma splitRuns_length sep s : forall inRun,
  (length (splitRuns sep inRun s) <= S (length s))%nat.
Proof.
  induction s as [|c r IH]; intros inRun; simpl; [lia|].
  destruct (sep c).
  - destruct inRun; [pose proof (IH true); lia | simpl; pose proof (IH true); lia].
  - pose proof (IH false). destruct (splitRuns sep false r); simpl in *; lia.
Qed.

Lemma wordsOf_length s : (length (wordsOf s) <= S (length s))%nat.
Proof.
  unfold wordsOf, splitRegex.
  eapply Nat.le_trans; [apply filter_length_le|].
  eapply Nat.le_trans; [apply splitRuns_length|].
  unfold toLowerCase. rewrite length_map. lia.
Qed.

Lemma intersectionOf_length query text :
  (length (intersectionOf query text) <= S (length query))%nat.
Proof.
  unfold intersectionOf.
  eapply Nat.le_trans; [apply newSet_length|].
  eapply Nat.le_trans; [apply filter_length_le|].
  eapply Nat.le_trans; [apply newSet_length|]. apply wordsOf_length.
Qed.

Lemma ofNat_cases n :
  (Z.of_nat n < 2 ^ 1023)%Z ->
  ofNat n = S754_zero false \/ exists m e, ofNat n = S754_finite false m e.
Proof.
  intros Hn. unfold ofNat. destruct n as [|n]; [left; reflexivity|right].
  rewrite Nat2Z.inj_succ, <- Zpos_P_of_succ_nat in *.
  apply ofZ_finite. exact Hn.
Qed.

Lemma ofNat_pos_cases n :
  (0 < n)%nat ->
  ofNat n = S754_infinity false \/ exists m e, ofNat n = S754_finite false m e.
Proof.
  intros Hn. unfold ofNat. destruct n as [|n]; [lia|].
  rewrite Nat2Z.inj_succ, <- Zpos_P_of_succ_nat. apply ofZ_pos_cases.
Qed.

Lemma jaccard_nonneg query text :
  (Z.of_nat (length query) < 2 ^ 53)%Z -> unionOf query text <> [] ->
  nonneg (jaccard query text) = true.
Proof.
  intros Hlen Hu. unfold jaccard.
  apply div_nonneg; [apply ofNat_wf| |].
  - apply ofNat_cases.
    pose proof (intersectionOf_length query text).
    assert ((2 ^ 53 < 2 ^ 1023)%Z) by (apply Z.pow_lt_mono_r; lia). lia.
  - apply ofNat_pos_cases.
    destruct (unionOf query text); [congruence|simpl; lia].
Qed.

Lemma min_one_nonneg x : nonneg x = true -> nonneg (min x one) = true.
Proof.
  intros Hx. unfold min. rewrite (nonneg_not_nan x Hx). cbn [isNaN orb one].
  match goal with |- context [ltb ?a x] => destruct (ltb a x) end;
    [reflexivity|exact Hx].
Qed.

End ScoreFacts.

(** ** Sorting *)

Section SortFacts.
Context {A : Type}.
Variable comparefn : A -> A -> Num.number.

Lemma insertSorted_perm x l :
    Permutation (x :: l) (insertSorted comparefn x l).
  Proof.
    induction l as [|y r IH]; simpl; [apply Permutation_refl|].
    destruct (signOf (comparefn x y)); try apply Permutation_refl.
    eapply perm_trans; [apply perm_swap|]. apply perm_skip. exact IH.
  Qed.

Lemma sort_perm l : Permutation l (sort comparefn l).
  Proof.
    induction l as [|x r IH]; simpl; [constructor|].
    eapply perm_trans; [|apply insertSorted_perm]. apply perm_skip. exact IH.
  Qed.

Lemma insertSorted_Forall (Q : A -> Prop) x l :
    Q x -> Forall Q l -> Forall Q (insertSorted comparefn x l).
  Proof.
    intros Hx Hl. induction Hl as [|y r Hy Hr IH]; simpl.
    - constructor; [exact Hx|constructor].
    - destruct (signOf (comparefn x y)); repeat constructor; assumption.
  Qed.

Lemma sort_Forall (Q : A -> Prop) l :
    Forall Q l -> Forall Q (sort comparefn l).
  Proof.
    intros Hl. induction Hl as [|x r Hx Hr IH]; simpl; [constructor|].
    apply insertSorted_Forall; assumption.
  Qed.

  (** The comparator is consistent on the elements [ok]: it compares a key
      of theirs, the larger key going first. *)
Variable key : A -> Z.
Variable ok : A -> Prop.
Hypothesis Hkey : forall x y, ok x -> ok y ->
    signOf (comparefn x y) = (key y ?= key x)%Z.

Lemma insertSorted_sorted x l :
    ok x -> Forall ok l -> StronglySorted (keyDescending key) l ->
    StronglySorted (keyDescending key) (insertSorted comparefn x l).
  Proof.
    intros Hx Hok Hs. induction Hs as [|y r Hr IH Hy]; simpl.
    - constructor; constructor.
    - inversion Hok as [|? ? Hoy Hor]; subst.
      rewrite (Hkey x y Hx Hoy).
      destruct (Z.compare_spec (key y) (key x)) as [Heq|Hlt|Hgt].
      + constructor; [constructor; assumption|].
        constructor; [unfold keyDescending; lia|].
        eapply Forall_impl; [|exact Hy]. unfold keyDescending. intros; lia.
      + constructor; [constructor; assumption|].
        constructor; [unfold keyDescending; lia|].
        eapply Forall_impl; [|exact Hy]. unfold keyDescending. intros; lia.
      + constructor; [apply IH; assumption|].
        apply insertSorted_Forall; [unfold keyDescending; lia|exact Hy].
  Qed.

Lemma sort_sorted l :
    Forall ok l -> StronglySorted (keyDescending key) (sort comparefn l).
  Proof.
    intros Hok. induction Hok as [|x r Hx Hr IH]; simpl; [constructor|].
    apply insertSorted_sorted; [exact Hx | apply sort_Forall; exact Hr | exact IH].
  Qed.

  (** Stability: elements of one key keep their order. *)
Variable P : A -> bool.
Hypothesis HP : forall a b, P a = true -> P b = true -> key a = key b.

Lemma insertSorted_stable x l :
    ok x -> Forall ok l ->
    filter P (insertSorted comparefn x l) = filter P (x :: l).
  Proof.
    intros Hx Hok. induction Hok as [|y r Hy Hr IH]; [reflexivity|].
    cbn [insertSorted]. rewrite (Hkey x y Hx Hy).
    destruct (Z.compare_spec (key y) (key x)) as [Heq|Hlt|Hgt]; try reflexivity.
    cbn [filter] in *. rewrite IH.
    destruct (P x) eqn:Px; [|reflexivity].
    destruct (P y) eqn:Py; [|reflexivity].
    pose proof (HP x y Px Py). lia.
  Qed.

Lemma sort_stable l : Forall ok l -> filter P (sort comparefn l) = filter P l.
  Proof.
    intros Hok. induction Hok as [|x r Hx Hr IH]; [reflexivity|].
    cbn [sort fold_right]. fold (sort comparefn r).
    rewrite insertSorted_stable by (try apply sort_Forall; assumption).
    cbn [filter]. rewrite IH. reflexivity.
  Qed.
End SortFacts.

(** Two lists in descending order of the key that agree, for every key, on
    the elements of that key and their order are equal: the stable sorted
    arrangement of a list is unique, whatever algorithm computes it. *)
Lemma filter_head_In {A} (P : A -> bool) l z t :
  filter P l = z :: t -> In z l /\ P z = true.
Proof.
  intros H. apply filter_In. rewrite H. left. reflexivity.
Qed.

Lemma sorted_head_max {A} (key : A -> Z) x r z :
  StronglySorted (keyDescending key) (x :: r) -> In z (x :: r) ->
  (key z <= key x)%Z.
Proof.
  intros Hs [<-|Hin]; [lia|].
  apply StronglySorted_inv in Hs as [_ Hx].
  exact (proj1 (Forall_forall _ _) Hx z Hin).
Qed.

Lemma stable_sorted_unique {A} (key : A -> Z) : forall l1 l2 : list A,
  StronglySorted (keyDescending key) l1 ->
  StronglySorted (keyDescending key) l2 ->
  (forall k, filter (fun a => (key a =? k)%Z) l1 =
             filter (fun a => (key a =? k)%Z) l2) ->
  l1 = l2.
Proof.
  induction l1 as [|x r1 IH]; intros [|y r2] H1 H2 Hf.
  - reflexivity.
  - specialize (Hf (key y)). simpl in Hf. rewrite Z.eqb_refl in Hf. discriminate.
  - specialize (Hf (key x)). simpl in Hf. rewrite Z.eqb_refl in Hf. discriminate.
  - assert (Hxy : key x = key y).
    { pose proof (Hf (key x)) as Hx. pose proof (Hf (key y)) as Hy.
      change (filter (fun a => (key a =? key x)%Z) (x :: r1))
        with (if (key x =? key x)%Z
              then x :: filter (fun a => (key a =? key x)%Z) r1
              else filter (fun a => (key a =? key x)%Z) r1) in Hx.
      change (filter (fun a => (key a =? key y)%Z) (y :: r2))
        with (if (key y =? key y)%Z
              then y :: filter (fun a => (key a =? key y)%Z) r2
              else filter (fun a => (key a =? key y)%Z) r2) in Hy.
      rewrite Z.eqb_refl in Hx, Hy. symmetry in Hx.
      apply filter_head_In in Hx as [Hinx Hkx].
      apply filter_head_In in Hy as [Hiny Hky].
      apply Z.eqb_eq in Hkx, Hky.
      pose proof (sorted_head_max key y r2 x H2 Hinx).
      pose proof (sorted_head_max key x r1 y H1 Hiny). lia. }
    assert (Hhead : x = y).
    { specialize (Hf (key x)). cbn [filter] in Hf.
      rewrite Z.eqb_refl, <- Hxy, Z.eqb_refl in Hf. congruence. }
    subst y. f_equal.
    apply StronglySorted_inv in H1 as [H1 _].
    apply StronglySorted_inv in H2 as [H2 _].
    apply IH; try assumption.
    intros k. specialize (Hf k). cbn [filter] in Hf.
    destruct (key x =? k)%Z; congruence.
Qed.

(** [sort] computes that arrangement when the comparator is consistent. *)
Lemma sort_unique {A} (comparefn : A -> A -> Num.number) (key : A -> Z)
  (ok : A -> Prop) (l l' : list A) :
  (forall x y, ok x -> ok y -> signOf (comparefn x y) = (key y ?= key x)%Z) ->
  Forall ok l ->
  StronglySorted (keyDescending key) l' ->
  (forall k, filter (fun a => (key a =? k)%Z) l' =
             filter (fun a => (key a =? k)%Z) l) ->
  l' = sort comparefn l.
Proof.
  intros Hkey Hok Hs Hf.
  apply (stable_sorted_unique key); [exact Hs| |].
  - apply (sort_sorted comparefn key ok Hkey). exact Hok.
  - intros k. rewrite Hf. symmetry.
    apply (sort_stable comparefn key ok Hkey); [|exact Hok].
    intros a b Ha Hb. apply Z.eqb_eq in Ha, Hb. lia.
Qed.

(** ** Retriever *)

Lemma fold_scanChunk query doc cs : forall acc,
  fold_left (scanChunk query doc) cs acc =
  acc ++ flat_map
           (fun chunk =>
              let score := calculateSimilarity query chunk in
              if Num.ltb Num.lit_0_1 score
              then [Candidate.mk chunk (Document.title doc) score] else [])
           cs.
Proof.
  induction cs as [|c r IH]; intros acc; simpl.
  - rewrite app_nil_r. reflexivity.
  - rewrite IH. unfold scanChunk.
    destruct (Num.ltb Num.lit_0_1 (calculateSimilarity query c)).
    + rewrite <- app_assoc. reflexivity.
    + reflexivity.
Qed.

Lemma fold_scanDocument query docs : forall acc,
  fold_left (scanDocument query) docs acc = acc ++ scanOrder docs query.
Proof.
  induction docs as [|d r IH]; intros acc; simpl.
  - rewrite app_nil_r. reflexivity.
  - rewrite IH. unfold scanDocument. rewrite fold_scanChunk.
    rewrite <- app_assoc. reflexivity.
Qed.

(** The two nested [forEach] loops collect the candidates in scan order. *)
Lemma allChunksOf_scanOrder documents query :
  allChunksOf documents query = scanOrder documents query.
Proof. unfold allChunksOf. rewrite fold_scanDocument. reflexivity. Qed.

Lemma scanOrder_In documents query c :
  In c (scanOrder documents query) ->
  exists doc chunk,
    In doc documents /\ In chunk (Document.chunks doc) /\
    Num.ltb Num.lit_0_1 (calculateSimilarity query chunk) = true /\
    c = Candidate.mk chunk (Document.title doc) (calculateSimilarity query chunk).
Proof.
  unfold scanOrder. intros H.
  apply in_flat_map in H as (doc & Hdoc & H).
  apply in_flat_map in H as (chunk & Hchunk & H).
  cbv zeta in H.
  destruct (Num.ltb Num.lit_0_1 (calculateSimilarity query chunk)) eqn:E;
    [|contradiction].
  destruct H as [<-|[]]. exists doc, chunk. repeat split; assumption.
Qed.

Lemma scanOrder_above documents query :
  Forall (fun c => Num.ltb Num.lit_0_1 (Candidate.score c) = true)
         (scanOrder documents query).
Proof.
  apply Forall_forall. intros c H.
  apply scanOrder_In in H as (doc & chunk & _ & _ & E & ->). exact E.
Qed.

Lemma scanOrder_ok documents query : Forall scoreOk (scanOrder documents query).
Proof.
  apply Forall_forall. intros c H.
  apply scanOrder_In in H as (doc & chunk & _ & _ & E & ->).
  apply ScoreFacts.score_posFinite. exact E.
Qed.

Lemma relIndex_range len i :
  (0 <= len -> 0 <= relIndex len i <= len)%Z.
Proof. unfold relIndex. destruct (i <? 0)%Z eqn:E; lia. Qed.

Lemma slice_from_0 {A} (a : list A) stop :
  slice a 0 stop = firstn (Z.to_nat (relIndex (Z.of_nat (length a)) stop)) a.
Proof.
  unfold slice. change (relIndex (Z.of_nat (length a)) 0) with
    (Z.min 0 (Z.of_nat (length a))).
  rewrite Z.min_l by lia. rewrite Z.sub_0_r. reflexivity.
Qed.

Lemma slice_from_0_length {A} (a : list A) stop :
  length (slice a 0 stop) = Z.to_nat (relIndex (Z.of_nat (length a)) stop).
Proof.
  rewrite slice_from_0, length_firstn.
  pose proof (relIndex_range (Z.of_nat (length a)) stop ltac:(lia)). lia.
Qed.

Lemma retrieve_unfold documents query topK :
  retrieveRelevantChunks documents query topK =
  map toSource
    (firstn (Z.to_nat (relIndex (Z.of_nat (length (scanOrder documents query))) topK))
       (sort byScoreDesc (scanOrder documents query))).
Proof.
  unfold retrieveRelevantChunks.
  rewrite allChunksOf_scanOrder, slice_from_0.
  rewrite <- (Permutation_length (sort_perm byScoreDesc (scanOrder documents query))).
  reflexivity.
Qed.

(** The comparator of [retrieveRelevantChunks] compares the exact values of
    the scores, the larger one first. *)
Lemma byScoreDesc_key x y :
  scoreOk x -> scoreOk y ->
  signOf (byScoreDesc x y) = (scoreUnits y ?= scoreUnits x)%Z.
Proof. intros Hx Hy. apply NumFacts.sub_sign; assumption. Qed.

Lemma firstn_In {A} (x : A) n : forall l, In x (firstn n l) -> In x l.
Proof.
  induction n as [|n IH]; intros [|y r]; simpl; try tauto.
  intros [->|H]; [left; reflexivity | right; apply IH; exact H].
Qed.

Lemma StronglySorted_firstn {A} (R : A -> A -> Prop) n : forall l,
  StronglySorted R l -> StronglySorted R (firstn n l).
Proof.
  induction n as [|n IH]; intros l Hs; [constructor|].
  destruct Hs as [|x r Hr Hx]; simpl; [constructor|].
  constructor; [apply IH; exact Hr|].
  apply Forall_forall. intros y Hy.
  apply (proj1 (Forall_forall _ _) Hx). eapply firstn_In; eauto.
Qed.

Lemma StronglySorted_map_ok {A B} (f : A -> B) (ok : A -> Prop)
  (R : A -> A -> Prop) (R' : B -> B -> Prop) l :
  (forall a b, ok a -> ok b -> R a b -> R' (f a) (f b)) ->
  Forall ok l -> StronglySorted R l -> StronglySorted R' (map f l).
Proof.
  intros HR Hok Hs. induction Hs as [|x r Hr IH Hx]; simpl; [constructor|].
  inversion Hok as [|? ? Hox Hor]; subst.
  constructor; [apply IH; exact Hor|].
  apply Forall_map. apply Forall_forall. intros y Hy.
  apply HR; [exact Hox | exact (proj1 (Forall_forall _ _) Hor y Hy) |
             exact (proj1 (Forall_forall _ _) Hx y Hy)].
Qed.

Lemma Forall_firstn {A} (Q : A -> Prop) n l :
  Forall Q l -> Forall Q (firstn n l).
Proof.
  intros H. apply Forall_forall. intros x Hx.
  apply (proj1 (Forall_forall _ _) H). eapply firstn_In; eauto.
Qed.

Lemma sorted_candidates_ok documents query :
  Forall scoreOk (sort byScoreDesc (scanOrder documents query)).
Proof. apply sort_Forall. apply scanOrder_ok. Qed.

Lemma filter_firstn_prefix {A} (P : A -> bool) n l :
  prefixOf (filter P (firstn n l)) (filter P l).
Proof.
  exists (filter P (skipn n l)).
  rewrite <- filter_app, firstn_skipn. reflexivity.
Qed.

Lemma filter_map_comm {A B} (f : A -> B) (P : B -> bool) l :
  filter P (map f l) = map f (filter (fun a => P (f a)) l).
Proof.
  induction l as [|x r IH]; simpl; [reflexivity|].
  destruct (P (f x)); simpl; rewrite IH; reflexivity.
Qed.

Lemma eqb_same_units x y v :
  Num.eqb x v = true -> Num.eqb y v = true -> Num.units x = Num.units y.
Proof.
  unfold Num.eqb, SFeqb.
  assert (Hfin : forall s m e s' m' e',
            SFcompare (S754_finite s m e) (S754_finite s' m' e') = Some Eq ->
            s = s' /\ m = m' /\ e = e').
  { intros s m e s' m' e'. cbn [SFcompare].
    destruct s, s'; try discriminate;
      destruct (Z.compare_spec e e') as [He| |]; try discriminate;
      rewrite Pos.compare_cont_spec; cbn [Pos.switch_Eq];
      destruct (Pos.compare_spec m m') as [Hm| |]; try discriminate;
      intros _; subst; repeat split. }
  destruct v as [sv|sv| |sv mv ev].
  - destruct x as [|[]| |[]], y as [|[]| |[]]; try discriminate; reflexivity.
  - destruct x as [|[]| |[]], y as [|[]| |[]], sv; try discriminate; reflexivity.
  - destruct x as [|[]| |[]]; discriminate.
  - destruct x as [|[]| |sx mx ex]; try (destruct sv; discriminate).
    destruct y as [|[]| |sy my ey]; try (destruct sv; discriminate).
    intros Hx Hy.
    destruct (SFcompare (S754_finite sx mx ex) (S754_finite sv mv ev))
      as [[]|] eqn:Ex; try discriminate.
    destruct (SFcompare (S754_finite sy my ey) (S754_finite sv mv ev))
      as [[]|] eqn:Ey; try discriminate.
    apply Hfin in Ex as (-> & -> & ->). apply Hfin in Ey as (-> & -> & ->).
    reflexivity.
Qed.

(** ** The embedding on small inputs *)

Example split_runs :
  splitRegex isSentenceEnd (lit "..a.b!?c..") =
  [lit ""; lit "a"; lit "b"; lit "c"; lit ""].
Proof. reflexivity. Qed.

Example slice_last_five :
  sliceFrom [1; 2; 3; 4; 5; 6; 7]%nat (overlapStart defaultOverlap) =
  [3; 4; 5; 6; 7]%nat.
Proof. reflexivity. Qed.

Example slice_negative_end : slice [1; 2; 3]%nat 0 (-1) = [1; 2]%nat.
Proof. reflexivity. Qed.

Example chunk_with_overlap :
  chunkText scenarioDocument 30 50 =
  [lit "The cat sat on the mat"; lit "cat sat on the mat  The dog ran fast"].
Proof. vm_compute. reflexivity. Qed.

Example tokens_of_query :
  wordsOf scenarioQuery = [lit "where"; lit "did"; lit "the"; lit "cat"; lit "sit"].
Proof. vm_compute. reflexivity. Qed.

Example phrases_of_query :
  queryPhrases scenarioQuery = [lit "where did"; lit "the cat"].
Proof. vm_compute. reflexivity. Qed.

Example phrases_keep_white_space :
  queryPhrases (lit "a  b c,d e f_g h") = [lit "a  b"; lit "d e"; lit "f_g h"].
Proof. vm_compute. reflexivity. Qed.

(** 2/7 + 0.3, and 1/8. *)
Example score_cat :
  calculateSimilarity scenarioQuery (lit "The cat sat on the mat") =
  Num.add (Num.div (Num.ofZ 2) (Num.ofZ 7)) Num.lit_0_3.
Proof. vm_compute. reflexivity. Qed.

Example score_dog :
  calculateSimilarity scenarioQuery (lit " The dog ran fast") =
  Num.div (Num.ofZ 1) (Num.ofZ 8).
Proof. vm_compute. reflexivity. Qed.

Example min_of_nan : Num.min S754_nan Num.one = S754_nan.
Proof. reflexivity. Qed.

Example retrieve_ties :
  map (fun s => (Source.title s, Source.content s))
    (retrieveRelevantChunks tiesStore (lit "the cat sat") defaultTopK) =
  [(lit "a", lit "the cat sat"); (lit "c", lit "the cat sat");
   (lit "d", lit "the cat")].
Proof. vm_compute. reflexivity. Qed.

(** ** The properties of the design document *)

Lemma newSet_grows l : forall acc,
  (length acc <= length (fold_left setAdd l acc))%nat.
Proof.
  induction l as [|x r IH]; intros acc; simpl; [lia|].
  eapply Nat.le_trans; [|apply IH].
  unfold setAdd. destruct (has acc x); [lia|].
  rewrite length_app. simpl. lia.
Qed.

Lemma newSet_nil l : newSet l = [] -> l = [].
Proof.
  destruct l as [|x r]; [reflexivity|]. unfold newSet. simpl. intros H.
  pose proof (newSet_grows r (setAdd [] x)) as Hg. rewrite H in Hg.
  simpl in Hg. lia.
Qed.

(** C1 (code): when neither string has a token of at least three
    characters the union of the two token sets is empty, [jaccard] is 0/0,
    and the score is NaN, which is neither at least 0 nor at most 1, where
    the design document asks for the score 0. *)
Theorem calculateSimilarity_empty_union query text :
  unionOf query text = [] ->
  calculateSimilarity query text = S754_nan /\
  Num.leb Num.zero (calculateSimilarity query text) = false /\
  Num.leb (calculateSimilarity query text) Num.one = false.
Proof.
  intros H.
  assert (E : calculateSimilarity query text = S754_nan).
  { unfold calculateSimilarity, jaccard, intersectionOf. rewrite H.
    unfold unionOf in H. apply newSet_nil in H.
    apply app_eq_nil in H as [Hq _]. rewrite Hq. reflexivity. }
  rewrite E. repeat split.
Qed.

Lemma calculateSimilarity_empty_union_witness :
  calculateSimilarity (lit "hi") (lit "ok") = S754_nan.
Proof.
  apply (calculateSimilarity_empty_union (lit "hi") (lit "ok")).
  vm_compute. reflexivity.
Defined.

(** C2: for a [topK] that is not negative [retrieveRelevantChunks]
    returns at most [topK] sources, every source returned has a relevance
    strictly above the threshold 0.1, and the result is the empty list when
    the store is empty or no chunk is above the threshold. *)
Theorem retrieve_bounds documents query topK :
  (0 <= topK)%Z ->
  (Z.of_nat (length (retrieveRelevantChunks documents query topK)) <= topK)%Z /\
  Forall (fun s => Num.ltb Num.lit_0_1 (Source.relevance s) = true)
         (retrieveRelevantChunks documents query topK) /\
  retrieveRelevantChunks [] query topK = [] /\
  ((forall doc chunk, In doc documents -> In chunk (Document.chunks doc) ->
      Num.ltb Num.lit_0_1 (calculateSimilarity query chunk) = false) ->
   retrieveRelevantChunks documents query topK = []).
Proof.
  intros Hk.
  assert (Hlen : length (retrieveRelevantChunks documents query topK) =
            Z.to_nat (relIndex (Z.of_nat (length (scanOrder documents query))) topK)).
  { unfold retrieveRelevantChunks. rewrite length_map, slice_from_0_length.
    rewrite allChunksOf_scanOrder.
    rewrite <- (Permutation_length (sort_perm byScoreDesc (scanOrder documents query))).
    reflexivity. }
  split; [|split; [|split]].
  - rewrite Hlen. unfold relIndex.
    destruct (topK <? 0)%Z eqn:E; lia.
  - rewrite retrieve_unfold. apply Forall_map. apply Forall_firstn.
    apply sort_Forall.
    eapply Forall_impl; [|apply scanOrder_above]. intros c Hc. exact Hc.
  - rewrite retrieve_unfold. simpl. rewrite firstn_nil. reflexivity.
  - intros Hnone.
    assert (Hs : scanOrder documents query = []).
    { destruct (scanOrder documents query) as [|c r] eqn:E; [reflexivity|].
      assert (Hin : In c (scanOrder documents query)) by (rewrite E; left; reflexivity).
      apply scanOrder_In in Hin as (doc & chunk & Hd & Hc & Habove & _).
      rewrite (Hnone doc chunk Hd Hc) in Habove. discriminate. }
    rewrite retrieve_unfold, Hs. simpl. rewrite firstn_nil. reflexivity.
Qed.

Lemma retrieve_bounds_witness :
  ((Z.of_nat (length (retrieveRelevantChunks tiesStore (lit "the cat sat") 3)) <= 3)%Z /\
   Forall (fun s => Num.ltb Num.lit_0_1 (Source.relevance s) = true)
          (retrieveRelevantChunks tiesStore (lit "the cat sat") 3)) /\
  retrieveRelevantChunks tiesStore (lit "dog") 3 = [].
Proof.
  split.
  - pose proof (retrieve_bounds tiesStore (lit "the cat sat") 3 ltac:(lia))
      as (Hcount & Habove & _).
    split; [exact Hcount|exact Habove].
  - apply (retrieve_bounds tiesStore (lit "dog") 3 ltac:(lia)).
    intros doc chunk Hd Hc. vm_compute in Hd.
    destruct Hd as [<-|[<-|[<-|[<-|[]]]]]; vm_compute in Hc;
      destruct Hc as [<-|[]]; vm_compute; reflexivity.
Defined.

(** C3 (as stated): ingested with the defaults the document of scenario A
    is one chunk, which holds both phrases; no chunk with the first phrase
    scores strictly above a chunk with the second. *)
Lemma scenarioA_single_chunk :
  ~ (exists c1 c2,
       In c1 (chunkText scenarioDocument defaultChunkSize defaultOverlap) /\
       In c2 (chunkText scenarioDocument defaultChunkSize defaultOverlap) /\
       includes c1 (lit "cat sat on the mat") = true /\
       includes c2 (lit "dog ran fast") = true /\
       Num.ltb (calculateSimilarity scenarioQuery c2)
               (calculateSimilarity scenarioQuery c1) = true).
Proof.
  assert (E : chunkText scenarioDocument defaultChunkSize defaultOverlap =
              [lit "The cat sat on the mat.  The dog ran fast"])
    by (vm_compute; reflexivity).
  rewrite E. intros (c1 & c2 & H1 & H2 & _ & _ & H).
  destruct H1 as [<-|[]]. destruct H2 as [<-|[]].
  vm_compute in H. discriminate.
Qed.

(** C3 (amended): the document of scenario A has the two sentences
    [The cat sat on the mat] and [ The dog ran fast]; with the defaults
    they are joined into the single chunk
    [The cat sat on the mat.  The dog ran fast], which is above the
    threshold for the query; scored on their own, the first sentence is
    strictly above the second. *)
Theorem scenarioA_scores :
  sentencesOf scenarioDocument =
    [lit "The cat sat on the mat"; lit " The dog ran fast"] /\
  chunkText scenarioDocument defaultChunkSize defaultOverlap =
    [lit "The cat sat on the mat.  The dog ran fast"] /\
  Num.ltb Num.lit_0_1
    (calculateSimilarity scenarioQuery
       (lit "The cat sat on the mat.  The dog ran fast")) = true /\
  Num.ltb (calculateSimilarity scenarioQuery (lit " The dog ran fast"))
          (calculateSimilarity scenarioQuery (lit "The cat sat on the mat")) = true.
Proof. repeat split; vm_compute; reflexivity. Qed.

(** C4 (as stated): [cat sat] is an adjacent two-word sequence of the
    query [the cat sat] and a substring of the chunk, but the pattern
    matches only [the cat], the search resuming behind it: nothing is
    added, where the boost over all adjacent pairs is 0.3. *)
Lemma phraseBoost_skips_overlapping_pair :
  queryPhrases (lit "the cat sat") = [lit "the cat"] /\
  In (lit "cat sat") (allBigrams None (toLowerCase (lit "the cat sat"))) /\
  includes (toLowerCase (lit "cat sat down now today")) (lit "cat sat") = true /\
  phraseBoost (lit "the cat sat") (lit "cat sat down now today") = Num.zero /\
  specPhraseBoost (lit "the cat sat") (lit "cat sat down now today") = Num.lit_0_3 /\
  ~ (forall query text, phraseBoost query text = specPhraseBoost query text).
Proof.
  repeat split; try (vm_compute; reflexivity).
  - vm_compute. right; left; reflexivity.
  - intros H.
    specialize (H (lit "the cat sat") (lit "cat sat down now today")).
    vm_compute in H. discriminate.
Qed.

(** C4 (amended): the phrases of the boost are the matches of the
    word-space-word pattern in the lowercased query found from left to
    right: where a phrase (a word, white space, a word, with no word
    character before or after) starts, it is extracted and the search
    resumes behind it; elsewhere the search moves on by one character.  So
    the phrases are consecutive pieces of the query that do not overlap.
    0.3 is added once for every extracted phrase that is a substring of the
    lowercased chunk, and the sum of [jaccard] and the boost is clamped to
    1. *)
Theorem phraseBoost_spec query text :
  queryPhrases query = scanPhrases None (toLowerCase query) /\
  (forall prev, scanPhrases prev [] = []) /\
  (forall prev s m rest,
     phraseAt prev s m rest ->
     scanPhrases prev s = m :: scanPhrases (Some (last m " "%char)) rest) /\
  (forall prev c r,
     (forall m rest, ~ phraseAt prev (c :: r) m rest) ->
     scanPhrases prev (c :: r) = scanPhrases (Some c) r) /\
  Regex.Slices (toLowerCase query) (queryPhrases query) /\
  Forall isPhrase (queryPhrases query) /\
  phraseBoost query text =
    addBoosts
      (length (filter (includes (toLowerCase text)) (queryPhrases query)))
      Num.zero /\
  calculateSimilarity query text =
    Num.min (Num.add (jaccard query text) (phraseBoost query text)) Num.one.
Proof.
  destruct (queryPhrases_slices query) as [Hs Hp].
  split; [reflexivity|]. split; [|split; [|split]].
  - intros prev. unfold scanPhrases. cbn [Regex.matchGlobal].
    destruct (phrasePattern prev []) as [rest|] eqn:E; [|reflexivity].
    apply RegexFacts.phrasePattern_shape in E as (m & _ & Hne & Hm).
    destruct m; [congruence|discriminate].
  - intros prev s m rest Hat. unfold scanPhrases.
    pose proof (RegexFacts.phrasePattern_complete _ _ _ _ Hat) as E.
    pose proof (RegexFacts.phraseAt_nonempty _ _ _ _ Hat) as Hne.
    destruct Hat as (_ & _ & -> & _).
    apply (RegexFacts.matchGlobal_match phrasePattern prev m rest E Hne).
  - intros prev c r Hnone. unfold scanPhrases.
    apply RegexFacts.matchGlobal_fail.
    destruct (phrasePattern prev (c :: r)) as [rest|] eqn:E; [|reflexivity].
    apply RegexFacts.phrasePattern_inv in E as [m Hm].
    exfalso. exact (Hnone m rest Hm).
  - repeat split; try assumption.
    unfold phraseBoost. apply fold_boostStep.
Qed.

(** C5: for every text that is not empty [chunkText] returns at least one
    chunk and no empty chunk, whatever the chunk size and the overlap; when
    the loop and the final flush push nothing, the whole text is the single
    chunk returned. *)
Theorem chunkText_nonempty text chunkSize overlap :
  text <> [] ->
  chunkText text chunkSize overlap <> [] /\
  Forall (fun c => c <> []) (chunkText text chunkSize overlap) /\
  (accumulate chunkSize overlap text = [] ->
   chunkText text chunkSize overlap = [text]).
Proof.
  intros Htext. unfold chunkText.
  pose proof (accumulate_nonempty_chunks chunkSize overlap text) as Hall.
  destruct (accumulate chunkSize overlap text) as [|c cs].
  - repeat split; try discriminate. constructor; [exact Htext|constructor].
  - repeat split; try discriminate. exact Hall.
Qed.

Lemma chunkText_nonempty_witness :
  chunkText (lit "Hello world. How are you") defaultChunkSize defaultOverlap <> [] /\
  Forall (fun c => c <> [])
    (chunkText (lit "Hello world. How are you") defaultChunkSize defaultOverlap).
Proof.
  pose proof (chunkText_nonempty (lit "Hello world. How are you")
                defaultChunkSize defaultOverlap ltac:(discriminate)) as H.
  split; apply H.
Defined.

(** C6: with the default chunk size 500 and overlap 50, a text of 1200
    characters without [.], [!] or [?], with no white space at its two ends
    as every content that [addDocument] receives from the upload form is,
    gives exactly one chunk: the text itself, not split, which is longer
    than the chunk size. *)
Theorem chunkText_long_sentence text :
  length text = 1200%nat ->
  forallb (fun c => negb (isSentenceEnd c)) text = true ->
  trim text = text ->
  chunkText text defaultChunkSize defaultOverlap = [text] /\
  exists c, chunkText text defaultChunkSize defaultOverlap = [c] /\
            (defaultChunkSize < Z.of_nat (length c))%Z.
Proof.
  intros Hlen Hsep Htrim.
  assert (E : chunkText text defaultChunkSize defaultOverlap = [text]).
  { rewrite (chunkText_one_sentence text defaultChunkSize defaultOverlap Hsep).
    rewrite Htrim. destruct (blank text); reflexivity. }
  split; [exact E|].
  exists text. split; [exact E|]. rewrite Hlen. reflexivity.
Qed.

Lemma chunkText_long_sentence_witness :
  chunkText (repeat "a"%char 1200) defaultChunkSize defaultOverlap =
    [repeat "a"%char 1200] /\
  exists c,
    chunkText (repeat "a"%char 1200) defaultChunkSize defaultOverlap = [c] /\
    (defaultChunkSize < Z.of_nat (length c))%Z.
Proof.
  apply (chunkText_long_sentence (repeat "a"%char 1200));
    vm_compute; reflexivity.
Defined.

(** C7: the sources [retrieveRelevantChunks] returns are in descending
    order of relevance. *)
Theorem retrieve_descending documents query topK :
  descending (retrieveRelevantChunks documents query topK).
Proof.
  unfold descending. rewrite retrieve_unfold.
  apply (StronglySorted_map_ok toSource scoreOk (keyDescending scoreUnits)).
  - intros a b Ha Hb Hab. cbn [toSource Source.relevance].
    apply NumFacts.leb_units; assumption.
  - apply Forall_firstn. apply sorted_candidates_ok.
  - apply StronglySorted_firstn.
    apply (sort_sorted byScoreDesc scoreUnits scoreOk byScoreDesc_key).
    apply scanOrder_ok.
Qed.

(** C8: [deleteDocument] with an id that no document of the store has
    leaves the store as it is: the same documents in the same order. *)
Theorem deleteDocument_unknown_id id prev :
  (forall doc, In doc prev -> Document.id doc <> id) ->
  deleteDocument id prev = prev.
Proof.
  unfold deleteDocument. induction prev as [|d r IH]; intros H; simpl.
  - reflexivity.
  - unfold str_eqb. destruct (str_eq_dec (Document.id d) id) as [E|_].
    + exfalso. apply (H d); [left; reflexivity|exact E].
    + simpl. f_equal. apply IH. intros doc Hin. apply H. right. exact Hin.
Qed.

Lemma deleteDocument_unknown_id_witness :
  deleteDocument (lit "42") tiesStore = tiesStore.
Proof.
  apply deleteDocument_unknown_id.
  intros doc Hd. vm_compute in Hd.
  destruct Hd as [<-|[<-|[<-|[<-|[]]]]]; vm_compute; discriminate.
Defined.

(** C9 (code): [size] is the number of UTF-16 code units of the content,
    which for the one-character content U+00E9 is 1 where the content has
    2 bytes, in UTF-8 as in UTF-16; and the id is the clock reading, so two
    documents added within one millisecond have the same id. *)
Theorem addDocument_size_and_id :
  (forall now date title content prev,
     exists doc,
       addDocument now date title content prev = prev ++ [doc] /\
       Document.size doc = length content /\
       Document.id doc = toString now) /\
  (let store := addDocument 1000 1001 (lit "b") eAcute
                  (addDocument 1000 1000 (lit "a") eAcute []) in
   map Document.size store = [1%nat; 1%nat] /\
   utf8Length eAcute = 2%nat /\ utf16Length eAcute = 2%nat /\
   map Document.id store = [lit "1000"; lit "1000"] /\
   ~ NoDup (map Document.id store)).
Proof.
  split.
  - intros now date title content prev. eexists. repeat split.
  - repeat split; try (vm_compute; reflexivity).
    vm_compute. intros H. inversion H as [|x l Hx _]; subst.
    apply Hx. left. reflexivity.
Qed.

Lemma filter_twice {A} (f : A -> bool) l : filter f (filter f l) = filter f l.
Proof.
  induction l as [|x r IH]; simpl; [reflexivity|].
  destruct (f x) eqn:E; simpl; [rewrite E, IH|]; auto.
Qed.

(** C10: among the sources returned, those of one relevance are in the
    order of the scan, document after document in the order of the store
    and chunk after chunk within a document: they are the first of the
    candidates of that relevance in scan order. *)
Theorem retrieve_ties_in_scan_order documents query topK v :
  allChunksOf documents query = scanOrder documents query /\
  prefixOf
    (filter (fun s => Num.eqb (Source.relevance s) v)
       (retrieveRelevantChunks documents query topK))
    (filter (fun s => Num.eqb (Source.relevance s) v)
       (map toSource (scanOrder documents query))).
Proof.
  split; [apply allChunksOf_scanOrder|].
  rewrite retrieve_unfold, !filter_map_comm.
  set (P := fun c => Num.eqb (Source.relevance (toSource c)) v).
  rewrite <- (sort_stable byScoreDesc scoreUnits scoreOk byScoreDesc_key P)
    with (l := scanOrder documents query).
  - destruct (filter_firstn_prefix P
                (Z.to_nat (relIndex (Z.of_nat (length (scanOrder documents query))) topK))
                (sort byScoreDesc (scanOrder documents query))) as [rest E].
    exists (map toSource rest). rewrite E, map_app. reflexivity.
  - intros a b Ha Hb. unfold P in *. cbn [toSource Source.relevance] in *.
    apply (eqb_same_units _ _ v); assumption.
  - apply scanOrder_ok.
Qed.

(** ** Further properties *)

(** X1, the complement of C1: when some token of three or more characters
    occurs in the query or in the chunk, the score is a number between 0
    and 1 (a string has fewer than 2^53 code units). *)
Theorem calculateSimilarity_range query text :
  (Z.of_nat (length query) < 2 ^ 53)%Z -> unionOf query text <> [] ->
  Num.leb Num.zero (calculateSimilarity query text) = true /\
  Num.leb (calculateSimilarity query text) Num.one = true.
Proof.
  intros Hlen Hu.
  assert (Hnn : Num.nonneg (calculateSimilarity query text) = true).
  { unfold calculateSimilarity. apply ScoreFacts.min_one_nonneg.
    apply NumFacts.add_nonneg.
    - apply ScoreFacts.jaccard_nonneg; assumption.
    - unfold phraseBoost. rewrite fold_boostStep.
      apply ScoreFacts.addBoosts_nonneg. reflexivity. }
  split; [exact Hnn|].
  pose proof (NumFacts.nonneg_not_nan _ Hnn) as Hnan.
  unfold calculateSimilarity in *.
  destruct (ScoreFacts.min_one_le
              (Num.add (jaccard query text) (phraseBoost query text)))
    as [H|H]; [congruence|exact H].
Qed.

Lemma calculateSimilarity_range_witness :
  Num.leb Num.zero
    (calculateSimilarity scenarioQuery (lit "The cat sat on the mat")) = true /\
  Num.leb (calculateSimilarity scenarioQuery (lit "The cat sat on the mat"))
    Num.one = true.
Proof.
  apply calculateSimilarity_range.
  - vm_compute. reflexivity.
  - vm_compute. discriminate.
Defined.

(** X3, the invariant of the data model: a document has at least one chunk,
    whatever its content. *)
Theorem newDocument_has_chunks now date title content :
  Document.chunks (newDocument now date title content) <> [].
Proof.
  cbn [newDocument Document.chunks]. unfold chunkText.
  destruct (accumulate defaultChunkSize defaultOverlap content); discriminate.
Qed.

(** X2: [deleteDocument] leaves no document with the id, keeps the others
    in their order, and is idempotent. *)
Theorem deleteDocument_removes id prev :
  (forall doc, In doc (deleteDocument id prev) <->
               In doc prev /\ Document.id doc <> id) /\
  (forall before doc after,
     prev = before ++ doc :: after -> Document.id doc <> id ->
     deleteDocument id prev =
       deleteDocument id before ++ doc :: deleteDocument id after) /\
  deleteDocument id (deleteDocument id prev) = deleteDocument id prev.
Proof.
  split; [|split].
  - intros doc. unfold deleteDocument. rewrite filter_In. unfold str_eqb.
    destruct (str_eq_dec (Document.id doc) id) as [E|E]; simpl;
      split; intros [H1 H2]; split; try assumption; try congruence;
      try reflexivity.
  - intros before doc after -> Hid. unfold deleteDocument.
    rewrite filter_app. cbn [filter]. unfold str_eqb.
    destruct (str_eq_dec (Document.id doc) id); [contradiction|reflexivity].
  - unfold deleteDocument. apply filter_twice.
Qed.

(** ** Trimming *)

Lemma trimStart_suffix s : exists p, s = p ++ trimStart s /\ blank p = true.
Proof.
  induction s as [|c r IH]; [exists []; split; reflexivity|].
  simpl. destruct (isWhiteSpace c) eqn:E.
  - destruct IH as (p & Hp & Hb). exists (c :: p). split.
    + simpl. f_equal. exact Hp.
    + unfold blank. simpl. rewrite E. exact Hb.
  - exists []. split; reflexivity.
Qed.

Lemma trimStart_head s c r : trimStart s = c :: r -> isWhiteSpace c = false.
Proof.
  induction s as [|x t IH]; simpl; [discriminate|].
  destruct (isWhiteSpace x) eqn:E; [exact IH|].
  intros H. injection H as <- _. exact E.
Qed.

(** [trim] removes white space at the two ends only. *)
Lemma trim_spec s :
  exists p q, s = p ++ trim s ++ q /\ blank p = true /\ blank q = true.
Proof.
  unfold trim, trimEnd.
  destruct (trimStart_suffix s) as (p & Hp & Hbp).
  destruct (trimStart_suffix (rev (trimStart s))) as (q & Hq & Hbq).
  exists p, (rev q). repeat split; try assumption.
  - rewrite <- rev_app_distr, <- Hq, rev_involutive. exact Hp.
  - rewrite blank_rev. exact Hbq.
Qed.

(** What [trim] leaves starts and ends with a character that is no white
    space, unless it is empty. *)
Lemma trim_ends s :
  trim s <> [] ->
  exists c d, hd_error (trim s) = Some c /\ hd_error (rev (trim s)) = Some d /\
              isWhiteSpace c = false /\ isWhiteSpace d = false.
Proof.
  unfold trim, trimEnd. intros Hne.
  destruct (trimStart (rev (trimStart s))) as [|d u] eqn:Eu;
    [simpl in Hne; congruence|].
  pose proof (trimStart_head _ _ _ Eu) as Hd.
  destruct (trimStart_suffix (rev (trimStart s))) as (p & Hp & _).
  rewrite Eu in Hp.
  assert (Ht : trimStart s = rev (d :: u) ++ rev p).
  { rewrite <- rev_app_distr, <- Hp, rev_involutive. reflexivity. }
  destruct (rev (d :: u)) as [|c w] eqn:Er.
  { apply (f_equal (@rev ascii)) in Er. rewrite rev_involutive in Er.
    discriminate. }
  exists c, d. repeat split.
  - rewrite <- Er, rev_involutive. reflexivity.
  - simpl in Ht. exact (trimStart_head _ _ _ Ht).
  - exact Hd.
Qed.

Lemma trim_idempotent s : trim (trim s) = trim s.
Proof.
  destruct (list_eq_dec ascii_dec (trim s) []) as [E|Hne].
  - rewrite E. reflexivity.
  - destruct (trim_ends s Hne) as (a & b & Ha & Hb & Wa & Wb).
    apply (trim_id (trim s) a b); assumption.
Qed.

Lemma truthy_trim s : truthy (trim s) = negb (blank s).
Proof.
  destruct (blank s) eqn:E.
  - apply trim_nil in E. rewrite E. reflexivity.
  - apply trim_inked in E. destruct (trim s); [congruence|reflexivity].
Qed.

Lemma truthy_nonempty s : truthy s = true <-> s <> [].
Proof. destruct s; simpl; split; congruence. Qed.

(** ** The chat input *)

(** X4: the chat form hands a message on exactly when the draft is not
    blank and the input is neither loading nor disabled; what it hands on
    is the draft without the white space at its ends, which is not empty,
    and the draft is cleared; otherwise the draft stays.  A key other than
    Enter, and Enter with Shift, hand nothing on. *)
Theorem handleSubmit_sends props message :
  (fst (ChatInput.handleSubmit props message) = None <->
   blank message = true \/ ChatInput.isLoading props = true \/
   ChatInput.disabled props = true) /\
  (forall sent,
     fst (ChatInput.handleSubmit props message) = Some sent ->
     sent = trim message /\ sent <> [] /\ trim sent = sent /\
     snd (ChatInput.handleSubmit props message) = []) /\
  (fst (ChatInput.handleSubmit props message) = None ->
   snd (ChatInput.handleSubmit props message) = message) /\
  (forall key shiftKey,
     key <> lit "Enter" \/ shiftKey = true ->
     ChatInput.handleKeyDown props key shiftKey message = (None, message)) /\
  ChatInput.handleKeyDown props (lit "Enter") false message =
    ChatInput.handleSubmit props message.
Proof.
  assert (Hkey : forall key shiftKey,
            key <> lit "Enter" \/ shiftKey = true ->
            ChatInput.handleKeyDown props key shiftKey message = (None, message)).
  { intros key shiftKey [Hk|Hs]; unfold ChatInput.handleKeyDown.
    - unfold str_eqb. destruct (str_eq_dec key (lit "Enter"));
        [congruence|reflexivity].
    - rewrite Hs, andb_false_r. reflexivity. }
  assert (Henter : ChatInput.handleKeyDown props (lit "Enter") false message =
                   ChatInput.handleSubmit props message) by reflexivity.
  unfold ChatInput.handleSubmit in *. rewrite truthy_trim in *.
  destruct (negb (blank message) && negb (ChatInput.isLoading props)
            && negb (ChatInput.disabled props)) eqn:E; cbn [fst snd].
  - apply andb_true_iff in E as [E E3]. apply andb_true_iff in E as [E1 E2].
    apply negb_true_iff in E1, E2, E3.
    split; [|split; [|split; [|split]]]; try assumption.
    + split; [discriminate|]. intros [H|[H|H]]; congruence.
    + intros sent H. injection H as <-. repeat split.
      * apply trim_inked. exact E1.
      * apply trim_idempotent.
    + discriminate.
  - split; [|split; [|split; [|split]]]; try assumption.
    + split; [intros _|reflexivity].
      destruct (blank message); [left; reflexivity|].
      destruct (ChatInput.isLoading props); [right; left; reflexivity|].
      destruct (ChatInput.disabled props); [right; right; reflexivity|].
      discriminate.
    + discriminate.
    + reflexivity.
Qed.

(** ** The document panel *)

Module PanelFacts.
Import Regex DocumentPanel.

Lemma atEnd_inv prev s rest : atEnd accept prev s = Some rest -> s = [] /\ rest = [].
Proof.
  unfold atEnd, accept. destruct s; [|discriminate].
  intros H. injection H as <-. split; reflexivity.
Qed.

Lemma plus_atEnd_inv cls prev s rest :
  plus cls (atEnd accept) prev s = Some rest ->
  rest = [] /\ s <> [] /\ forallb cls s = true.
Proof.
  intros H. apply RegexFacts.plus_inv in H as (run & s' & Hne & Hall & -> & H).
  apply atEnd_inv in H as [-> ->]. rewrite app_nil_r.
  repeat split; assumption.
Qed.

Lemma plus_atEnd_complete cls prev s :
  s <> [] -> forallb cls s = true -> plus cls (atEnd accept) prev s = Some [].
Proof.
  intros Hne Hall. rewrite <- (app_nil_r s).
  apply RegexFacts.plus_greedy; try assumption; [exact I | reflexivity].
Qed.

(** The pattern matches at a position exactly when a dot stands there and
    what follows it, up to the end of the name, is not empty and has no
    dot and no slash. *)
Lemma extensionPattern_spec prev s rest :
  extensionPattern prev s = Some rest <->
  exists ext, s = "."%char :: ext /\ ext <> [] /\
              forallb notSlashDot ext = true /\ rest = [].
Proof.
  unfold extensionPattern, char. split.
  - destruct s as [|c r]; [discriminate|].
    destruct (Ascii.eqb_spec c "."%char) as [->|Hc]; [|discriminate].
    intros H. apply plus_atEnd_inv in H as (-> & Hne & Hall).
    exists r. repeat split; assumption.
  - intros (ext & -> & Hne & Hall & ->).
    rewrite Ascii.eqb_refl. apply plus_atEnd_complete; assumption.
Qed.

Lemma removeFirst_strips ext :
  ext <> [] -> forallb notSlashDot ext = true ->
  forall base prev,
    removeFirst extensionPattern prev (base ++ "."%char :: ext) = base.
Proof.
  intros Hne Hall. induction base as [|c b IH]; intros prev.
  - destruct ext as [|e ext']; [congruence|]. cbn [app removeFirst].
    rewrite (proj2 (extensionPattern_spec prev ("."%char :: e :: ext') []));
      [reflexivity|].
    exists (e :: ext'). repeat split; assumption.
  - cbn [app removeFirst].
    destruct (extensionPattern prev (c :: b ++ "."%char :: ext)) as [rest|] eqn:E.
    + apply extensionPattern_spec in E as (x & Hx & _ & Hxall & _).
      injection Hx as _ <-. rewrite forallb_app in Hxall.
      apply andb_true_iff in Hxall as [_ Hxall]. simpl in Hxall. discriminate.
    + f_equal. apply IH.
Qed.

Lemma removeFirst_prefix : forall name prev,
  exists ext,
    name = removeFirst extensionPattern prev name ++ ext /\
    (ext = [] \/
     exists e, ext = "."%char :: e /\ e <> [] /\ forallb notSlashDot e = true).
Proof.
  induction name as [|c r IH]; intros prev.
  - cbn [removeFirst].
    destruct (extensionPattern prev []) as [rest|] eqn:E.
    + apply extensionPattern_spec in E as (x & Hx & _). discriminate.
    + exists []. split; [reflexivity|left; reflexivity].
  - cbn [removeFirst].
    destruct (extensionPattern prev (c :: r)) as [rest|] eqn:E.
    + apply extensionPattern_spec in E as (x & Hx & Hne & Hall & ->).
      exists (c :: r). split; [reflexivity|right].
      exists x. repeat split; assumption.
    + destruct (IH (Some c)) as (ext & Hext & Hshape).
      exists ext. split; [|exact Hshape]. simpl. f_equal. exact Hext.
Qed.

End PanelFacts.

(** X5: the title proposed for an uploaded file is its name without the
    extension: for a name [base.ext], where [ext] is not empty and has
    neither a dot nor a slash, it is [base]. *)
Theorem titleOfFile_strips base ext :
  ext <> [] -> forallb DocumentPanel.notSlashDot ext = true ->
  DocumentPanel.titleOfFile (base ++ lit "." ++ ext) = base.
Proof.
  intros Hne Hall. unfold DocumentPanel.titleOfFile.
  apply PanelFacts.removeFirst_strips; assumption.
Qed.

Lemma titleOfFile_strips_witness :
  DocumentPanel.titleOfFile (lit "archive.tar" ++ lit "." ++ lit "gz") =
  lit "archive.tar".
Proof.
  apply titleOfFile_strips; [discriminate | vm_compute; reflexivity].
Defined.

(** X6: the title is the name itself, or the name less one final extension
    (a dot followed, up to the end, by characters other than dots and
    slashes, at least one): nothing else is ever removed. *)
Theorem titleOfFile_prefix name :
  exists ext,
    name = DocumentPanel.titleOfFile name ++ ext /\
    (ext = [] \/
     exists e, ext = lit "." ++ e /\ e <> [] /\
               forallb DocumentPanel.notSlashDot e = true).
Proof. apply PanelFacts.removeFirst_prefix. Qed.

Example title_examples :
  map DocumentPanel.titleOfFile
    [lit "notes.txt"; lit "README"; lit "a.b/c"; lit "draft."; lit ".env"] =
  [lit "notes"; lit "README"; lit "a.b/c"; lit "draft."; lit ""].
Proof. vm_compute. reflexivity. Qed.

Lemma chunkText_all_nonempty text chunkSize overlap :
  text <> [] -> Forall (fun c => c <> []) (chunkText text chunkSize overlap).
Proof.
  intros Htext. unfold chunkText.
  pose proof (accumulate_nonempty_chunks chunkSize overlap text) as Hall.
  destruct (accumulate chunkSize overlap text) as [|c cs]; [|exact Hall].
  constructor; [exact Htext|constructor].
Qed.

(** X7: the upload form adds a document exactly when neither the title
    nor the content is blank.  The document added is the last of the store,
    with the title and the content without the white space at their ends,
    a content that is not empty, the number of characters of that content
    as its size, and no empty chunk; the form is cleared.  Otherwise the
    store and the form stay as they are. *)
Theorem upload_adds now date st documents :
  (blank (DocumentPanel.newDocTitle st) = true \/
   blank (DocumentPanel.newDocContent st) = true ->
   App.upload now date st documents = (st, documents)) /\
  (blank (DocumentPanel.newDocTitle st) = false ->
   blank (DocumentPanel.newDocContent st) = false ->
   exists doc,
     App.upload now date st documents =
       (DocumentPanel.mk [] [] false, documents ++ [doc]) /\
     Document.title doc = trim (DocumentPanel.newDocTitle st) /\
     Document.content doc = trim (DocumentPanel.newDocContent st) /\
     Document.title doc <> [] /\ Document.content doc <> [] /\
     trim (Document.content doc) = Document.content doc /\
     Document.size doc = length (Document.content doc) /\
     Forall (fun c => c <> []) (Document.chunks doc)).
Proof.
  unfold App.upload, DocumentPanel.handleUpload. rewrite !truthy_trim. split.
  - intros [H|H]; rewrite H; [|rewrite andb_false_r]; reflexivity.
  - intros Ht Hc. rewrite Ht, Hc. cbn [negb andb].
    eexists. split; [reflexivity|]. cbn.
    repeat split; try (apply trim_inked; assumption).
    + apply trim_idempotent.
    + apply chunkText_all_nonempty. apply trim_inked. exact Hc.
Qed.

Lemma upload_adds_witness :
  exists doc,
    App.upload 5 5
      (DocumentPanel.mk (lit " pets ") (lit " The cat sat. It purred! ") true)
      tiesStore =
      (DocumentPanel.mk [] [] false, tiesStore ++ [doc]) /\
    Document.title doc = lit "pets" /\
    Document.content doc = lit "The cat sat. It purred!" /\
    Document.title doc <> [] /\ Document.content doc <> [] /\
    trim (Document.content doc) = Document.content doc /\
    Document.size doc = length (Document.content doc) /\
    Forall (fun c => c <> []) (Document.chunks doc).
Proof.
  apply (proj2 (upload_adds 5 5
                  (DocumentPanel.mk (lit " pets ")
                     (lit " The cat sat. It purred! ") true)
                  tiesStore)); vm_compute; reflexivity.
Defined.

(** X8: a content without [.], [!] or [?] uploaded through the form is
    stored as one chunk, which is the stored content itself. *)
Theorem upload_single_chunk now date st documents :
  blank (DocumentPanel.newDocTitle st) = false ->
  blank (DocumentPanel.newDocContent st) = false ->
  forallb (fun c => negb (isSentenceEnd c)) (DocumentPanel.newDocContent st) = true ->
  exists doc,
    snd (App.upload now date st documents) = documents ++ [doc] /\
    Document.content doc = trim (DocumentPanel.newDocContent st) /\
    Document.chunks doc = [Document.content doc].
Proof.
  intros Ht Hc Hsep.
  unfold App.upload, DocumentPanel.handleUpload. rewrite !truthy_trim, Ht, Hc.
  cbn [negb andb snd]. eexists. split; [reflexivity|]. cbn.
  split; [reflexivity|].
  set (content := DocumentPanel.newDocContent st) in *.
  assert (Hsep' : forallb (fun c => negb (isSentenceEnd c)) (trim content) = true).
  { destruct (trim_spec content) as (p & q & Hpq & _ & _).
    rewrite Hpq, !forallb_app in Hsep.
    apply andb_true_iff in Hsep as [_ Hsep].
    apply andb_true_iff in Hsep as [Hsep _]. exact Hsep. }
  rewrite (chunkText_one_sentence _ _ _ Hsep').
  assert (Hb : blank (trim content) = false).
  { destruct (blank (trim content)) eqn:E; [|reflexivity].
    apply trim_nil in E. rewrite trim_idempotent in E.
    apply trim_inked in Hc. congruence. }
  rewrite Hb, trim_idempotent. reflexivity.
Qed.

Lemma upload_single_chunk_witness :
  exists doc,
    snd (App.upload 5 5
           (DocumentPanel.mk (lit "list") (lit " milk, eggs and bread ") true) [])
      = [] ++ [doc] /\
    Document.content doc = trim (lit " milk, eggs and bread ") /\
    Document.chunks doc = [Document.content doc].
Proof.
  apply (upload_single_chunk 5 5
           (DocumentPanel.mk (lit "list") (lit " milk, eggs and bread ") true) []);
    vm_compute; reflexivity.
Defined.


(** ** The document store *)

Lemma lit_inj a b : lit a = lit b -> a = b.
Proof.
  unfold lit. intros H.
  rewrite <- (string_of_list_ascii_of_string a),
          <- (string_of_list_ascii_of_string b), H.
  reflexivity.
Qed.

(** The decimal numerals of two integers are equal only for equal
    integers. *)
Lemma toString_inj a b : toString a = toString b -> a = b.
Proof.
  unfold toString. intros H. apply lit_inj in H.
  assert (Hnn : forall n : Z,
            Z.to_int n <> Decimal.Pos Decimal.Nil /\
            Z.to_int n <> Decimal.Neg Decimal.Nil).
  { intros [|p|p]; cbn [Z.to_int]; split; try discriminate;
      intros E; injection E as E;
      exact (DecimalPos.Unsigned.to_uint_nonnil p E). }
  apply DecimalZ.to_int_inj.
  destruct (Hnn a) as [Ha1 Ha2]. destruct (Hnn b) as [Hb1 Hb2].
  pose proof (DecimalString.NilZero.isi _ Ha1 Ha2) as Ea.
  pose proof (DecimalString.NilZero.isi _ Hb1 Hb2) as Eb.
  rewrite H in Ea. congruence.
Qed.

Lemma filter_all {A} (f : A -> bool) l :
  (forall x, In x l -> f x = true) -> filter f l = l.
Proof.
  induction l as [|x r IH]; intros H; simpl; [reflexivity|].
  rewrite (H x (or_introl eq_refl)). f_equal.
  apply IH. intros y Hy. apply H. right. exact Hy.
Qed.

Lemma str_eqb_refl s : str_eqb s s = true.
Proof. unfold str_eqb. destruct (str_eq_dec s s); [reflexivity|congruence]. Qed.

Lemma str_eqb_neq s t : s <> t -> str_eqb s t = false.
Proof. unfold str_eqb. destruct (str_eq_dec s t); [congruence|reflexivity]. Qed.

Lemma deleteDocument_app id a b :
  deleteDocument id (a ++ b) = deleteDocument id a ++ deleteDocument id b.
Proof. apply filter_app. Qed.

Lemma addAll_map uploads : forall prev,
  addAll uploads prev =
  prev ++ map (fun u => newDocument (Upload.now u) (Upload.date u)
                          (Upload.title u) (Upload.content u)) uploads.
Proof.
  unfold addAll. induction uploads as [|u r IH]; intros prev; simpl.
  - rewrite app_nil_r. reflexivity.
  - rewrite IH. unfold addDocument. rewrite <- app_assoc. reflexivity.
Qed.

Lemma NoDup_map_inj {A B} (f : A -> B) l :
  (forall x y, f x = f y -> x = y) -> NoDup (map f l) <-> NoDup l.
Proof.
  intros Hinj. induction l as [|x r IH]; simpl.
  - split; constructor.
  - split; intros H; inversion H as [|? ? Hx Hr]; subst; constructor.
    + intros Hin. apply Hx. apply in_map. exact Hin.
    + apply IH. exact Hr.
    + intros Hin. apply in_map_iff in Hin as (y & Hy & Hin).
      apply Hinj in Hy. subst y. exact (Hx Hin).
    + apply IH. exact Hr.
Qed.

(** X10: the ids of the documents of a store filled by a series of uploads
    are the decimal numerals of the clock readings of the uploads, and they
    are pairwise distinct exactly when the readings are. *)
Theorem addAll_ids uploads :
  map Document.id (addAll uploads []) =
    map (fun u => toString (Upload.now u)) uploads /\
  (NoDup (map Document.id (addAll uploads [])) <->
   NoDup (map Upload.now uploads)).
Proof.
  assert (E : map Document.id (addAll uploads []) =
              map toString (map Upload.now uploads)).
  { rewrite addAll_map, app_nil_l, !map_map. reflexivity. }
  split.
  - rewrite E, map_map. reflexivity.
  - rewrite E. apply NoDup_map_inj. exact toString_inj.
Qed.

(** X11: deleting the id of a document just added, which no other
    document of the store has, gives the store of before the addition; and
    of two documents added at one clock reading, deleting the id of one
    deletes both. *)
Theorem addDocument_then_delete now date title content prev :
  ((forall doc, In doc prev -> Document.id doc <> toString now) ->
   deleteDocument (toString now) (addDocument now date title content prev)
     = prev) /\
  (forall date' title' content',
     deleteDocument (toString now)
       (addDocument now date' title' content'
          (addDocument now date title content prev))
     = deleteDocument (toString now) prev).
Proof.
  assert (Hnew : forall d t c,
            deleteDocument (toString now) [newDocument now d t c] = []).
  { intros d t c. unfold deleteDocument. cbn [filter newDocument Document.id].
    rewrite str_eqb_refl. reflexivity. }
  split.
  - intros Hfresh. unfold addDocument.
    rewrite deleteDocument_app, Hnew, app_nil_r.
    unfold deleteDocument. apply filter_all. intros doc Hdoc.
    rewrite str_eqb_neq; [reflexivity|]. apply Hfresh. exact Hdoc.
  - intros date' title' content'. unfold addDocument.
    rewrite !deleteDocument_app, !Hnew, !app_nil_r. reflexivity.
Qed.

Lemma addDocument_then_delete_witness :
  deleteDocument (toString 5) (addDocument 5 5 (lit "e") (lit "a bird") tiesStore)
    = tiesStore.
Proof.
  apply (addDocument_then_delete 5 5 (lit "e") (lit "a bird") tiesStore).
  intros doc Hdoc. vm_compute in Hdoc.
  destruct Hdoc as [<-|[<-|[<-|[<-|[]]]]]; vm_compute; discriminate.
Defined.

Lemma searchableChunks_sum documents : forall acc,
  fold_left (fun acc doc => acc + length (Document.chunks doc)) documents acc =
  acc + list_sum (map (fun doc => length (Document.chunks doc)) documents).
Proof.
  induction documents as [|d r IH]; intros acc; simpl; [lia|].
  rewrite IH. lia.
Qed.

Lemma Forall_filter {A} (Q : A -> Prop) (f : A -> bool) l :
  Forall Q l -> Forall Q (filter f l).
Proof.
  intros H. apply Forall_forall. intros x Hx. apply filter_In in Hx as [Hx _].
  exact (proj1 (Forall_forall _ _) H x Hx).
Qed.

(** X12: in every store the hook can hold, each document has the chunks
    [chunkText] gives for its content with the default arguments, at least
    one, the length of its content as its size and the numeral of a clock
    reading as its id; the number of chunks the header shows is at least the
    number of documents; and the chat is disabled exactly when the store is
    empty. *)
Theorem reachable_store documents :
  Reachable documents ->
  Forall documentOk documents /\
  length documents <= App.searchableChunks documents /\
  (App.chatDisabled documents = true <-> documents = []).
Proof.
  intros Hr.
  assert (Hok : Forall documentOk documents).
  { induction Hr as [|now date title content prev Hprev IH|id prev Hprev IH].
    - constructor.
    - unfold addDocument. apply Forall_app. split; [exact IH|].
      constructor; [|constructor]. unfold documentOk.
      cbn [newDocument Document.chunks Document.content Document.size Document.id].
      repeat split.
      + unfold chunkText.
        destruct (accumulate defaultChunkSize defaultOverlap content); discriminate.
      + exists now. reflexivity.
    - unfold deleteDocument. apply Forall_filter. exact IH. }
  split; [exact Hok|split].
  - unfold App.searchableChunks. rewrite searchableChunks_sum. simpl.
    clear Hr. induction Hok as [|d r (_ & Hne & _) _ IH]; simpl; [lia|].
    destruct (Document.chunks d); [congruence|]. simpl. lia.
  - unfold App.chatDisabled. rewrite Nat.eqb_eq. apply length_zero_iff_nil.
Qed.

Lemma reachable_store_witness :
  Forall documentOk tiesStore /\
  length tiesStore <= App.searchableChunks tiesStore /\
  (App.chatDisabled tiesStore = true <-> tiesStore = []).
Proof.
  apply reachable_store. unfold tiesStore. repeat constructor.
Defined.

(** ** The answer *)

Lemma noInformation_not_apology : noInformation <> apology.
Proof. vm_compute. discriminate. Qed.

(** The three responses begin differently from the two fixed messages. *)
Lemma response_not_fixed numberToString query source sources draw response :
  generateResponse numberToString query (source :: sources) draw
    = Resolved response ->
  response <> noInformation /\ response <> apology.
Proof.
  unfold generateResponse. cbn [length Nat.eqb nth_error].
  intros H. injection H as <-.
  destruct draw; split; intros E;
    apply (f_equal (firstn 3)) in E; vm_compute in E; discriminate.
Qed.

Lemma response_cases numberToString query sources draw :
  exists response,
    generateResponse numberToString query sources draw = Resolved response /\
    (response = noInformation <-> sources = []) /\
    response <> apology.
Proof.
  destruct sources as [|source sources].
  - exists noInformation. split; [reflexivity|split].
    + split; reflexivity.
    + exact noInformation_not_apology.
  - destruct (generateResponse numberToString query (source :: sources) draw)
      as [response|] eqn:E.
    + exists response. split; [reflexivity|].
      destruct (response_not_fixed _ _ _ _ _ _ E) as [H1 H2].
      split; [split; [intros H; contradiction|discriminate]|exact H2].
    + unfold generateResponse in E. cbn [length Nat.eqb nth_error] in E.
      discriminate.
Qed.

(** X13: the promise of [generateResponse] always resolves, so the error
    branch of [sendMessage] is never taken; the response is the message
    about missing information exactly when there is no source, and it is
    never the apology of the error branch. *)
Theorem generateResponse_resolves numberToString query sources draw :
  exists response,
    generateResponse numberToString query sources draw = Resolved response /\
    (response = noInformation <-> sources = []) /\
    response <> apology.
Proof. apply response_cases. Qed.

Lemma retrieve_default_length documents query :
  length (retrieveRelevantChunks documents query defaultTopK) <= 3.
Proof.
  rewrite retrieve_unfold, length_map, length_firstn.
  unfold relIndex, defaultTopK. cbn [Z.ltb Z.compare]. lia.
Qed.

(** X14: [sendMessage] leaves the documents as they are, appends the
    user's message and one message of the assistant, in this order, and
    ends with [isLoading] false.  The assistant's message is never the
    apology; it carries no sources exactly when nothing was retrieved,
    which is exactly when its text is the message about missing
    information, and otherwise it carries the sources retrieved, three at
    most.  The two messages have the same id exactly when the clock reads
    one millisecond less at the answer than at the question. *)
Theorem sendMessage_appends numberToString content clock draw st :
  exists answer,
    sendMessage numberToString content clock draw st =
      mkHook (documents st)
        (messages st ++
           [ChatMessage.mk (toString (nowSent clock)) content user
              (dateSent clock) None;
            answer])
        false /\
    ChatMessage.sender answer = assistant /\
    ChatMessage.id answer = toString (nowAnswered clock + 1) /\
    ChatMessage.content answer <> apology /\
    (ChatMessage.sources answer = None <->
     retrieveRelevantChunks (documents st) content defaultTopK = []) /\
    (ChatMessage.sources answer = None <->
     ChatMessage.content answer = noInformation) /\
    (forall sources, ChatMessage.sources answer = Some sources ->
       sources = retrieveRelevantChunks (documents st) content defaultTopK /\
       0 < length sources <= 3) /\
    (ChatMessage.id answer = toString (nowSent clock) <->
     (nowAnswered clock + 1 = nowSent clock)%Z).
Proof.
  exists (answerMessage numberToString content clock draw st).
  split.
  { unfold sendMessage, sendPending. cbn [documents messages].
    rewrite <- app_assoc. reflexivity. }
  unfold answerMessage.
  pose proof (retrieve_default_length (documents st) content) as Hlen.
  set (sources := retrieveRelevantChunks (documents st) content defaultTopK) in *.
  destruct (response_cases numberToString content sources draw)
    as (response & -> & Hno & Hap).
  cbn [ChatMessage.sender ChatMessage.id ChatMessage.content ChatMessage.sources].
  assert (Hsrc : (if 0 <? length sources then Some sources else None) = None
                 <-> sources = []).
  { destruct sources; simpl; split; congruence. }
  repeat split; try assumption.
  - apply Hsrc.
  - apply Hsrc.
  - intros H. apply Hno. apply Hsrc. exact H.
  - intros H. apply Hsrc. apply Hno. exact H.
  - destruct sources; simpl in H; congruence.
  - destruct sources; simpl in H; [discriminate|].
    injection H as <-. simpl. lia.
  - destruct sources; simpl in H; [discriminate|]. injection H as <-. exact Hlen.
  - apply toString_inj.
  - intros ->. reflexivity.
Qed.

(** X9: the chat form wired to the hook.  Nothing is sent while the
    store is empty or an answer is awaited, whatever the draft, and an
    answer is awaited from the moment the user's message is appended;
    otherwise a draft that is not blank is sent without the white space at
    its ends and the text area is cleared.  Whatever happens the documents
    stay as they are. *)
Theorem submit_sends numberToString clock draw message st :
  (documents st = [] \/ isLoading st = true \/ blank message = true ->
   App.submit numberToString clock draw message st = (st, message)) /\
  (forall content clock',
     App.submit numberToString clock draw message
       (sendPending content clock' st) =
     (sendPending content clock' st, message)) /\
  (documents st <> [] -> isLoading st = false -> blank message = false ->
   App.submit numberToString clock draw message st =
     (sendMessage numberToString (trim message) clock draw st, [])) /\
  documents (fst (App.submit numberToString clock draw message st)) =
    documents st.
Proof.
  assert (H : forall s, documents s = [] \/ isLoading s = true \/
                        blank message = true ->
              App.submit numberToString clock draw message s = (s, message)).
  { intros s Hs. unfold App.submit, ChatInput.handleSubmit, App.chatInputProps.
    cbn [ChatInput.isLoading ChatInput.disabled]. unfold App.chatDisabled.
    rewrite truthy_trim.
    destruct Hs as [Hs|[Hs|Hs]]; rewrite Hs; cbn [length Nat.eqb negb andb];
      rewrite ?andb_false_r; reflexivity. }
  assert (Hsend : documents st <> [] -> isLoading st = false ->
            blank message = false ->
            App.submit numberToString clock draw message st =
              (sendMessage numberToString (trim message) clock draw st, [])).
  { intros Hd Hl Hb.
    unfold App.submit, ChatInput.handleSubmit, App.chatInputProps.
    cbn [ChatInput.isLoading ChatInput.disabled]. unfold App.chatDisabled.
    rewrite truthy_trim, Hl, Hb.
    destruct (documents st); [congruence|]. reflexivity. }
  split; [apply H|split; [|split; [exact Hsend|]]].
  - intros content clock'. apply H. right. left. reflexivity.
  - destruct (documents st) as [|d r] eqn:Hd.
    { rewrite H by (left; exact Hd). exact Hd. }
    destruct (isLoading st) eqn:Hl.
    { rewrite H by (right; left; exact Hl). exact Hd. }
    destruct (blank message) eqn:Hb.
    { rewrite H by (right; right; reflexivity). exact Hd. }
    rewrite Hsend; [exact Hd|discriminate|reflexivity|reflexivity].
Qed.

Lemma submit_sends_witness :
  App.submit (fun _ => lit "100") (mkClock 7 7 9 9) draw0 (lit " the cat sat ")
    (mkHook tiesStore [] false) =
  (sendMessage (fun _ => lit "100") (lit "the cat sat") (mkClock 7 7 9 9) draw0
     (mkHook tiesStore [] false),
   []).
Proof.
  apply (proj1 (proj2 (proj2
           (submit_sends (fun _ => lit "100") (mkClock 7 7 9 9) draw0
              (lit " the cat sat ") (mkHook tiesStore [] false))))).
  - vm_compute. discriminate.
  - reflexivity.
  - vm_compute. reflexivity.
Defined.

(** ** More about the retriever *)

Lemma retrieve_In documents query topK source :
  In source (retrieveRelevantChunks documents query topK) ->
  exists c, In c (scanOrder documents query) /\ source = toSource c.
Proof.
  rewrite retrieve_unfold. intros H.
  apply in_map_iff in H as (c & <- & Hc).
  exists c. split; [|reflexivity].
  apply firstn_In in Hc.
  apply (Permutation_in _ (Permutation_sym (sort_perm byScoreDesc _))) in Hc.
  exact Hc.
Qed.

(** X15: every source returned is a chunk of a document of the store,
    under the title of that document, with the score of the query against
    the chunk as its relevance. *)
Theorem retrieve_sound documents query topK source :
  In source (retrieveRelevantChunks documents query topK) ->
  exists doc chunk,
    In doc documents /\ In chunk (Document.chunks doc) /\
    source = Source.mk (Document.title doc) chunk
               (calculateSimilarity query chunk).
Proof.
  intros H. apply retrieve_In in H as (c & Hc & ->).
  apply scanOrder_In in Hc as (doc & chunk & Hd & Hch & _ & ->).
  exists doc, chunk. repeat split; assumption.
Qed.

Lemma retrieve_sound_witness :
  exists doc chunk,
    In doc tiesStore /\ In chunk (Document.chunks doc) /\
    Source.mk (lit "a") (lit "the cat sat")
      (calculateSimilarity (lit "the cat sat") (lit "the cat sat")) =
    Source.mk (Document.title doc) chunk
      (calculateSimilarity (lit "the cat sat") chunk).
Proof.
  apply (retrieve_sound tiesStore (lit "the cat sat") defaultTopK).
  vm_compute. left. reflexivity.
Defined.

Lemma sorted_firstn_skipn {A} (R : A -> A -> Prop) n : forall l x y,
  StronglySorted R l -> In x (firstn n l) -> In y (skipn n l) -> R x y.
Proof.
  induction n as [|n IH]; intros l x y Hs Hx Hy; [contradiction|].
  destruct Hs as [|z r Hr Hz]; [contradiction|].
  simpl in Hx, Hy. destruct Hx as [<-|Hx].
  - apply (proj1 (Forall_forall _ _) Hz).
    rewrite <- (firstn_skipn n r). apply in_or_app. right. exact Hy.
  - apply (IH r); assumption.
Qed.

(** X16: the sources returned are the best candidates.  The candidates
    are the sources returned together with the candidates left out, and no
    candidate left out has a higher relevance than a source returned; when
    there are at most [topK] candidates none is left out. *)
Theorem retrieve_best documents query topK :
  exists dropped,
    Permutation (map toSource (scanOrder documents query))
      (retrieveRelevantChunks documents query topK ++ dropped) /\
    (forall kept d,
       In kept (retrieveRelevantChunks documents query topK) ->
       In d dropped ->
       Num.leb (Source.relevance d) (Source.relevance kept) = true) /\
    ((Z.of_nat (length (scanOrder documents query)) <= topK)%Z ->
     dropped = []).
Proof.
  rewrite retrieve_unfold.
  set (n := Z.to_nat (relIndex (Z.of_nat (length (scanOrder documents query))) topK)).
  set (sorted := sort byScoreDesc (scanOrder documents query)).
  exists (map toSource (skipn n sorted)). split; [|split].
  - rewrite <- map_app, firstn_skipn. apply Permutation_map.
    apply sort_perm.
  - intros kept d Hk Hd.
    apply in_map_iff in Hk as (a & <- & Ha).
    apply in_map_iff in Hd as (b & <- & Hb).
    cbn [toSource Source.relevance].
    pose proof (sorted_candidates_ok documents query) as Hok.
    fold sorted in Hok.
    assert (Hoa : scoreOk a).
    { apply (proj1 (Forall_forall _ _) Hok). eapply firstn_In. exact Ha. }
    assert (Hob : scoreOk b).
    { apply (proj1 (Forall_forall _ _) Hok).
      rewrite <- (firstn_skipn n sorted). apply in_or_app. right. exact Hb. }
    apply NumFacts.leb_units; try assumption.
    apply (sorted_firstn_skipn (keyDescending scoreUnits) n sorted a b);
      try assumption.
    apply (sort_sorted byScoreDesc scoreUnits scoreOk byScoreDesc_key).
    apply scanOrder_ok.
  - intros Hk. rewrite skipn_all2; [reflexivity|].
    unfold sorted.
    rewrite <- (Permutation_length (sort_perm byScoreDesc (scanOrder documents query))).
    unfold n, relIndex. destruct (topK <? 0)%Z eqn:E; lia.
Qed.

(** ** More about the scorer *)

Lemma filter_none {A} (f : A -> bool) l :
  (forall x, In x l -> f x = false) -> filter f l = [].
Proof.
  induction l as [|x r IH]; intros H; simpl; [reflexivity|].
  rewrite (H x (or_introl eq_refl)). apply IH.
  intros y Hy. apply H. right. exact Hy.
Qed.

Lemma unrelated_score_cases query text :
  intersectionOf query text = [] ->
  (forall phrase, In phrase (queryPhrases query) ->
     includes (toLowerCase text) phrase = false) ->
  calculateSimilarity query text = Num.zero \/
  calculateSimilarity query text = S754_nan.
Proof.
  intros Hi Hp. unfold calculateSimilarity, jaccard, phraseBoost.
  rewrite Hi, fold_boostStep, (filter_none _ _ Hp).
  cbn [length addBoosts Nat.iter].
  destruct (length (unionOf query text)) as [|n] eqn:En.
  - right. reflexivity.
  - left.
    destruct (ScoreFacts.ofNat_pos_cases (S n) ltac:(lia))
      as [->|(m & e & ->)]; reflexivity.
Qed.

(** X17: a chunk that has no token in common with the query and contains
    none of the phrases of the query scores 0, or NaN when neither has a
    token, and no retrieval returns it, whatever the store and [topK]. *)
Theorem unrelated_chunk_not_retrieved query text :
  intersectionOf query text = [] ->
  (forall phrase, In phrase (queryPhrases query) ->
     includes (toLowerCase text) phrase = false) ->
  (calculateSimilarity query text = Num.zero \/
   calculateSimilarity query text = S754_nan) /\
  forall documents topK,
    ~ In text (map Source.content (retrieveRelevantChunks documents query topK)).
Proof.
  intros Hi Hp.
  pose proof (unrelated_score_cases query text Hi Hp) as Hs.
  split; [exact Hs|].
  intros documents topK Hin.
  apply in_map_iff in Hin as (source & <- & Hin).
  apply retrieve_In in Hin as (c & Hc & ->).
  apply scanOrder_In in Hc as (doc & chunk & _ & _ & Habove & ->).
  cbn [toSource Source.content Candidate.chunk] in Hs.
  destruct Hs as [Hs|Hs]; rewrite Hs in Habove; discriminate.
Qed.

Lemma unrelated_chunk_not_retrieved_witness :
  ~ In (lit "A bird flew away")
      (map Source.content
         (retrieveRelevantChunks tiesStore scenarioQuery defaultTopK)).
Proof.
  apply (unrelated_chunk_not_retrieved scenarioQuery (lit "A bird flew away")).
  - vm_compute. reflexivity.
  - intros phrase H. vm_compute in H.
    destruct H as [<-|[<-|[]]]; vm_compute; reflexivity.
Defined.

Lemma toLowerChar_idempotent c : toLowerChar (toLowerChar c) = toLowerChar c.
Proof. destruct c as [[] [] [] [] [] [] [] []]; reflexivity. Qed.

Lemma toLowerCase_idempotent s : toLowerCase (toLowerCase s) = toLowerCase s.
Proof.
  unfold toLowerCase. rewrite map_map. apply map_ext.
  intros c. apply toLowerChar_idempotent.
Qed.

(** X18: the score does not depend on the case of the letters: two
    queries that differ in case only, against two chunks that differ in
    case only, score the same; in particular lowering the case of both
    changes nothing. *)
Theorem calculateSimilarity_ignores_case query query' text text' :
  toLowerCase query = toLowerCase query' ->
  toLowerCase text = toLowerCase text' ->
  calculateSimilarity query text = calculateSimilarity query' text' /\
  calculateSimilarity (toLowerCase query) (toLowerCase text) =
    calculateSimilarity query text.
Proof.
  assert (H : forall q q' t t', toLowerCase q = toLowerCase q' ->
            toLowerCase t = toLowerCase t' ->
            calculateSimilarity q t = calculateSimilarity q' t').
  { intros q q' t t' Hq Ht.
    unfold calculateSimilarity, jaccard, phraseBoost, intersectionOf, unionOf,
      queryPhrases, wordsOf.
    unfold boostStep. rewrite !Hq, !Ht. reflexivity. }
  intros Hq Ht. split; [apply H; assumption|].
  apply H; apply toLowerCase_idempotent.
Qed.

Lemma calculateSimilarity_ignores_case_witness :
  calculateSimilarity (lit "The CAT sat") (lit "A Cat Sat Here") =
    calculateSimilarity (lit "the cat SAT") (lit "a cat sat here") /\
  calculateSimilarity (toLowerCase (lit "The CAT sat"))
      (toLowerCase (lit "A Cat Sat Here")) =
    calculateSimilarity (lit "The CAT sat") (lit "A Cat Sat Here").
Proof.
  apply calculateSimilarity_ignores_case; vm_compute; reflexivity.
Defined.

(** ** More about the chunker *)

Lemma startsWith_spec p : forall s,
  startsWith p s = true <-> exists b, s = p ++ b.
Proof.
  induction p as [|a p IH]; intros s.
  - destruct s; simpl; (split; [intros _; eexists; reflexivity|reflexivity]).
  - destruct s as [|c s]; simpl.
    + split; [discriminate|intros [b Hb]; discriminate].
    + rewrite andb_true_iff, Ascii.eqb_eq, IH. split.
      * intros [-> [b ->]]. exists b. reflexivity.
      * intros [b Hb]. injection Hb as -> ->. split; [reflexivity|].
        exists b. reflexivity.
Qed.

(** [s.includes(p)] is true exactly when [p] occurs in [s]. *)
Lemma includes_spec p : forall s, includes s p = true <-> occursIn p s.
Proof.
  unfold occursIn. induction s as [|c s IH]; simpl.
  - rewrite orb_false_r, startsWith_spec. split.
    + intros [b Hb]. exists [], b. exact Hb.
    + intros (a & b & H). destruct a; [exists b; exact H|discriminate].
  - rewrite orb_true_iff, startsWith_spec, IH. split.
    + intros [[b Hb]|(a & b & Hab)].
      * exists [], b. exact Hb.
      * exists (c :: a), b. simpl. f_equal. exact Hab.
    + intros (a & b & H). destruct a as [|x a].
      * left. exists b. exact H.
      * right. injection H as _ H. exists a, b. exact H.
Qed.

Lemma trimStart_keeps m b c r : m = c :: r -> isWhiteSpace c = false ->
  forall a, exists a', trimStart (a ++ m ++ b) = a' ++ m ++ b.
Proof.
  intros -> Hc. induction a as [|x a IH].
  - exists []. simpl. rewrite Hc. reflexivity.
  - simpl. destruct (isWhiteSpace x).
    + exact IH.
    + exists (x :: a). reflexivity.
Qed.

Lemma trim_keeps m s c d :
  hd_error m = Some c -> hd_error (rev m) = Some d ->
  isWhiteSpace c = false -> isWhiteSpace d = false ->
  occursIn m s -> occursIn m (trim s).
Proof.
  intros Hc Hd Wc Wd (a & b & ->). unfold trim, trimEnd.
  destruct m as [|c' r]; [discriminate|]. injection Hc as ->.
  destruct (trimStart_keeps (c :: r) b c r eq_refl Wc a) as [a' ->].
  rewrite !rev_app_distr, <- app_assoc.
  destruct (rev (c :: r)) as [|d' r'] eqn:Er; [discriminate|].
  injection Hd as ->.
  destruct (trimStart_keeps (d :: r') (rev a') d r' eq_refl Wd (rev b)) as [b' ->].
  exists a', (rev b').
  rewrite !rev_app_distr, rev_involutive, <- Er, rev_involutive, <- app_assoc.
  reflexivity.
Qed.

(** A sentence that occurs in the buffer occurs, without the white space
    at its ends, in the chunk made of the buffer. *)
Lemma trim_occurs s cur :
  blank s = false -> occursIn s cur -> occursIn (trim s) (trim cur).
Proof.
  intros Hs (a & b & ->).
  destruct (trim_ends s (trim_inked s Hs)) as (c & d & Hc & Hd & Wc & Wd).
  apply (trim_keeps (trim s) _ c d Hc Hd Wc Wd).
  destruct (trim_spec s) as (p & q & Hpq & _ & _).
  exists (a ++ p), (q ++ b). rewrite Hpq at 1.
  rewrite <- !app_assoc. reflexivity.
Qed.

Lemma chunkStep_kept chunkSize overlap st sentence :
  kept (chunkStep chunkSize overlap st sentence) sentence /\
  forall s, blank s = false -> kept st s ->
            kept (chunkStep chunkSize overlap st sentence) s.
Proof.
  unfold chunkStep.
  destruct ((Z.of_nat (length (currentChunk st)) + Z.of_nat (length sentence)
             >? chunkSize)%Z && (0 <? length (currentChunk st))).
  - split.
    + right. cbn [currentChunk].
      exists (join (lit " ")
                (sliceFrom (splitChar " " (currentChunk st)) (overlapStart overlap))
              ++ lit " "), [].
      rewrite app_nil_r, <- app_assoc. reflexivity.
    + intros s Hs [(c & Hc & Ho)|Ho]; left; cbn [chunks].
      * exists c. split; [apply in_or_app; left; exact Hc|exact Ho].
      * exists (trim (currentChunk st)). split.
        -- apply in_or_app. right. left. reflexivity.
        -- apply trim_occurs; assumption.
  - split.
    + right. cbn [currentChunk].
      exists (currentChunk st
              ++ match currentChunk st with [] => [] | _ :: _ => lit ". " end), [].
      rewrite app_nil_r, <- app_assoc. reflexivity.
    + intros s Hs [(c & Hc & Ho)|(a & b & Ho)].
      * left. exists c. split; assumption.
      * right. cbn [currentChunk]. rewrite Ho.
        exists a, (b ++ match a ++ s ++ b with [] => [] | _ :: _ => lit ". " end
                     ++ sentence).
        rewrite <- !app_assoc. reflexivity.
Qed.

Lemma fold_chunkStep_kept chunkSize overlap sentences : forall st s,
  blank s = false -> kept st s \/ In s sentences ->
  kept (fold_left (chunkStep chunkSize overlap) sentences st) s.
Proof.
  induction sentences as [|x r IH]; intros st s Hs H; simpl.
  - destruct H as [H|[]]. exact H.
  - destruct (chunkStep_kept chunkSize overlap st x) as [Hx Hold].
    destruct H as [H|[->|H]].
    + apply IH; [exact Hs|left; apply Hold; assumption].
    + apply IH; [exact Hs|left; exact Hx].
    + apply IH; [exact Hs|right; exact H].
Qed.

Lemma occursIn_inked s cur : blank s = false -> occursIn s cur -> blank cur = false.
Proof.
  intros Hs (a & b & ->). rewrite !blank_app, Hs, andb_false_r. reflexivity.
Qed.

Lemma accumulate_keeps chunkSize overlap text s :
  In s (sentencesOf text) ->
  exists c, In c (accumulate chunkSize overlap text) /\ occursIn (trim s) c.
Proof.
  intros Hin. pose proof (sentencesOf_inked text s Hin) as Hs.
  pose proof (fold_chunkStep_kept chunkSize overlap (sentencesOf text)
                (mkChunkState [] []) s Hs (or_intror Hin)) as Hk.
  unfold accumulate.
  set (st := fold_left (chunkStep chunkSize overlap) (sentencesOf text)
               (mkChunkState [] [])) in *.
  destruct Hk as [(c & Hc & Ho)|Ho].
  - exists c. split; [|exact Ho].
    destruct (trim (currentChunk st)); [exact Hc|].
    apply in_or_app. left. exact Hc.
  - pose proof (trim_occurs s _ Hs Ho) as Ht.
    pose proof (trim_inked _ (occursIn_inked _ _ Hs Ho)) as Hne.
    exists (trim (currentChunk st)). split; [|exact Ht].
    destruct (trim (currentChunk st)) as [|y t]; [congruence|].
    apply in_or_app. right. left. reflexivity.
Qed.

(** X19: no sentence is lost.  Every sentence of the text, that is every
    piece between runs of [.], [!] and [?] that is not blank, occurs
    without the white space at its ends in one of the chunks, whatever the
    chunk size and the overlap. *)
Theorem chunkText_keeps_sentences text chunkSize overlap sentence :
  In sentence (sentencesOf text) ->
  exists chunk,
    In chunk (chunkText text chunkSize overlap) /\
    includes chunk (trim sentence) = true.
Proof.
  intros Hin.
  destruct (accumulate_keeps chunkSize overlap text sentence Hin)
    as (c & Hc & Ho).
  exists c. split; [|apply includes_spec; exact Ho].
  unfold chunkText.
  destruct (accumulate chunkSize overlap text); [contradiction|exact Hc].
Qed.

Lemma chunkText_keeps_sentences_witness :
  exists chunk,
    In chunk (chunkText scenarioDocument 30 50) /\
    includes chunk (trim (lit " The dog ran fast")) = true.
Proof.
  apply (chunkText_keeps_sentences scenarioDocument 30 50 (lit " The dog ran fast")).
  vm_compute. right. left. reflexivity.
Defined.

Lemma pending_le st : pending st <= 1.
Proof. unfold pending. destruct (currentChunk st); lia. Qed.

Lemma chunkStep_count chunkSize overlap st sentence :
  blank sentence = false ->
  Forall (fun c => trim c = c) (chunks st) ->
  Forall (fun c => trim c = c) (chunks (chunkStep chunkSize overlap st sentence)) /\
  length (chunks (chunkStep chunkSize overlap st sentence))
    + pending (chunkStep chunkSize overlap st sentence)
  <= length (chunks st) + pending st + 1.
Proof.
  intros Hs Htrim.
  pose proof (pending_le (chunkStep chunkSize overlap st sentence)) as Hp.
  revert Hp. unfold chunkStep.
  destruct ((Z.of_nat (length (currentChunk st)) + Z.of_nat (length sentence)
             >? chunkSize)%Z && (0 <? length (currentChunk st))) eqn:E;
    intros Hp.
  - apply andb_true_iff in E as [_ E]. apply Nat.ltb_lt in E.
    cbn [chunks]. split.
    + apply Forall_app. split; [exact Htrim|].
      constructor; [apply trim_idempotent|constructor].
    + rewrite length_app. simpl length.
      assert (pending st = 1).
      { unfold pending. destruct (currentChunk st); [simpl in E; lia|reflexivity]. }
      lia.
  - cbn [chunks]. split; [exact Htrim|]. lia.
Qed.

Lemma fold_chunkStep_count chunkSize overlap sentences : forall st,
  Forall (fun s => blank s = false) sentences ->
  Forall (fun c => trim c = c) (chunks st) ->
  Forall (fun c => trim c = c)
    (chunks (fold_left (chunkStep chunkSize overlap) sentences st)) /\
  length (chunks (fold_left (chunkStep chunkSize overlap) sentences st))
    + pending (fold_left (chunkStep chunkSize overlap) sentences st)
  <= length (chunks st) + pending st + length sentences.
Proof.
  induction sentences as [|x r IH]; intros st Hall Htrim; simpl.
  - split; [exact Htrim|lia].
  - inversion Hall as [|? ? Hx Hr]; subst.
    destruct (chunkStep_count chunkSize overlap st x Hx Htrim) as [Ht Hc].
    destruct (IH _ Hr Ht) as [Ht' Hc']. split; [exact Ht'|lia].
Qed.

Lemma accumulate_shape chunkSize overlap text :
  Forall (fun c => trim c = c) (accumulate chunkSize overlap text) /\
  length (accumulate chunkSize overlap text) <= length (sentencesOf text) /\
  (accumulate chunkSize overlap text = [] <-> sentencesOf text = []).
Proof.
  assert (Hall : Forall (fun s => blank s = false) (sentencesOf text)).
  { apply Forall_forall. intros s. apply sentencesOf_inked. }
  destruct (fold_chunkStep_count chunkSize overlap (sentencesOf text)
              (mkChunkState [] []) Hall (Forall_nil _)) as [Ht Hc].
  cbn [chunks pending currentChunk length] in Hc.
  split; [|split].
  - unfold accumulate.
    destruct (trim (currentChunk _)) as [|y t] eqn:E; [exact Ht|].
    apply Forall_app. split; [exact Ht|].
    constructor; [rewrite <- E; apply trim_idempotent|constructor].
  - unfold accumulate. unfold pending in Hc.
    destruct (currentChunk _) as [|y t] eqn:E.
    + simpl. lia.
    + destruct (trim (y :: t)); [lia|]. rewrite length_app. simpl. lia.
  - split.
    + intros Hnil. destruct (sentencesOf text) as [|s r] eqn:Es; [reflexivity|].
      destruct (accumulate_keeps chunkSize overlap text s) as (c & Hin & _).
      { rewrite Es. left. reflexivity. }
      rewrite Hnil in Hin. contradiction.
    + intros Hnil. unfold accumulate. rewrite Hnil. reflexivity.
Qed.

Lemma splitRuns_cons sep s : forall inRun, splitRuns sep inRun s <> [].
Proof.
  induction s as [|c r IH]; intros inRun; simpl; [discriminate|].
  destruct (sep c).
  - destruct inRun; [apply IH|discriminate].
  - destruct (splitRuns sep false r); discriminate.
Qed.

Lemma splitRuns_blank sep s : forall inRun,
  forallb blank (splitRuns sep inRun s) =
  forallb (fun c => isWhiteSpace c || sep c) s.
Proof.
  induction s as [|c r IH]; intros inRun; simpl; [reflexivity|].
  destruct (sep c) eqn:E.
  - rewrite orb_true_r. simpl. destruct inRun; simpl; apply IH.
  - rewrite orb_false_r. rewrite <- (IH false).
    pose proof (splitRuns_cons sep r false) as Hne.
    destruct (splitRuns sep false r) as [|p ps]; [congruence|].
    simpl. rewrite andb_assoc. reflexivity.
Qed.

Lemma sentencesOf_nil text :
  sentencesOf text = [] <->
  forallb (fun c => isWhiteSpace c || isSentenceEnd c) text = true.
Proof.
  unfold sentencesOf, splitRegex. rewrite <- (splitRuns_blank _ _ false).
  generalize (splitRuns isSentenceEnd false text) as l.
  induction l as [|x r IH]; simpl; [tauto|].
  destruct (blank x) eqn:E.
  - pose proof (proj2 (trim_nil x) E) as Ht. rewrite Ht. simpl. exact IH.
  - pose proof (trim_inked x E) as Ht.
    destruct (trim x); [congruence|]. simpl. split; discriminate.
Qed.

(** X20: the shape of the result.  When the text has a sentence, the
    chunks are not empty, neither start nor end with white space, and are at
    most as many as the sentences; the text itself is returned as the only
    chunk exactly in the other case, when it has nothing but white space and
    [.], [!] and [?]. *)
Theorem chunkText_shape text chunkSize overlap :
  (sentencesOf text <> [] ->
   Forall (fun c => c <> [] /\ trim c = c) (chunkText text chunkSize overlap) /\
   length (chunkText text chunkSize overlap) <= length (sentencesOf text)) /\
  (sentencesOf text = [] -> chunkText text chunkSize overlap = [text]) /\
  (sentencesOf text = [] <->
   forallb (fun c => isWhiteSpace c || isSentenceEnd c) text = true).
Proof.
  destruct (accumulate_shape chunkSize overlap text) as (Ht & Hc & Hnil).
  pose proof (accumulate_nonempty_chunks chunkSize overlap text) as Hne.
  split; [|split].
  - intros Hs. unfold chunkText.
    destruct (accumulate chunkSize overlap text) as [|c cs] eqn:E.
    + exfalso. apply Hs. apply Hnil. reflexivity.
    + split; [|exact Hc].
      apply Forall_forall. intros x Hx. split.
      * exact (proj1 (Forall_forall _ _) Hne x Hx).
      * exact (proj1 (Forall_forall _ _) Ht x Hx).
  - intros Hs. unfold chunkText. rewrite (proj2 Hnil Hs). reflexivity.
  - apply sentencesOf_nil.
Qed.







Example chunk_fits :
  chunkText (lit " Hi there!  Is it you?No...") defaultChunkSize defaultOverlap =
  [lit "Hi there.   Is it you. No"].
Proof. vm_compute. reflexivity. Qed.



(** ** Sets of tokens *)

Lemma has_In s w : has s w = true <-> In w s.
Proof.
  unfold has. rewrite existsb_exists. split.
  - intros (x & Hx & E). unfold str_eqb in E.
    destruct (str_eq_dec w x); [subst; exact Hx|discriminate].
  - intros H. exists w. split; [exact H|apply str_eqb_refl].
Qed.

Lemma fold_setAdd_set l : forall acc,
  NoDup acc ->
  NoDup (fold_left setAdd l acc) /\
  forall w, In w (fold_left setAdd l acc) <-> In w acc \/ In w l.
Proof.
  induction l as [|x r IH]; intros acc Hnd; simpl.
  - split; [exact Hnd|]. intros w. tauto.
  - assert (Hx : NoDup (setAdd acc x) /\
                 forall w, In w (setAdd acc x) <-> In w acc \/ x = w).
    { unfold setAdd. destruct (has acc x) eqn:E.
      - apply has_In in E. split; [exact Hnd|].
        intros w. split; [tauto|]. intros [H|<-]; assumption.
      - split.
        + apply NoDup_app; [exact Hnd|constructor; [intros []|constructor]|].
          intros a Ha [<-|[]]. apply has_In in Ha. congruence.
        + intros w. rewrite in_app_iff. simpl. tauto. }
    destruct Hx as [Hnd' Hin'].
    destruct (IH _ Hnd') as [Hn Hi]. split; [exact Hn|].
    intros w. rewrite Hi, Hin'. tauto.
Qed.

(** [new Set(l)] has the elements of [l], each once. *)
Lemma newSet_set l : NoDup (newSet l) /\ forall w, In w (newSet l) <-> In w l.
Proof.
  destruct (fold_setAdd_set l [] (NoDup_nil _)) as [Hn Hi].
  split; [exact Hn|]. intros w. unfold newSet. rewrite Hi. simpl. tauto.
Qed.

Lemma same_elements_length (a b : list str) :
  NoDup a -> NoDup b -> (forall w, In w a <-> In w b) -> length a = length b.
Proof.
  intros Ha Hb H. apply Permutation_length.
  apply NoDup_Permutation; assumption.
Qed.

(** X22: the Jaccard part of the score is symmetric and depends on the sets
    of tokens only, not on their order or their number of occurrences; what
    depends on which string is the query is the phrase boost. *)
Theorem jaccard_symmetric query text :
  jaccard query text = jaccard text query /\
  forall query' text',
    (forall w, In w (wordsOf query) <-> In w (wordsOf query')) ->
    (forall w, In w (wordsOf text) <-> In w (wordsOf text')) ->
    jaccard query text = jaccard query' text'.
Proof.
  assert (Hi : forall q t w, In w (intersectionOf q t) <->
                              In w (wordsOf q) /\ In w (wordsOf t)).
  { intros q t w. unfold intersectionOf.
    rewrite (proj2 (newSet_set _)), filter_In, has_In,
      !(proj2 (newSet_set _)). tauto. }
  assert (Hu : forall q t w, In w (unionOf q t) <->
                              In w (wordsOf q) \/ In w (wordsOf t)).
  { intros q t w. unfold unionOf.
    rewrite (proj2 (newSet_set _)), in_app_iff, !(proj2 (newSet_set _)). tauto. }
  assert (Hnd : forall q t, NoDup (intersectionOf q t) /\ NoDup (unionOf q t)).
  { intros q t. split; apply newSet_set. }
  assert (H : forall q t q' t',
            (forall w, In w (wordsOf q) <-> In w (wordsOf q')) ->
            (forall w, In w (wordsOf t) <-> In w (wordsOf t')) ->
            jaccard q t = jaccard q' t').
  { intros q t q' t' Hq Ht. unfold jaccard. f_equal; f_equal.
    - apply same_elements_length; try apply Hnd.
      intros w. rewrite !Hi, Hq, Ht. tauto.
    - apply same_elements_length; try apply Hnd.
      intros w. rewrite !Hu, Hq, Ht. tauto. }
  split; [|intros query' text'; apply H].
  unfold jaccard. f_equal; f_equal.
  - apply same_elements_length; try apply Hnd. intros w. rewrite !Hi. tauto.
  - apply same_elements_length; try apply Hnd. intros w. rewrite !Hu. tauto.
Qed.

Example jaccard_of_repeated_tokens :
  jaccard (lit "cat dog cat") (lit "dog bird") =
  jaccard (lit "bird, dog!") (lit "dog dog cat").
Proof. vm_compute. reflexivity. Qed.

Lemma firstn_prefix {A} (l : list A) : forall n m,
  n <= m -> prefixOf (firstn n l) (firstn m l).
Proof.
  induction l as [|x r IH]; intros n m Hnm.
  - rewrite !firstn_nil. exists []. reflexivity.
  - destruct n as [|n]; [exists (firstn m (x :: r)); reflexivity|].
    destruct m as [|m]; [lia|].
    destruct (IH n m ltac:(lia)) as [rest E].
    exists rest. simpl. rewrite E. reflexivity.
Qed.

(** X23: asking for more sources only adds sources after those of the
    smaller request. *)
Theorem retrieve_prefix documents query topK topK' :
  (0 <= topK <= topK')%Z ->
  prefixOf (retrieveRelevantChunks documents query topK)
           (retrieveRelevantChunks documents query topK').
Proof.
  intros Hk. rewrite !retrieve_unfold.
  set (len := Z.of_nat (length (scanOrder documents query))).
  destruct (firstn_prefix (sort byScoreDesc (scanOrder documents query))
              (Z.to_nat (relIndex len topK)) (Z.to_nat (relIndex len topK')))
    as [rest E].
  { unfold relIndex.
    destruct (topK <? 0)%Z eqn:E1; destruct (topK' <? 0)%Z eqn:E2; lia. }
  exists (map toSource rest). rewrite E, map_app. reflexivity.
Qed.

Lemma retrieve_prefix_witness :
  prefixOf (retrieveRelevantChunks tiesStore (lit "the cat sat") 1)
           (retrieveRelevantChunks tiesStore (lit "the cat sat") 3).
Proof. apply retrieve_prefix. lia. Defined.

Example round_examples :
  map Num.round
    [Num.div (Num.ofZ 1) (Num.ofZ 2); Num.div (Num.ofZ (-1)) (Num.ofZ 2);
     Num.div (Num.ofZ 5) (Num.ofZ 2); Num.div (Num.ofZ (-5)) (Num.ofZ 2);
     Num.div (Num.ofZ (-3)) (Num.ofZ 4); Num.mul Num.lit_0_3 (Num.ofZ 100)] =
  [Num.ofZ 1; S754_zero true; Num.ofZ 3; Num.ofZ (-2); Num.ofZ (-1);
   Num.ofZ 30].
Proof. vm_compute. reflexivity. Qed.


(** ** The overlap of the chunker *)

Lemma splitChar_cons d s : splitChar d s <> [].
Proof.
  destruct s as [|c r]; simpl; [discriminate|].
  destruct (Ascii.eqb c d); [discriminate|].
  destruct (splitChar d r); discriminate.
Qed.

Lemma join_cons d x l : l <> [] -> join d (x :: l) = x ++ d ++ join d l.
Proof. destruct l; [congruence|reflexivity]. Qed.

(** Splitting at a character and joining with it gives the string back. *)
Lemma join_splitChar d s : join [d] (splitChar d s) = s.
Proof.
  induction s as [|c r IH]; simpl; [reflexivity|].
  pose proof (splitChar_cons d r) as Hne.
  destruct (Ascii.eqb_spec c d) as [->|Hcd].
  - rewrite join_cons by exact Hne. rewrite IH. reflexivity.
  - destruct (splitChar d r) as [|p ps]; [congruence|].
    destruct ps as [|q qs].
    + simpl in *. rewrite IH. reflexivity.
    + rewrite join_cons by discriminate. rewrite join_cons in IH by discriminate.
      rewrite <- app_comm_cons. f_equal. exact IH.
Qed.

Lemma splitChar_pieces d s :
  Forall (fun p => count_occ ascii_dec p d = 0) (splitChar d s).
Proof.
  induction s as [|c r IH]; simpl.
  - constructor; [reflexivity|constructor].
  - pose proof (splitChar_cons d r) as Hne.
    destruct (Ascii.eqb_spec c d) as [->|Hcd].
    + constructor; [reflexivity|exact IH].
    + destruct (splitChar d r) as [|p ps]; [congruence|].
      inversion IH as [|? ? Hp Hps]; subst.
      constructor; [|exact Hps].
      simpl. destruct (ascii_dec c d); [congruence|exact Hp].
Qed.

Lemma join_count d l :
  Forall (fun p => count_occ ascii_dec p d = 0) l ->
  count_occ ascii_dec (join [d] l) d = length l - 1.
Proof.
  induction 1 as [|p ps Hp Hps IH]; [reflexivity|].
  destruct ps as [|q qs].
  - simpl. rewrite Hp. reflexivity.
  - change (join [d] (p :: q :: qs)) with (p ++ [d] ++ join [d] (q :: qs)).
    rewrite !count_occ_app, Hp, IH. simpl.
    destruct (ascii_dec d d); [lia|congruence].
Qed.

(** What follows the [k]-th separator is the join of the pieces from the
    [k]-th on. *)
Lemma join_skipn d : forall k l,
  0 < k < length l ->
  exists dropped, join [d] l = (dropped ++ [d]) ++ join [d] (skipn k l).
Proof.
  induction k as [|k IH]; intros l Hk; [lia|].
  destruct l as [|p ps]; [simpl in Hk; lia|].
  destruct ps as [|q qs]; [simpl in Hk; lia|].
  change (join [d] (p :: q :: qs)) with (p ++ [d] ++ join [d] (q :: qs)).
  destruct k as [|k].
  - exists p. cbn [skipn]. rewrite <- app_assoc. reflexivity.
  - destruct (IH (q :: qs)) as [dropped E]; [simpl in *; lia|].
    exists (p ++ [d] ++ dropped). cbn [skipn] in *. rewrite E.
    rewrite <- !app_assoc. reflexivity.
Qed.

Lemma sliceFrom_skipn {A} (a : list A) start :
  sliceFrom a start =
  skipn (Z.to_nat (relIndex (Z.of_nat (length a)) start)) a.
Proof.
  unfold sliceFrom, slice.
  pose proof (relIndex_range (Z.of_nat (length a)) start ltac:(lia)) as Hk.
  replace (relIndex (Z.of_nat (length a)) (Z.of_nat (length a)))
    with (Z.of_nat (length a)) by (unfold relIndex; destruct (_ <? 0)%Z eqn:E; lia).
  apply firstn_all2. rewrite length_skipn. lia.
Qed.

(** X24: when the sentence read does not fit, the buffer is pushed as a
    chunk without the white space at its ends, and the new buffer is an end
    of the old one, a space and the sentence.  With an [overlap] from 0 to 9
    that end is the whole old buffer; with an [overlap] of 10 or more it
    starts after a space of the old buffer, or is the whole of it, and has
    fewer than [overlap / 10] spaces, so at most that many words. *)
Theorem chunkStep_overlap chunkSize overlap st sentence :
  currentChunk st <> [] ->
  (Z.of_nat (length (currentChunk st)) + Z.of_nat (length sentence) > chunkSize)%Z ->
  exists dropped carry,
    currentChunk st = dropped ++ carry /\
    chunkStep chunkSize overlap st sentence =
      mkChunkState (chunks st ++ [trim (currentChunk st)])
                   (carry ++ lit " " ++ sentence) /\
    ((0 <= overlap < 10)%Z -> dropped = []) /\
    ((10 <= overlap)%Z ->
     (dropped = [] \/ exists d, dropped = d ++ lit " ") /\
     (Z.of_nat (count_occ ascii_dec carry " "%char) < overlap / 10)%Z).
Proof.
  intros Hne Hbig. change (lit " ") with [" "%char].
  set (cur := currentChunk st) in *.
  set (words := splitChar " " cur).
  set (k := Z.to_nat (relIndex (Z.of_nat (length words)) (overlapStart overlap))).
  assert (Hstep : chunkStep chunkSize overlap st sentence =
            mkChunkState (chunks st ++ [trim cur])
              (join ([" "%char]) (skipn k words) ++ [" "%char] ++ sentence)).
  { unfold chunkStep. fold cur.
    destruct (Z.gtb_spec (Z.of_nat (length cur) + Z.of_nat (length sentence))
                chunkSize); [|lia].
    destruct cur; [congruence|]. cbn [length Nat.ltb Nat.leb andb].
    fold words. rewrite sliceFrom_skipn. reflexivity. }
  assert (Hwords : 0 < length words).
  { pose proof (splitChar_cons " " cur). fold words in H.
    destruct words; [congruence|simpl; lia]. }
  assert (Hjoin : join ([" "%char]) words = cur) by apply join_splitChar.
  assert (Hsuffix : k = 0 /\ join ([" "%char]) (skipn k words) = cur \/
                    length words <= k /\ join ([" "%char]) (skipn k words) = [] \/
                    0 < k < length words /\
                    exists d, cur = (d ++ [" "%char]) ++ join ([" "%char]) (skipn k words)).
  { destruct (Nat.eq_dec k 0) as [->|Hk0]; [left; split; [reflexivity|exact Hjoin]|].
    destruct (le_lt_dec (length words) k) as [Hge|Hlt].
    - right. left. split; [exact Hge|]. rewrite skipn_all2 by exact Hge. reflexivity.
    - right. right. split; [lia|].
      destruct (join_skipn " "%char k words ltac:(lia)) as [d E].
      exists d. rewrite <- Hjoin. exact E. }
  assert (Hsmall : (0 <= overlap < 10)%Z -> k = 0).
  { intros Ho. unfold k, overlapStart.
    rewrite Z.quot_opp_l, Z.quot_small by lia.
    unfold relIndex. cbn [Z.opp Z.ltb Z.compare]. lia. }
  assert (Hlarge : (10 <= overlap)%Z ->
            (1 <= overlap / 10)%Z /\
            k = Z.to_nat (Z.max (Z.of_nat (length words) - overlap / 10) 0)).
  { intros Ho.
    assert (H1 : (1 <= overlap / 10)%Z) by (apply Z.div_le_lower_bound; lia).
    split; [exact H1|].
    unfold k, overlapStart, relIndex.
    rewrite Z.quot_opp_l, Z.quot_div_nonneg by lia.
    destruct (Z.ltb_spec (- (overlap / 10)) 0); [|lia].
    reflexivity. }
  destruct Hsuffix as [[Hk Hs]|[[Hk Hs]|[Hk [d Hs]]]].
  - exists [], cur. rewrite Hs in Hstep.
    split; [reflexivity|split; [exact Hstep|split; [reflexivity|]]].
    intros Ho. split; [left; reflexivity|].
    destruct (Hlarge Ho) as [H1 Hk'].
    rewrite <- Hjoin, join_count by apply splitChar_pieces.
    fold words. clear Hsmall Hlarge Hs Hstep. clearbody k. unfold str in *. lia.
  - exists cur, []. rewrite Hs in Hstep. rewrite app_nil_r.
    split; [reflexivity|split; [exact Hstep|split]].
    + intros Ho. specialize (Hsmall Ho). lia.
    + intros Ho. destruct (Hlarge Ho) as [H1 Hk'].
      clear Hsmall Hlarge Hs Hstep. clearbody k. unfold str in *. lia.
  - exists (d ++ [" "%char]), (join [" "%char] (skipn k words)).
    split; [exact Hs|split; [exact Hstep|split]].
    + intros Ho. specialize (Hsmall Ho). lia.
    + intros Ho. destruct (Hlarge Ho) as [H1 Hk'].
      split; [right; exists d; reflexivity|].
      rewrite join_count.
      * rewrite length_skipn. clear Hsmall Hlarge Hs Hstep. clearbody k. unfold str in *. lia.
      * apply Forall_forall. intros p Hp.
        apply (proj1 (Forall_forall _ _) (splitChar_pieces " "%char cur)).
        fold words. rewrite <- (firstn_skipn k words).
        apply in_or_app. right. exact Hp.
Qed.

Lemma chunkStep_overlap_witness :
  exists dropped carry,
    lit "one two three four five six seven" = dropped ++ carry /\
    chunkStep 30 50 (mkChunkState [] (lit "one two three four five six seven"))
      (lit " eight") =
      mkChunkState ([] ++ [trim (lit "one two three four five six seven")])
                   (carry ++ lit " " ++ lit " eight") /\
    ((0 <= 50 < 10)%Z -> dropped = []) /\
    ((10 <= 50)%Z ->
     (dropped = [] \/ exists d, dropped = d ++ lit " ") /\
     (Z.of_nat (count_occ ascii_dec carry " "%char) < 50 / 10)%Z).
Proof.
  apply (chunkStep_overlap 30 50
           (mkChunkState [] (lit "one two three four five six seven"))
           (lit " eight")).
  - discriminate.
  - vm_compute. reflexivity.
Defined.

Example overlap_below_ten :
  chunkText (lit "one two three. four five six") 20 0 =
  [lit "one two three"; lit "one two three  four five six"].
Proof. vm_compute. reflexivity. Qed.


(** ** Rounding and order *)

Module RoundFacts.
Import Num NumFacts.
Local Open Scope Z_scope.

(** The alignment step [shr_fexp] divides the mantissa by the power of two
    that brings the exponent to the one of the format. *)
Lemma shr_fexp_value m e l mrs e' :
  0 <= m -> e <= fexp (D m + e) ->
  shr_fexp prec emax m e l = (mrs, e') ->
  e' = fexp (D m + e) /\ shr_m mrs = m / 2 ^ (e' - e).
Proof.
  intros Hm Hpre. unfold shr_fexp, shr.
  destruct (fexp (D m + e) - e) as [|p|p] eqn:En; intros E;
    injection E as <- <-.
  - rewrite shr_record_of_loc_m. split; [lia|].
    replace (e - e) with 0 by lia. rewrite Z.pow_0_r, Z.div_1_r. reflexivity.
  - rewrite iter_shr_1_m by (rewrite shr_record_of_loc_m; assumption).
    rewrite shr_record_of_loc_m. split; [lia|].
    replace (e + Z.pos p - e) with (Z.pos p) by lia. reflexivity.
  - lia.
Qed.

Lemma pow2_add a b : 0 <= a -> 0 <= b -> 2 ^ (a + b) = 2 ^ a * 2 ^ b.
Proof. intros. apply Z.pow_add_r; assumption. Qed.

Lemma pow2_le a b : a <= b -> 2 ^ a <= 2 ^ b.
Proof. intros. apply Z.pow_le_mono_r; lia. Qed.

(** The number of digits orders values: a value with fewer binary digits
    before the point is the smaller one. *)
Lemma scaled_lt_digits m1 e1 m2 e2 :
  0 < m1 -> 0 < m2 -> -1074 <= e1 -> -1074 <= e2 ->
  D m1 + e1 < D m2 + e2 ->
  m1 * 2 ^ (e1 + 1074) < m2 * 2 ^ (e2 + 1074).
Proof.
  intros H1 H2 He1 He2 Hd.
  pose proof (D_bounds m1 H1) as [_ Hu].
  pose proof (D_bounds m2 H2) as [Hl _].
  pose proof (D_pos m1 H1). pose proof (D_pos m2 H2).
  pose proof (pow2_pos (e1 + 1074) ltac:(lia)).
  pose proof (pow2_pos (e2 + 1074) ltac:(lia)).
  assert (Ha : m1 * 2 ^ (e1 + 1074) < 2 ^ (D m1 + (e1 + 1074))).
  { rewrite (pow2_add (D m1) (e1 + 1074)) by lia. nia. }
  assert (Hb : 2 ^ (D m2 - 1 + (e2 + 1074)) <= m2 * 2 ^ (e2 + 1074)).
  { rewrite (pow2_add (D m2 - 1) (e2 + 1074)) by lia. nia. }
  pose proof (pow2_le (D m1 + (e1 + 1074)) (D m2 - 1 + (e2 + 1074)) ltac:(lia)).
  lia.
Qed.

Lemma scaled_le_digits m1 e1 m2 e2 :
  0 < m1 -> 0 < m2 -> -1074 <= e1 -> -1074 <= e2 ->
  m1 * 2 ^ (e1 + 1074) <= m2 * 2 ^ (e2 + 1074) ->
  D m1 + e1 <= D m2 + e2.
Proof.
  intros H1 H2 He1 He2 Hle.
  destruct (Z_le_gt_dec (D m1 + e1) (D m2 + e2)) as [H|H]; [exact H|].
  pose proof (scaled_lt_digits m2 e2 m1 e1 H2 H1 He2 He1 ltac:(lia)). lia.
Qed.

(** A value on a coarser grid, written on a finer one. *)
Lemma scaled_shift m e e' :
  -1074 <= e' -> e' <= e ->
  m * 2 ^ (e + 1074) = m * 2 ^ (e - e') * 2 ^ (e' + 1074).
Proof.
  intros H1 H2. rewrite <- Z.mul_assoc, <- (pow2_add (e - e') (e' + 1074)) by lia.
  do 2 f_equal. lia.
Qed.

(** The alignment step does not go below a Number in canonical form that
    the value is not below. *)
Lemma shr_fexp_ge m e l mrs e' my ey :
  0 < m -> -1074 <= e -> e <= fexp (D m + e) ->
  0 < my -> -1074 <= ey -> ey = fexp (D my + ey) ->
  my * 2 ^ (ey + 1074) <= m * 2 ^ (e + 1074) ->
  shr_fexp prec emax m e l = (mrs, e') ->
  my * 2 ^ (ey + 1074) <= shr_m mrs * 2 ^ (e' + 1074).
Proof.
  intros Hm He Hpre Hmy Hey Hcan Hle E.
  pose proof (shr_fexp_value m e l mrs e' ltac:(lia) Hpre E) as [He' Hq].
  pose proof (shr_fexp_post m e l mrs e' ltac:(lia) Hpre E)
    as (_ & He'min & _ & _ & Hpos & Hd).
  specialize (Hpos Hm He). specialize (Hd Hpos).
  pose proof (pow2_pos (e' + 1074) ltac:(lia)) as Hg.
  destruct (Z_le_gt_dec e' ey) as [Hfine|Hcoarse].
  - rewrite (scaled_shift my ey e') by lia.
    apply Z.mul_le_mono_nonneg_r; [lia|].
    rewrite Hq. apply Z.div_le_lower_bound; [apply pow2_pos; lia|].
    rewrite (scaled_shift my ey e') in Hle by lia.
    assert (E2 : 2 ^ (e' + 1074) = 2 ^ (e' - e) * 2 ^ (e + 1074)).
    { rewrite <- Z.pow_add_r by lia. f_equal. lia. }
    rewrite E2 in Hle.
    pose proof (pow2_pos (e + 1074) ltac:(lia)).
    pose proof (pow2_pos (e' - e) ltac:(lia)).
    pose proof (pow2_pos (ey - e') ltac:(lia)). nia.
  - apply Z.lt_le_incl. apply scaled_lt_digits; try lia.
    rewrite Hd.
    destruct (Z_lt_le_dec (D my + ey) (D m + e)) as [H|H]; [exact H|].
    pose proof (fexp_mono _ _ H). lia.
Qed.

(** Rounding does not go below a Number in canonical form that the value
    is not below. *)
Lemma binary_round_aux_ge m e l my ey :
  0 < m -> -1074 <= e -> e <= fexp (D m + e) ->
  0 < my -> -1074 <= ey -> ey = fexp (D my + ey) ->
  my * 2 ^ (ey + 1074) <= m * 2 ^ (e + 1074) ->
  binary_round_aux prec emax false m e l = S754_infinity false \/
  exists m' e',
    binary_round_aux prec emax false m e l = S754_finite false m' e' /\
    my * 2 ^ (ey + 1074) <= Z.pos m' * 2 ^ (e' + 1074).
Proof.
  intros Hm He Hpre Hmy Hey Hcan Hle. unfold binary_round_aux.
  destruct (shr_fexp prec emax m e l) as [mrs1 e1] eqn:E1.
  pose proof (shr_fexp_ge m e l mrs1 e1 my ey Hm He Hpre Hmy Hey Hcan Hle E1)
    as Hge1.
  apply shr_fexp_post in E1; try assumption; try lia.
  destruct E1 as (H1nn & H1e & H1c & H1z & H1p & H1d).
  specialize (H1p Hm He).
  pose proof (round_nearest_even_bounds (shr_m mrs1) (loc_of_shr_record mrs1)) as Hr.
  set (m1 := round_nearest_even (shr_m mrs1) (loc_of_shr_record mrs1)) in *.
  assert (Hpre1 : e1 <= fexp (D m1 + e1)).
  { rewrite <- (H1c ltac:(lia)) at 1. apply fexp_mono.
    pose proof (D_mono (shr_m mrs1) m1 ltac:(lia) ltac:(lia)). lia. }
  assert (Hle1 : my * 2 ^ (ey + 1074) <= m1 * 2 ^ (e1 + 1074)).
  { pose proof (pow2_pos (e1 + 1074) ltac:(lia)). nia. }
  destruct (shr_fexp prec emax m1 e1 loc_Exact) as [mrs2 e2] eqn:E2.
  pose proof (shr_fexp_ge m1 e1 loc_Exact mrs2 e2 my ey ltac:(lia) H1e Hpre1
                Hmy Hey Hcan Hle1 E2) as Hge2.
  apply shr_fexp_post in E2; try assumption; try lia.
  destruct E2 as (H2nn & H2e & H2c & H2z & H2p & H2d).
  specialize (H2p ltac:(lia) H1e).
  destruct (shr_m mrs2) as [|q|q] eqn:Eq2; try lia.
  destruct (e2 <=? emax - prec); [right|left; reflexivity].
  exists q, e2. split; [reflexivity|exact Hge2].
Qed.

(** Rounding does not go above a Number in canonical form that the value
    is below. *)
Lemma binary_round_aux_le m e l mc ec :
  0 < m -> -1074 <= e -> e <= fexp (D m + e) ->
  0 < mc -> -1074 <= ec -> ec = fexp (D mc + ec) -> D mc + ec <= 1023 ->
  m * 2 ^ (e + 1074) < mc * 2 ^ (ec + 1074) ->
  exists m' e',
    binary_round_aux prec emax false m e l = S754_finite false m' e' /\
    Z.pos m' * 2 ^ (e' + 1074) <= mc * 2 ^ (ec + 1074).
Proof.
  intros Hm He Hpre Hmc Hec Hcan Hfin Hlt.
  pose proof (scaled_le_digits m e mc ec Hm Hmc He Hec ltac:(lia)) as Hmag.
  destruct (binary_round_aux_cases false m e l ltac:(lia) Hpre)
    as (_ & _ & Hnz & Hni).
  specialize (Hnz Hm He). specialize (Hni ltac:(lia)).
  revert Hnz Hni. unfold binary_round_aux.
  destruct (shr_fexp prec emax m e l) as [mrs1 e1] eqn:E1.
  pose proof (shr_fexp_value m e l mrs1 e1 ltac:(lia) Hpre E1) as [He1 Hq1].
  apply shr_fexp_post in E1; try assumption; try lia.
  destruct E1 as (H1nn & H1e & H1c & H1z & H1p & H1d).
  specialize (H1p Hm He).
  pose proof (round_nearest_even_bounds (shr_m mrs1) (loc_of_shr_record mrs1)) as Hr.
  set (m1 := round_nearest_even (shr_m mrs1) (loc_of_shr_record mrs1)) in *.
  assert (Hpre1 : e1 <= fexp (D m1 + e1)).
  { rewrite <- (H1c ltac:(lia)) at 1. apply fexp_mono.
    pose proof (D_mono (shr_m mrs1) m1 ltac:(lia) ltac:(lia)). lia. }
  assert (Hgrid : e1 <= ec).
  { rewrite He1, Hcan. apply fexp_mono. exact Hmag. }
  pose proof (pow2_pos (e1 + 1074) ltac:(lia)) as Hg.
  pose proof (pow2_pos (e1 - e) ltac:(lia)) as Hk.
  pose proof (pow2_pos (e + 1074) ltac:(lia)) as Hs.
  assert (Hle1 : m1 * 2 ^ (e1 + 1074) <= mc * 2 ^ (ec + 1074)).
  { rewrite (scaled_shift mc ec e1) by lia.
    apply Z.mul_le_mono_nonneg_r; [lia|].
    assert (Hq : shr_m mrs1 < mc * 2 ^ (ec - e1)).
    { rewrite (scaled_shift mc ec e1) in Hlt by lia.
      assert (E2 : 2 ^ (e1 + 1074) = 2 ^ (e1 - e) * 2 ^ (e + 1074)).
      { rewrite <- Z.pow_add_r by lia. f_equal. lia. }
      rewrite E2 in Hlt.
      rewrite Hq1. apply Z.div_lt_upper_bound; [lia|]. nia. }
    lia. }
  destruct (shr_fexp prec emax m1 e1 loc_Exact) as [mrs2 e2] eqn:E2.
  pose proof (shr_fexp_value m1 e1 loc_Exact mrs2 e2 ltac:(lia) Hpre1 E2)
    as [He2 Hq2].
  apply shr_fexp_post in E2; try assumption; try lia.
  destruct E2 as (H2nn & H2e & H2c & H2z & H2p & H2d).
  specialize (H2p ltac:(lia) H1e).
  destruct (shr_m mrs2) as [|q|q] eqn:Eq2; try lia.
  destruct (e2 <=? emax - prec); intros _ Hni; [|congruence].
  exists q, e2. split; [reflexivity|].
  eapply Z.le_trans; [|exact Hle1].
  assert (E3 : 2 ^ (e2 + 1074) = 2 ^ (e2 - e1) * 2 ^ (e1 + 1074)).
  { rewrite <- Z.pow_add_r by lia. f_equal. lia. }
  rewrite E3.
  pose proof (pow2_pos (e2 - e1) ltac:(lia)) as Hk2.
  assert (Z.pos q * 2 ^ (e2 - e1) <= m1).
  { rewrite Hq2. rewrite Z.mul_comm. apply Z.mul_div_le. lia. }
  nia.
Qed.

Lemma units_scaled m e :
  units (S754_finite false m e) = Z.pos m * 2 ^ (e + 1074).
Proof.
  reflexivity.
Qed.

(** The exponent of a positive finite Number in canonical form is the one
    the format gives to its number of digits. *)
Lemma posFinite_canonical m e :
  posFinite (S754_finite false m e) = true ->
  -1074 <= e /\ e = fexp (D (Z.pos m) + e) /\ D (Z.pos m) <= 53 /\
  (-1074 < e -> D (Z.pos m) = 53).
Proof.
  intros H. destruct (posFinite_inv _ H) as (m' & e' & E & _ & Hd & He & Hn).
  injection E as <- <-. rewrite fexp_eq. repeat split; try assumption.
  destruct (Z.eq_dec e (-1074)) as [->|Hne]; [lia|].
  rewrite (Hn ltac:(lia)). lia.
Qed.

(** Two positive finite Numbers in canonical form of one value are the
    same Number. *)
Lemma units_inj x y :
  posFinite x = true -> posFinite y = true -> units x = units y -> x = y.
Proof.
  intros Hx Hy Hu.
  pose proof (compare_units x y Hx Hy) as Hc.
  rewrite Hu, Z.compare_refl in Hc.
  destruct x as [| | |[] mx ex]; try discriminate.
  destruct y as [| | |[] my ey]; try discriminate.
  cbn [SFcompare] in Hc.
  destruct (Z.compare_spec ex ey) as [He| |]; try discriminate.
  rewrite Pos.compare_cont_spec in Hc. cbn [Pos.switch_Eq] in Hc.
  destruct (Pos.compare_spec mx my) as [Hm| |]; try discriminate.
  subst. reflexivity.
Qed.

Lemma D_mul_ge a b : 2 ^ 52 <= a -> 2 ^ 52 <= b -> 105 <= D (a * b).
Proof.
  intros Ha Hb.
  assert (H : 2 ^ 104 <= a * b).
  { change (2 ^ 104) with (2 ^ 52 * 2 ^ 52). nia. }
  pose proof (D_mono (2 ^ 104) (a * b) ltac:(lia) H) as Hd.
  rewrite D_pow2 in Hd by lia. lia.
Qed.

(** [relevance * 100] for a relevance above 0.1 and below 1: a Number
    from 10 to 100. *)
Lemma mul_100_bounds r :
  posFinite r = true -> ltb lit_0_1 r = true -> ltb r one = true ->
  exists m e,
    mul r (ofZ 100) = S754_finite false m e /\
    posFinite (S754_finite false m e) = true /\
    10 * 2 ^ 1074 <= Z.pos m * 2 ^ (e + 1074) <= 100 * 2 ^ 1074.
Proof.
  intros Hr Hlo Hhi.
  apply (ltb_units lit_0_1 r eq_refl Hr) in Hlo.
  apply (ltb_units r one Hr eq_refl) in Hhi.
  destruct r as [| | |[] mr er]; try discriminate.
  destruct (posFinite_canonical mr er Hr) as (Her & Hcan & Hd & Hn).
  unfold lit_0_1, one in *. rewrite !units_scaled in Hlo, Hhi.
  pose proof (scaled_le_digits 7205759403792794 (-56) (Z.pos mr) er
                ltac:(lia) ltac:(lia) ltac:(lia) Her ltac:(lia)) as Hd1.
  pose proof (scaled_le_digits (Z.pos mr) er 4503599627370496 (-52)
                ltac:(lia) ltac:(lia) Her ltac:(lia) ltac:(lia)) as Hd2.
  change (D 7205759403792794) with 53 in Hd1.
  change (D 4503599627370496) with 53 in Hd2.
  specialize (Hn ltac:(lia)).
  assert (Hmr : 2 ^ 52 <= Z.pos mr).
  { pose proof (D_bounds (Z.pos mr) ltac:(lia)) as [Hl _].
    rewrite Hn in Hl. exact Hl. }
  set (j := er + 56).
  assert (Hj : 0 <= j <= 4) by (unfold j; lia).
  pose proof (pow2_pos 972 ltac:(lia)) as HW.
  pose proof (pow2_pos j ltac:(lia)) as HJ.
  assert (Er : 2 ^ (er + 1074) = 2 ^ j * 2 ^ 46 * 2 ^ 972).
  { rewrite <- !Z.pow_add_r by lia. f_equal. unfold j. lia. }
  assert (Ep : 2 ^ (er + -46 + 1074) = 2 ^ j * 2 ^ 972).
  { rewrite <- !Z.pow_add_r by lia. f_equal. unfold j. lia. }
  assert (E01 : 2 ^ (-56 + 1074) = 2 ^ 46 * 2 ^ 972) by reflexivity.
  assert (E1 : 2 ^ (-52 + 1074) = 2 ^ 50 * 2 ^ 972) by reflexivity.
  assert (E10 : 2 ^ (-49 + 1074) = 2 ^ 53 * 2 ^ 972) by reflexivity.
  assert (E100 : 2 ^ (-46 + 1074) = 2 ^ 56 * 2 ^ 972) by reflexivity.
  assert (Ea : 10 * 2 ^ 1074 = 5629499534213120 * 2 ^ (-49 + 1074)) by reflexivity.
  assert (Eb : 100 * 2 ^ 1074 = 7036874417766400 * 2 ^ (-46 + 1074)) by reflexivity.
  rewrite Er, E01 in Hlo. rewrite Er, E1 in Hhi.
  set (W := 2 ^ 972) in *. set (X := Z.pos mr * 2 ^ j) in *.
  assert (HX1 : 7205759403792794 < X).
  { apply (Z.mul_lt_mono_pos_r (2 ^ 46 * W)); [lia|]. unfold X. lia. }
  assert (HX2 : X < 2 ^ 56).
  { apply (Z.mul_lt_mono_pos_r (2 ^ 46 * W)); [lia|]. unfold X.
    replace (2 ^ 56 * (2 ^ 46 * W)) with (4503599627370496 * (2 ^ 50 * W)) by lia.
    lia. }
  assert (E : ofZ 100 = S754_finite false 7036874417766400 (-46)) by reflexivity.
  rewrite E. unfold mul, SFmul. cbn [xorb]. rewrite Pos2Z.inj_mul.
  assert (Hpre : er + -46 <= fexp (D (Z.pos mr * 7036874417766400) + (er + -46))).
  { pose proof (D_mul_ge (Z.pos mr) 7036874417766400 Hmr ltac:(lia)).
    rewrite fexp_eq. lia. }
  assert (Hval : Z.pos mr * 7036874417766400 * 2 ^ (er + -46 + 1074) =
                 X * 7036874417766400 * W).
  { rewrite Ep. fold W. unfold X. lia. }
  assert (Hlow : 5629499534213120 * 2 ^ (-49 + 1074) <=
                 Z.pos mr * 7036874417766400 * 2 ^ (er + -46 + 1074)).
  { rewrite Hval, E10. fold W. nia. }
  assert (Hhigh : Z.pos mr * 7036874417766400 * 2 ^ (er + -46 + 1074) <
                  7036874417766400 * 2 ^ (-46 + 1074)).
  { rewrite Hval, E100. fold W. nia. }
  destruct (binary_round_aux_le (Z.pos mr * 7036874417766400) (er + -46) loc_Exact
              7036874417766400 (-46) ltac:(lia) ltac:(lia) Hpre ltac:(lia)
              ltac:(lia) eq_refl ltac:(discriminate) Hhigh)
    as (m2 & e2 & Em2 & Hle).
  destruct (binary_round_aux_ge (Z.pos mr * 7036874417766400) (er + -46) loc_Exact
              5629499534213120 (-49) ltac:(lia) ltac:(lia) Hpre ltac:(lia)
              ltac:(lia) eq_refl Hlow)
    as [Hinf|(m1 & e1 & Em1 & Hge)].
  - rewrite Em2 in Hinf. discriminate.
  - rewrite Em1 in Em2. injection Em2 as <- <-.
    exists m1, e1. split; [exact Em1|split].
    + destruct (binary_round_aux_cases false (Z.pos mr * 7036874417766400)
                  (er + -46) loc_Exact ltac:(lia) Hpre) as (Hv & _).
      rewrite Em1 in Hv. exact Hv.
    + rewrite Ea, Eb. split; assumption.
Qed.

Lemma binary_round_ge m e my ey :
  -1074 <= e -> 0 < my -> -1074 <= ey -> ey = fexp (D my + ey) ->
  my * 2 ^ (ey + 1074) <= Z.pos m * 2 ^ (e + 1074) ->
  binary_round prec emax false m e = S754_infinity false \/
  exists m' e',
    binary_round prec emax false m e = S754_finite false m' e' /\
    my * 2 ^ (ey + 1074) <= Z.pos m' * 2 ^ (e' + 1074).
Proof.
  intros He Hmy Hey Hcan Hle. unfold binary_round.
  pose proof (shl_align_spec m e (fexp (Z.pos (digits2_pos m) + e))) as [Hm Hez].
  destruct (shl_align m e (fexp (Z.pos (digits2_pos m) + e))) as [mz ez].
  cbn [fst snd] in Hm, Hez.
  pose proof (fexp_ge (Z.pos (digits2_pos m) + e)) as Hge.
  assert (Hd : D (Z.pos mz) + ez = D (Z.pos m) + e).
  { rewrite Hm, D_mul_pow2 by lia. lia. }
  assert (Hpre : ez <= fexp (D (Z.pos mz) + ez)).
  { rewrite Hd. simpl D. lia. }
  apply binary_round_aux_ge; try assumption; try lia.
  rewrite Hm, Hez.
  rewrite <- (scaled_shift (Z.pos m) e) by lia.
  exact Hle.
Qed.

(** Adding a Number that is not negative to a positive one does not give
    less than the positive one. *)
Lemma add_ge_r x y :
  wf x = true -> nonneg x = true -> posFinite y = true ->
  add x y = S754_infinity false \/
  (posFinite (add x y) = true /\ units y <= units (add x y)).
Proof.
  intros Hwx Hx Hy.
  assert (Hwy : wf y = true).
  { destruct y as [| | |[] ? ?]; try discriminate. exact Hy. }
  pose proof (add_wf x y Hwx Hwy) as Hw.
  destruct y as [| | |[] my ey]; try discriminate.
  destruct (posFinite_canonical my ey Hy) as (Hey & Hcan & _ & _).
  destruct (nonneg_inv x Hx) as [[sx ->]|[->|(mx & ex & ->)]].
  - right. split; [exact Hy|]. cbn [add SFadd]. lia.
  - left. reflexivity.
  - pose proof (wf_finite _ _ _ Hwx) as [Hcx _].
    pose proof (fexp_ge (D (Z.pos mx) + ex)) as Hex. rewrite Hcx in Hex.
    revert Hw. unfold add, SFadd. cbn [cond_Zopp].
    set (ez := Z.min ex ey).
    pose proof (shl_align_spec mx ex ez) as [Ha _].
    pose proof (shl_align_spec my ey ez) as [Hb _].
    replace (Z.min ex ez) with ez in Ha by lia.
    replace (Z.min ey ez) with ez in Hb by lia.
    set (a := fst (shl_align mx ex ez)) in *.
    set (b := fst (shl_align my ey ez)) in *.
    rewrite <- Pos2Z.inj_add. cbn [binary_normalize].
    intros Hw.
    destruct (binary_round_ge (a + b) ez (Z.pos my) ey)
      as [Hinf|(m' & e' & E & Hge)]; try lia; try assumption.
    + rewrite (scaled_shift (Z.pos my) ey ez) by lia. rewrite <- Hb.
      pose proof (pow2_pos (ez + 1074) ltac:(lia)). nia.
    + left. exact Hinf.
    + right. rewrite E in *. split; [exact Hw|].
      rewrite !units_scaled. exact Hge.
Qed.

(** [Math.round] of a Number from 10 to 100. *)
Lemma round_10_100 m e :
  posFinite (S754_finite false m e) = true ->
  10 * 2 ^ 1074 <= Z.pos m * 2 ^ (e + 1074) <= 100 * 2 ^ 1074 ->
  exists n, 10 <= n <= 100 /\ round (S754_finite false m e) = ofZ n.
Proof.
  intros Hx [Hlo Hhi].
  destruct (posFinite_canonical m e Hx) as (He & Hcan & Hd & Hn).
  assert (Ea : 10 * 2 ^ 1074 = 5629499534213120 * 2 ^ (-49 + 1074)) by reflexivity.
  assert (Eb : 100 * 2 ^ 1074 = 7036874417766400 * 2 ^ (-46 + 1074)) by reflexivity.
  pose proof (scaled_le_digits 5629499534213120 (-49) (Z.pos m) e
                ltac:(lia) ltac:(lia) ltac:(lia) He ltac:(lia)) as Hd1.
  pose proof (scaled_le_digits (Z.pos m) e 7036874417766400 (-46)
                ltac:(lia) ltac:(lia) He ltac:(lia) ltac:(lia)) as Hd2.
  change (D 5629499534213120) with 53 in Hd1.
  change (D 7036874417766400) with 53 in Hd2.
  specialize (Hn ltac:(lia)).
  assert (Hneg : e < 0) by lia.
  pose proof (pow2_pos (- e) ltac:(lia)) as HK.
  pose proof (pow2_pos (e + 1074) ltac:(lia)) as HG.
  assert (E : 2 ^ 1074 = 2 ^ (- e) * 2 ^ (e + 1074)).
  { rewrite <- Z.pow_add_r by lia. f_equal. lia. }
  assert (E2 : 2 ^ (1 - e) = 2 * 2 ^ (- e)).
  { rewrite <- Z.pow_succ_r by lia. f_equal. lia. }
  rewrite E in Hlo, Hhi.
  set (K := 2 ^ (- e)) in *. set (G := 2 ^ (e + 1074)) in *.
  assert (Hm1 : 10 * K <= Z.pos m) by nia.
  assert (Hm2 : Z.pos m <= 100 * K) by nia.
  unfold round. destruct (Z.leb_spec 0 e) as [H|_]; [lia|].
  cbn [cond_Zopp]. rewrite E2. fold K.
  set (n := (Z.pos m * 2 + K) / (2 * K)).
  assert (Hn1 : 10 <= n) by (apply Z.div_le_lower_bound; lia).
  assert (Hn2 : n < 101) by (apply Z.div_lt_upper_bound; lia).
  exists n. split; [lia|].
  destruct (Z.eqb_spec n 0); [lia|reflexivity].
Qed.

(** [Math.round(relevance * 100)] for a relevance above 0.1 and at most
    1: a whole number from 10 to 100. *)
Lemma percent_10_100 r :
  posFinite r = true -> ltb lit_0_1 r = true -> leb r one = true ->
  exists n, 10 <= n <= 100 /\ round (mul r (ofZ 100)) = ofZ n.
Proof.
  intros Hr Hlo Hhi.
  apply (leb_units r one Hr eq_refl) in Hhi.
  destruct (Z.eq_dec (units r) (units one)) as [Heq|Hne].
  - apply (units_inj r one Hr eq_refl) in Heq. subst r.
    exists 100. split; [lia|]. vm_compute. reflexivity.
  - assert (Hlt : ltb r one = true).
    { apply (ltb_units r one Hr eq_refl). lia. }
    destruct (mul_100_bounds r Hr Hlo Hlt) as (m & e & -> & Hx & Hb).
    apply round_10_100; assumption.
Qed.

End RoundFacts.

(** X25: the percentage of a source.  For every source that
    [retrieveRelevantChunks] returns, [Math.round(relevance * 100)], the
    number that the answer and the list of sources show as the match of the
    source, is a whole number from 10 to 100. *)
Theorem source_percent documents query topK source :
  In source (retrieveRelevantChunks documents query topK) ->
  exists n,
    (10 <= n <= 100)%Z /\
    Num.round (Num.mul (Source.relevance source) (Num.ofZ 100)) = Num.ofZ n /\
    forall numberToString,
      percent numberToString (Source.relevance source) =
      numberToString (Num.ofZ n).
Proof.
  intros H. apply retrieve_In in H as (c & Hc & ->).
  apply scanOrder_In in Hc as (doc & chunk & _ & _ & Habove & ->).
  cbn [toSource Source.relevance Candidate.score].
  pose proof (ScoreFacts.score_posFinite query chunk Habove) as Hpos.
  assert (Hle : Num.leb (calculateSimilarity query chunk) Num.one = true).
  { unfold calculateSimilarity in *.
    destruct (ScoreFacts.min_one_le
                (Num.add (jaccard query chunk) (phraseBoost query chunk)))
      as [Hnan|Hle]; [|exact Hle].
    destruct (Num.min _ _); discriminate. }
  destruct (RoundFacts.percent_10_100 _ Hpos Habove Hle) as (n & Hn & E).
  exists n. split; [exact Hn|split; [exact E|]].
  intros numberToString. unfold percent. rewrite E. reflexivity.
Qed.

Lemma source_percent_witness :
  exists n,
    (10 <= n <= 100)%Z /\
    Num.round (Num.mul (calculateSimilarity (lit "the cat sat") (lit "the cat"))
                 (Num.ofZ 100)) = Num.ofZ n /\
    forall numberToString,
      percent numberToString
        (calculateSimilarity (lit "the cat sat") (lit "the cat")) =
      numberToString (Num.ofZ n).
Proof.
  apply (source_percent tiesStore (lit "the cat sat") defaultTopK
           (Source.mk (lit "d") (lit "the cat")
              (calculateSimilarity (lit "the cat sat") (lit "the cat")))).
  vm_compute. right. right. left. reflexivity.
Defined.

Lemma min_one_ge x v :
  Num.posFinite v = true -> Num.leb v Num.one = true ->
  x = S754_infinity false \/
  (Num.posFinite x = true /\ (Num.units v <= Num.units x)%Z) ->
  Num.posFinite (Num.min x Num.one) = true /\
  (Num.units v <= Num.units (Num.min x Num.one))%Z.
Proof.
  intros Hv Hv1 [->|[Hx Hle]].
  - split; [reflexivity|].
    apply (NumFacts.leb_units v Num.one Hv eq_refl). exact Hv1.
  - unfold Num.min.
    destruct x as [| | |[] m e]; try discriminate.
    cbn [Num.isNaN orb].
    destruct (Num.ltb Num.one (S754_finite false m e)).
    + split; [reflexivity|].
      apply (NumFacts.leb_units v Num.one Hv eq_refl). exact Hv1.
    + split; assumption.
Qed.

(** X26: a chunk that contains one of the phrases of the query scores at
    least 0.3, so it is above the threshold of the retrieval, provided that
    the query or the chunk has a token (otherwise the score is NaN, see C1). *)
Theorem phrase_hit_scores query text phrase :
  (Z.of_nat (length query) < 2 ^ 53)%Z -> unionOf query text <> [] ->
  In phrase (queryPhrases query) ->
  includes (toLowerCase text) phrase = true ->
  Num.leb Num.lit_0_3 (calculateSimilarity query text) = true /\
  Num.ltb Num.lit_0_1 (calculateSimilarity query text) = true.
Proof.
  intros Hlen Hu Hin Hinc.
  assert (Hpb : phraseBoost query text = S754_infinity false \/
                (Num.posFinite (phraseBoost query text) = true /\
                 (Num.units Num.lit_0_3 <= Num.units (phraseBoost query text))%Z)).
  { unfold phraseBoost. rewrite fold_boostStep.
    destruct (filter (includes (toLowerCase text)) (queryPhrases query))
      as [|p ps] eqn:Ef.
    { assert (Hp : In phrase (filter (includes (toLowerCase text))
                                (queryPhrases query))).
      { apply filter_In. split; assumption. }
      rewrite Ef in Hp. contradiction. }
    cbn [length]. unfold addBoosts. cbn [Nat.iter].
    apply RoundFacts.add_ge_r; [| |reflexivity].
    - apply ScoreFacts.addBoosts_wf. reflexivity.
    - apply ScoreFacts.addBoosts_nonneg. reflexivity. }
  pose proof (ScoreFacts.jaccard_nonneg query text Hlen Hu) as Hj.
  pose proof (ScoreFacts.jaccard_wf query text) as Hjw.
  assert (Hs : Num.add (jaccard query text) (phraseBoost query text)
               = S754_infinity false \/
               (Num.posFinite (Num.add (jaccard query text) (phraseBoost query text))
                = true /\
                (Num.units Num.lit_0_3 <=
                 Num.units (Num.add (jaccard query text) (phraseBoost query text)))%Z)).
  { destruct Hpb as [->|[Hp Hle]].
    - left.
      destruct (NumFacts.nonneg_inv _ Hj) as [[s ->]|[->|(m & e & ->)]];
        reflexivity.
    - destruct (RoundFacts.add_ge_r _ _ Hjw Hj Hp) as [Hinf|[Hp' Hle']].
      + left. exact Hinf.
      + right. split; [exact Hp'|lia]. }
  destruct (min_one_ge _ Num.lit_0_3 eq_refl eq_refl Hs) as [Hpos Hle].
  fold (calculateSimilarity query text) in Hpos, Hle.
  split.
  - apply (NumFacts.leb_units Num.lit_0_3 _ eq_refl Hpos). exact Hle.
  - apply (NumFacts.ltb_units Num.lit_0_1 _ eq_refl Hpos).
    assert (Num.units Num.lit_0_1 < Num.units Num.lit_0_3)%Z.
    { apply (NumFacts.ltb_units Num.lit_0_1 Num.lit_0_3 eq_refl eq_refl).
      reflexivity. }
    lia.
Qed.

Lemma phrase_hit_scores_witness :
  Num.leb Num.lit_0_3
    (calculateSimilarity scenarioQuery (lit "The cat sat on the mat")) = true /\
  Num.ltb Num.lit_0_1
    (calculateSimilarity scenarioQuery (lit "The cat sat on the mat")) = true.
Proof.
  apply (phrase_hit_scores scenarioQuery (lit "The cat sat on the mat")
           (lit "the cat")).
  - vm_compute. reflexivity.
  - vm_compute. discriminate.
  - vm_compute. right. left. reflexivity.
  - vm_compute. reflexivity.
Defined.

Example phrase_hit_without_token :
  calculateSimilarity (lit "is it") (lit "so is it") = S754_nan.
Proof. vm_compute. reflexivity. Qed.


(** ** The highest score *)

Module DivFacts.
Import Num NumFacts.
Local Open Scope Z_scope.

(** A finite Number divided by itself is 1: the quotient of the mantissas
    is exact. *)
Lemma div_self m e :
  div (S754_finite false m e) (S754_finite false m e) = one.
Proof.
  unfold div, SFdiv, SFdiv_core_binary. cbn [xorb].
  replace (D (Z.pos m) + e - (D (Z.pos m) + e)) with 0 by lia.
  replace (e - e) with 0 by lia.
  change (Z.min (SpecFloat.fexp prec emax 0) 0) with (-53).
  change (0 - -53) with 53.
  cbv iota beta.
  rewrite Z.shiftl_mul_pow2 by lia.
  pose proof (Z_div_mod (Z.pos m * 2 ^ 53) (Z.pos m) ltac:(lia)) as Hdm.
  destruct (Z.div_eucl (Z.pos m * 2 ^ 53) (Z.pos m)) as [q r].
  destruct Hdm as [Hdm Hr].
  assert (Hq : q = 2 ^ 53 /\ r = 0).
  { assert (Hm : Z.pos m * (2 ^ 53 - q) = r) by lia.
    destruct (Z.eq_dec q (2 ^ 53)) as [->|Hne]; [lia|exfalso].
    destruct (Z_lt_le_dec q (2 ^ 53)); nia. }
  destruct Hq as [-> ->].
  assert (Hl : new_location (Z.pos m) 0 = loc_Exact).
  { unfold new_location, new_location_even, new_location_odd.
    destruct (Z.even (Z.pos m)); reflexivity. }
  rewrite Hl. reflexivity.
Qed.

Lemma add_comm x y : add x y = add y x.
Proof.
  unfold add, SFadd.
  destruct x as [[]|[]| |sx mx ex], y as [[]|[]| |sy my ey]; try reflexivity.
  rewrite (Z.min_comm ex ey).
  rewrite (Z.add_comm (cond_Zopp sx _) (cond_Zopp sy _)). reflexivity.
Qed.

(** The score when the Jaccard part is 1. *)
Lemma min_add_one pb :
  wf pb = true -> nonneg pb = true -> min (add one pb) one = one.
Proof.
  intros Hw Hn. rewrite add_comm.
  destruct (RoundFacts.add_ge_r pb one Hw Hn eq_refl) as [->|[Hpos Hle]];
    [reflexivity|].
  unfold min.
  destruct (add pb one) as [| | |[] m' e'] eqn:E; try discriminate.
  cbn [isNaN orb].
  destruct (ltb one (S754_finite false m' e')) eqn:El; [reflexivity|].
  assert (Hu : units (S754_finite false m' e') = units one).
  { destruct (Z_lt_le_dec (units one) (units (S754_finite false m' e')))
      as [Hlt|Hge]; [|lia].
    apply (ltb_units one _ eq_refl Hpos) in Hlt. congruence. }
  apply (RoundFacts.units_inj _ one Hpos eq_refl). exact Hu.
Qed.

End DivFacts.

Lemma intersectionOf_In query text w :
  In w (intersectionOf query text) <->
  In w (wordsOf query) /\ In w (wordsOf text).
Proof.
  unfold intersectionOf.
  rewrite (proj2 (newSet_set _)), filter_In, has_In, !(proj2 (newSet_set _)).
  tauto.
Qed.

Lemma unionOf_In query text w :
  In w (unionOf query text) <-> In w (wordsOf query) \/ In w (wordsOf text).
Proof.
  unfold unionOf.
  rewrite (proj2 (newSet_set _)), in_app_iff, !(proj2 (newSet_set _)). tauto.
Qed.

(** X27: when the query and the chunk have the same tokens, at least one,
    the score is exactly 1, the highest there is, with or without a phrase
    hit; in particular a query with a token scores 1 against itself. *)
Theorem same_tokens_score_one query text :
  (Z.of_nat (length query) < 2 ^ 53)%Z ->
  wordsOf query <> [] ->
  (forall w, In w (wordsOf query) <-> In w (wordsOf text)) ->
  calculateSimilarity query text = Num.one /\
  calculateSimilarity query query = Num.one.
Proof.
  assert (H : forall q t, (Z.of_nat (length q) < 2 ^ 53)%Z -> wordsOf q <> [] ->
            (forall w, In w (wordsOf q) <-> In w (wordsOf t)) ->
            calculateSimilarity q t = Num.one).
  { intros q t Hlen Hne Hsame.
    assert (Hn : length (unionOf q t) = length (intersectionOf q t)).
    { apply same_elements_length; try apply newSet_set.
      intros w. rewrite unionOf_In, intersectionOf_In, Hsame. tauto. }
    assert (Hpos : (0 < length (intersectionOf q t))%nat).
    { destruct (wordsOf q) as [|w ws] eqn:Ew; [congruence|].
      assert (Hin : In w (intersectionOf q t)).
      { apply intersectionOf_In. rewrite <- Hsame, Ew. simpl. tauto. }
      destruct (intersectionOf q t); [contradiction|simpl; lia]. }
    assert (Hj : jaccard q t = Num.one).
    { unfold jaccard. rewrite Hn.
      pose proof (ScoreFacts.intersectionOf_length q t) as Hb.
      destruct (ScoreFacts.ofNat_cases (length (intersectionOf q t)))
        as [Hz|(m & e & E)].
      - assert ((2 ^ 53 < 2 ^ 1023)%Z) by (apply Z.pow_lt_mono_r; lia). lia.
      - exfalso. revert Hz. unfold Num.ofNat.
        destruct (length (intersectionOf q t)) as [|k]; [lia|].
        rewrite Nat2Z.inj_succ, <- Zpos_P_of_succ_nat.
        destruct (NumFacts.ofZ_pos_cases (Pos.of_succ_nat k))
          as [->|(m & e & ->)]; discriminate.
      - rewrite E. apply DivFacts.div_self. }
    unfold calculateSimilarity. rewrite Hj.
    apply DivFacts.min_add_one.
    - apply ScoreFacts.phraseBoost_wf.
    - unfold phraseBoost. rewrite fold_boostStep.
      apply ScoreFacts.addBoosts_nonneg. reflexivity. }
  intros Hlen Hne Hsame. split; [apply H; assumption|].
  apply H; try assumption. intros w. tauto.
Qed.

Lemma same_tokens_score_one_witness :
  calculateSimilarity (lit "the cat sat") (lit "Sat the cat, the CAT!") = Num.one /\
  calculateSimilarity (lit "the cat sat") (lit "the cat sat") = Num.one.
Proof.
  apply same_tokens_score_one.
  - vm_compute. reflexivity.
  - vm_compute. discriminate.
  - intros w. vm_compute. tauto.
Defined.
